(** * advanced-vector: a shallow embedding of [vector.h]

    The header defines two class templates: [RawMemory<T>], which owns a raw
    block obtained from [operator new], and [Vector<T>], which keeps the
    lifetime of the objects placed in such a block.  The embedding keeps the
    two layers, models the free store as a finite map from block addresses
    to lists of cells, and models the vector objects themselves as entries
    of a second finite map, so that two names may denote the same object
    ([this == &rhs]).

    A cell is either raw storage or holds a live object.  A cell becomes live
    only through a constructor call (placement [new] or one of the
    [std::uninitialized_*] algorithms) and raw again only through a
    destructor call.  Using a raw cell as an object, or a live cell as raw
    storage to be destroyed twice, is undefined behaviour in C++ and ends an
    execution of the model in [Fault]. *)

From stdpp Require Import gmap list.

(** ** [size_t] arithmetic *)

(** [size_t] is a 64-bit unsigned integer.  Values are kept as [nat]; the
    arithmetic of the source is written with its wrap-around. *)
Definition SIZE_MODULUS : N := 18446744073709551616%N.

Definition representable (n : nat) : Prop := (N.of_nat n < SIZE_MODULUS)%N.

Definition wrap (n : nat) : nat := N.to_nat (N.of_nat n mod SIZE_MODULUS).

Definition size_add (a b : nat) : nat := wrap (a + b).

Definition size_mul (a b : nat) : nat := wrap (a * b).

Definition size_sub (a b : nat) : nat :=
  if b <=? a then a - b
  else N.to_nat ((N.of_nat a + SIZE_MODULUS - N.of_nat b) mod SIZE_MODULUS).

(** ** The element type *)

(** What the container asks of its template parameter [T]: which of its
    special member functions throw (decided by the value involved), what a
    moved-from object holds, and the two type traits that [if constexpr]
    consults. *)
Class Element (T : Type) := {
  value_init : option T;               (* T() ; None when it throws *)
  copy_throws : T -> bool;             (* T(const T&) throws on this source *)
  move_throws : T -> bool;             (* T(T&&) throws on this source *)
  copy_assign_throws : T -> bool;      (* operator=(const T&) throws on this source *)
  move_assign_throws : T -> bool;      (* operator=(T&&) throws on this source *)
  moved_from : T -> T;                 (* what a moved-from object is left holding *)
  is_nothrow_move_constructible : bool;
  is_copy_constructible : bool
}.

(** [sizeof(T)].  [RawMemory<T>] asks [operator new] for
    [n * sizeof(T)] bytes, a product that the code takes in [size_t]. *)
Class Layout (T : Type) := {
  size_of : nat;
  size_of_pos : 0 < size_of
}.

(** A number of objects whose size in bytes [size_t] can hold. *)
Definition allocatable {T : Type} `{LT : Layout T} (n : nat) : Prop :=
  representable (n * size_of).

(** ** Memory *)

Inductive cell (T : Type) : Type :=
  | Raw : cell T
  | Live (v : T) : cell T.
Arguments Raw {T}.
Arguments Live {T} v.

Definition addr := nat.
Definition vid := nat.

(** [RawMemory<T>]: [buffer_] is [None] for [nullptr]. *)
Record RawMemory := mkRawMemory {
  buffer_ : option addr;
  capacity_ : nat
}.

(** [Vector<T>] *)
Record Vector := mkVector {
  data_ : RawMemory;
  size_ : nat
}.

(** An iterator is a [T*]: a block and an offset into it. *)
Record iterator := mkIter {
  it_base : option addr;
  it_off : nat
}.

Record state (T : Type) := mkState {
  heap : gmap addr (list (cell T));   (* blocks handed out by operator new *)
  objs : gmap vid Vector;             (* the Vector objects alive *)
  leaked : nat                        (* objects whose storage was reused or released while live *)
}.
Arguments mkState {T}.
Arguments heap {T}.
Arguments objs {T}.
Arguments leaked {T}.

Inductive fault : Type :=
  | NullPointer
  | DanglingPointer
  | OutOfBlock
  | ReadOfRawCell
  | AssignToRawCell
  | DestroyOfRawCell
  | AssertionFailed
  | NoSuchObject
  | ForeignIterator.

Inductive outcome (T A : Type) : Type :=
  | Ok (a : A) (s : state T)
  | Throw (s : state T)
  | Fault (f : fault).
Arguments Ok {T A}.
Arguments Throw {T A}.
Arguments Fault {T A}.

Definition is_live {T} (c : cell T) : bool :=
  match c with Live _ => true | Raw => false end.

Definition live_count {T} (b : list (cell T)) : nat :=
  length (List.filter is_live b).

Section Model.
Context {T : Type} `{ET : Element T}.

(** ** The monad of the model: state, exceptions, undefined behaviour *)

Definition M (A : Type) : Type := state T -> outcome T A.

Definition ret {A} (a : A) : M A := fun s => Ok a s.

Definition bind {A B} (m : M A) (f : A -> M B) : M B :=
  fun s => match m s with
           | Ok a s' => f a s'
           | Throw s' => Throw s'
           | Fault e => Fault e
           end.

Definition throw {A} : M A := fun s => Throw s.

Definition fault_with {A} (e : fault) : M A := fun _ => Fault e.

(** [try { body } catch (...) { handler }] *)
Definition try_catch {A} (body handler : M A) : M A :=
  fun s => match body s with
           | Throw s' => handler s'
           | r => r
           end.

(** Stack unwinding: a local object whose destructor [dtor] runs when an
    exception leaves [body]. *)
Definition on_unwind {A} (body : M A) (dtor : M unit) : M A :=
  try_catch body (bind dtor (fun _ => throw)).

Definition assert (b : bool) : M unit :=
  if b then ret tt else fault_with AssertionFailed.

End Model.

Declare Scope model_scope.
Notation "x ← y ; z" := (bind y (fun x => z))
  (at level 20, y at level 100, z at level 200, only parsing) : model_scope.
Notation "x ;; z" := (bind x (fun _ => z))
  (at level 100, z at level 200, only parsing, right associativity) : model_scope.
Open Scope model_scope.

Section Primitives.
Context {T : Type} `{ET : Element T}.

Local Abbreviation M := (@M T).

Definition set_heap (h : gmap addr (list (cell T))) (s : state T) : state T :=
  mkState h (objs s) (leaked s).

Definition set_objs (o : gmap vid Vector) (s : state T) : state T :=
  mkState (heap s) o (leaked s).

Definition add_leaked (n : nat) (s : state T) : state T :=
  mkState (heap s) (objs s) (leaked s + n).

(** *** Vector objects *)

Definition get_vec (this : vid) : M Vector :=
  fun s => match objs s !! this with
           | Some V => Ok V s
           | None => Fault NoSuchObject
           end.

Definition set_vec (this : vid) (V : Vector) : M unit :=
  fun s => Ok tt (set_objs (<[this := V]> (objs s)) s).

Definition del_vec (this : vid) : M unit :=
  fun s => Ok tt (set_objs (delete this (objs s)) s).

(** A name for a local [Vector] object. *)
Definition new_local : M vid :=
  fun s => Ok (fresh (dom (objs s))) s.

(** *** [RawMemory<T>] *)

(** [static T* Allocate(size_t n)]: [operator new] hands out a block that is
    not in use; every cell of it is raw.  The free store of the model never
    runs out: [std::bad_alloc] is not modelled.  The block has the [n] cells
    asked for, which is what the code obtains when [n * sizeof(T)] does not
    wrap around ([Allocate_bytes] below, for an [allocatable] [n]); the
    theorems that describe the block obtained for a size the caller passes
    to [Reserve], [Resize], [Vector(n)] or [RawMemory(n)] assume that it is
    [allocatable]. *)
Definition Allocate (n : nat) : M (option addr) :=
  fun s => if n =? 0 then Ok None s
           else let a := fresh (dom (heap s)) in
                Ok (Some a) (set_heap (<[a := replicate n Raw]> (heap s)) s).

(** The same call with the byte count as the code computes it,
    [operator new(n * sizeof(T))] with the product in [size_t]: the block
    has room for as many objects as the bytes obtained hold. *)
Definition Allocate_bytes `{LT : Layout T} (n : nat) : M (option addr) :=
  fun s => if n =? 0 then Ok None s
           else let a := fresh (dom (heap s)) in
                Ok (Some a)
                   (set_heap (<[a := replicate (size_mul n size_of / size_of) Raw]>
                                (heap s)) s).

(** [static void Deallocate(T* buf)]: [operator delete]; no destructor runs,
    so whatever is still live in the block is lost. *)
Definition Deallocate (buf : option addr) : M unit :=
  fun s => match buf with
           | None => Ok tt s
           | Some a =>
               match heap s !! a with
               | None => Fault DanglingPointer
               | Some b => Ok tt (add_leaked (live_count b)
                                    (set_heap (delete a (heap s)) s))
               end
           end.

(** [RawMemory() = default] *)
Definition RawMemory_default : RawMemory := mkRawMemory None 0.

(** [explicit RawMemory(size_t capacity)] *)
Definition RawMemory_ctor (capacity : nat) : M RawMemory :=
  buf ← Allocate capacity; ret (mkRawMemory buf capacity).

Definition GetAddress (m : RawMemory) : option addr := buffer_ m.

Definition RawMemory_Capacity (m : RawMemory) : nat := capacity_ m.

(** [void Swap(RawMemory& other)]: the pair is (this, other) afterwards. *)
Definition RawMemory_Swap (this other : RawMemory) : RawMemory * RawMemory :=
  (mkRawMemory (buffer_ other) (capacity_ other),
   mkRawMemory (buffer_ this) (capacity_ this)).

(** [RawMemory(RawMemory&& other)]: the new object starts from the default
    member initialisers and swaps. *)
Definition RawMemory_move_ctor (other : RawMemory) : RawMemory * RawMemory :=
  RawMemory_Swap RawMemory_default other.

(** [RawMemory& operator=(RawMemory&& rhs)] *)
Definition RawMemory_move_assign (this rhs : RawMemory) : RawMemory * RawMemory :=
  RawMemory_Swap this rhs.

(** [T* operator+(size_t offset)] *)
Definition RawMemory_plus (m : RawMemory) (offset : nat) : M iterator :=
  assert (offset <=? capacity_ m) ;; ret (mkIter (buffer_ m) offset).

(** [T& operator[](size_t index)]: the reference is the cell's position. *)
Definition RawMemory_index (m : RawMemory) (index : nat) : M iterator :=
  assert (index <? capacity_ m) ;; ret (mkIter (buffer_ m) index).

(** [~RawMemory()] *)
Definition RawMemory_dtor (m : RawMemory) : M unit := Deallocate (buffer_ m).

(** *** Cells *)

Definition with_cell {A} (p : option addr) (i : nat)
    (k : addr -> list (cell T) -> cell T -> M A) : M A :=
  fun s => match p with
           | None => Fault NullPointer
           | Some a =>
               match heap s !! a with
               | None => Fault DanglingPointer
               | Some b =>
                   match b !! i with
                   | None => Fault OutOfBlock
                   | Some c => k a b c s
                   end
               end
           end.

Definition put_cell (a : addr) (b : list (cell T)) (i : nat) (c : cell T) : M unit :=
  fun s => Ok tt (set_heap (<[a := <[i := c]> b]> (heap s)) s).

(** Reading the object in a cell. *)
Definition read_cell (p : option addr) (i : nat) : M T :=
  with_cell p i (fun _ _ c =>
    match c with
    | Live v => ret v
    | Raw => fault_with ReadOfRawCell
    end).

(** Placement [new (p + i) T(...)] once the constructor has produced [v].
    Constructing over a live object reuses its storage without destroying
    it. *)
Definition construct_at (p : option addr) (i : nat) (v : T) : M unit :=
  with_cell p i (fun a b c =>
    put_cell a b i (Live v) ;;
    match c with
    | Live _ => fun s => Ok tt (add_leaked 1 s)
    | Raw => ret tt
    end).

(** [std::destroy_at(p + i)] *)
Definition destroy_at (p : option addr) (i : nat) : M unit :=
  with_cell p i (fun a b c =>
    match c with
    | Live _ => put_cell a b i Raw
    | Raw => fault_with DestroyOfRawCell
    end).

(** Giving the object in a cell a new value through one of its assignment
    operators. *)
Definition assign_cell (p : option addr) (i : nat) (v : T) : M unit :=
  with_cell p i (fun a b c =>
    match c with
    | Live _ => put_cell a b i (Live v)
    | Raw => fault_with AssignToRawCell
    end).

(** [new (p + i) T(std::forward<Types>(values)...)]: the constructor call is
    given by what it produces, [None] when it throws. *)
Definition construct_new (p : option addr) (i : nat) (ctor : option T) : M unit :=
  match ctor with
  | None => throw
  | Some v => construct_at p i v
  end.

(** [dst[j] = src[i]] through the copy assignment operator of [T] *)
Definition copy_assign_cell (src : option addr) (i : nat)
    (dst : option addr) (j : nat) : M unit :=
  v ← read_cell src i;
  if copy_assign_throws v then throw else assign_cell dst j v.

(** [dst[j] = std::move(src[i])] through the move assignment operator of [T] *)
Definition move_assign_cell (src : option addr) (i : nat)
    (dst : option addr) (j : nat) : M unit :=
  v ← read_cell src i;
  if move_assign_throws v then throw
  else assign_cell dst j v ;; assign_cell src i (moved_from v).

(** *** Algorithms of [<memory>] and [<algorithm>] *)

(** [std::destroy_n(p + first, n)] *)
Fixpoint destroy_n (p : option addr) (first n : nat) : M unit :=
  match n with
  | 0 => ret tt
  | S n' => destroy_at p first ;; destroy_n p (S first) n'
  end.

(** [std::uninitialized_copy_n(src + sfirst, n, dst + dfirst)], with [k]
    objects already constructed.  When a copy throws, the objects the
    algorithm has constructed are destroyed before the exception leaves. *)
Fixpoint uninitialized_copy_loop (src : option addr) (sfirst : nat)
    (dst : option addr) (dfirst : nat) (k n : nat) : M unit :=
  match n with
  | 0 => ret tt
  | S n' =>
      v ← read_cell src (sfirst + k);
      if copy_throws v then destroy_n dst dfirst k ;; throw
      else construct_at dst (dfirst + k) v ;;
           uninitialized_copy_loop src sfirst dst dfirst (S k) n'
  end.

Definition uninitialized_copy_n (src : option addr) (sfirst n : nat)
    (dst : option addr) (dfirst : nat) : M unit :=
  uninitialized_copy_loop src sfirst dst dfirst 0 n.

(** [std::uninitialized_move_n(src + sfirst, n, dst + dfirst)] *)
Fixpoint uninitialized_move_loop (src : option addr) (sfirst : nat)
    (dst : option addr) (dfirst : nat) (k n : nat) : M unit :=
  match n with
  | 0 => ret tt
  | S n' =>
      v ← read_cell src (sfirst + k);
      if move_throws v then destroy_n dst dfirst k ;; throw
      else construct_at dst (dfirst + k) v ;;
           assign_cell src (sfirst + k) (moved_from v) ;;
           uninitialized_move_loop src sfirst dst dfirst (S k) n'
  end.

Definition uninitialized_move_n (src : option addr) (sfirst n : nat)
    (dst : option addr) (dfirst : nat) : M unit :=
  uninitialized_move_loop src sfirst dst dfirst 0 n.

(** [std::uninitialized_value_construct_n(dst + dfirst, n)] *)
Fixpoint uninitialized_value_construct_loop (dst : option addr) (dfirst : nat)
    (k n : nat) : M unit :=
  match n with
  | 0 => ret tt
  | S n' =>
      match value_init with
      | None => destroy_n dst dfirst k ;; throw
      | Some v => construct_at dst (dfirst + k) v ;;
                  uninitialized_value_construct_loop dst dfirst (S k) n'
      end
  end.

Definition uninitialized_value_construct_n (dst : option addr)
    (dfirst n : nat) : M unit :=
  uninitialized_value_construct_loop dst dfirst 0 n.

(** [std::copy(src + first, src + last, dst + dfirst)]: copy assignment,
    front to back. *)
Fixpoint copy_loop (src : option addr) (first : nat)
    (dst : option addr) (dfirst : nat) (n : nat) : M unit :=
  match n with
  | 0 => ret tt
  | S n' => copy_assign_cell src first dst dfirst ;;
            copy_loop src (S first) dst (S dfirst) n'
  end.

Definition std_copy (src : option addr) (first last : nat)
    (dst : option addr) (dfirst : nat) : M unit :=
  copy_loop src first dst dfirst (last - first).

(** [std::copy(list.begin(), list.end(), dst + dfirst)] where the source
    range is the array behind a [std::initializer_list<T>]. *)
Fixpoint std_copy_values (values : list T) (dst : option addr) (dfirst : nat)
    : M unit :=
  match values with
  | [] => ret tt
  | v :: rest =>
      (if copy_assign_throws v then throw else assign_cell dst dfirst v) ;;
      std_copy_values rest dst (S dfirst)
  end.

(** [std::move(src + first, src + last, dst + dfirst)]: move assignment,
    front to back. *)
Fixpoint move_loop (src : option addr) (first : nat)
    (dst : option addr) (dfirst : nat) (n : nat) : M unit :=
  match n with
  | 0 => ret tt
  | S n' => move_assign_cell src first dst dfirst ;;
            move_loop src (S first) dst (S dfirst) n'
  end.

Definition std_move (src : option addr) (first last : nat)
    (dst : option addr) (dfirst : nat) : M unit :=
  move_loop src first dst dfirst (last - first).

(** [std::move_backward(src + first, src + last, dst + dlast)]: move
    assignment, back to front; [n] elements remain to be moved. *)
Fixpoint move_backward_loop (src : option addr) (first : nat)
    (dst : option addr) (dlast : nat) (n : nat) {struct n} : M unit :=
  match n with
  | 0 => ret tt
  | S n' =>
      match dlast with
      | 0 => fault_with OutOfBlock
      | S dlast' =>
          move_assign_cell src (first + n') dst dlast' ;;
          move_backward_loop src first dst dlast' n'
      end
  end.

Definition std_move_backward (src : option addr) (first last : nat)
    (dst : option addr) (dlast : nat) : M unit :=
  move_backward_loop src first dst dlast (last - first).

End Primitives.

(** ** [Vector<T>] *)

Section VectorOps.
Context {T : Type} `{ET : Element T}.

Local Abbreviation M := (@M T).

(** [size_t Capacity() const] *)
Definition Capacity (V : Vector) : nat := RawMemory_Capacity (data_ V).

(** [size_t Size() const] *)
Definition Size (V : Vector) : nat := size_ V.

(** [begin()], [cbegin()] *)
Definition begin (V : Vector) : iterator := mkIter (GetAddress (data_ V)) 0.

(** [end()], [cend()] *)
Definition end_ (V : Vector) : iterator :=
  mkIter (GetAddress (data_ V)) (size_ V).

(** [std::next(it, n)] *)
Definition std_next (it : iterator) (n : nat) : iterator :=
  mkIter (it_base it) (it_off it + n).

(** [it - 1], and [std::next(it, n - 1)] for an unsigned [n]: stepping in
    front of the block is not a pointer. *)
Definition offset_before (n : nat) : M nat :=
  match n with
  | 0 => fault_with OutOfBlock
  | S k => ret k
  end.

Definition ptr_eqb (p q : option addr) : bool := bool_decide (p = q).

Definition iter_eqb (a b : iterator) : bool :=
  ptr_eqb (it_base a) (it_base b) && (it_off a =? it_off b).

(** [pos - first] for two pointers into one block *)
Definition iter_diff (pos first : iterator) : M nat :=
  if ptr_eqb (it_base pos) (it_base first) then
    if it_off first <=? it_off pos then ret (it_off pos - it_off first)
    else fault_with OutOfBlock
  else fault_with ForeignIterator.

(** The [if constexpr] of [Reserve], [EmplaceBack] and [Emplace]: move when
    the move constructor cannot throw or there is no copy constructor, copy
    otherwise. *)
Definition transfer_n (src : option addr) (sfirst n : nat)
    (dst : option addr) (dfirst : nat) : M unit :=
  if is_nothrow_move_constructible || negb is_copy_constructible
  then uninitialized_move_n src sfirst n dst dfirst
  else uninitialized_copy_n src sfirst n dst dfirst.

(** What [T(std::forward<U>(value))] produces: the copy or the move
    constructor of [T] runs on [value]. *)
Definition forwarded (value : T) (rvalue : bool) : option T :=
  if (if rvalue then move_throws value else copy_throws value)
  then None else Some value.

(** [Vector() = default] *)
Definition Vector_default_ctor (this : vid) : M unit :=
  set_vec this (mkVector RawMemory_default 0).

(** [explicit Vector(size_t size)] *)
Definition Vector_size_ctor (this : vid) (size : nat) : M unit :=
  data ← RawMemory_ctor size;
  on_unwind (uninitialized_value_construct_n (GetAddress data) 0 size)
            (RawMemory_dtor data) ;;
  set_vec this (mkVector data size).

(** [Vector(const Vector& other)] *)
Definition Vector_copy_ctor (this other : vid) : M unit :=
  O ← get_vec other;
  data ← RawMemory_ctor (size_ O);
  on_unwind (uninitialized_copy_n (GetAddress (data_ O)) 0 (size_ O)
                                  (GetAddress data) 0)
            (RawMemory_dtor data) ;;
  set_vec this (mkVector data (size_ O)).

(** [Vector(Vector&& other) noexcept]: [data_] is move-constructed from
    [other.data_]; [size_] is initialised from [std::move(other.size_)],
    which for a [size_t] reads the value and leaves it where it is. *)
Definition Vector_move_ctor (this other : vid) : M unit :=
  O ← get_vec other;
  let '(mine, theirs) := RawMemory_move_ctor (data_ O) in
  set_vec other (mkVector theirs (size_ O)) ;;
  set_vec this (mkVector mine (size_ O)).

(** [Vector(std::initializer_list<T> list)] *)
Definition Vector_list_ctor (this : vid) (list : list T) : M unit :=
  data ← RawMemory_ctor (length list);
  on_unwind (std_copy_values list (GetAddress data) 0)
            (RawMemory_dtor data) ;;
  set_vec this (mkVector data (length list)).

(** [~Vector()], followed by the destructor of the member [data_] *)
Definition Vector_dtor (this : vid) : M unit :=
  V ← get_vec this;
  (if negb (ptr_eqb (GetAddress (data_ V)) None)
   then destroy_n (GetAddress (data_ V)) 0 (size_ V)
   else ret tt) ;;
  RawMemory_dtor (data_ V) ;;
  del_vec this.

(** [void Reserve(size_t new_capacity)] *)
Definition Reserve (this : vid) (new_capacity : nat) : M unit :=
  V ← get_vec this;
  if new_capacity <=? Capacity V then ret tt
  else
    new_data ← RawMemory_ctor new_capacity;
    on_unwind (transfer_n (GetAddress (data_ V)) 0 (size_ V)
                          (GetAddress new_data) 0)
              (RawMemory_dtor new_data) ;;
    destroy_n (GetAddress (data_ V)) 0 (size_ V) ;;
    let '(mine, old) := RawMemory_Swap (data_ V) new_data in
    set_vec this (mkVector mine (size_ V)) ;;
    RawMemory_dtor old.

(** [void Resize(size_t new_size)] *)
Definition Resize (this : vid) (new_size : nat) : M unit :=
  V ← get_vec this;
  (if new_size <? size_ V then
     destroy_n (GetAddress (data_ V)) new_size (size_sub (size_ V) new_size)
   else if size_ V <? new_size then
     Reserve this new_size ;;
     V' ← get_vec this;
     uninitialized_value_construct_n (GetAddress (data_ V')) (size_ V')
                                     (size_sub new_size (size_ V'))
   else ret tt) ;;
  V'' ← get_vec this;
  set_vec this (mkVector (data_ V'') new_size).

(** [void PopBack()] *)
Definition PopBack (this : vid) : M unit :=
  V ← get_vec this;
  last ← offset_before (size_ V);
  destroy_n (GetAddress (data_ V)) last 1 ;;
  set_vec this (mkVector (data_ V) (size_sub (size_ V) 1)).

(** [T& EmplaceBack(Types&&... values)]; [ctor] is what
    [T(std::forward<Types>(values)...)] produces. *)
Definition EmplaceBack (this : vid) (ctor : option T) : M iterator :=
  V ← get_vec this;
  if size_ V <? Capacity V then
    construct_new (GetAddress (data_ V)) (size_ V) ctor ;;
    let n := size_add (size_ V) 1 in
    set_vec this (mkVector (data_ V) n) ;;
    RawMemory_index (data_ V) (size_sub n 1)
  else
    new_data ← RawMemory_ctor (Nat.max (size_mul (Capacity V) 2)
                                       (size_add (size_ V) 1));
    on_unwind
      (construct_new (GetAddress new_data) (size_ V) ctor ;;
       try_catch
         (transfer_n (GetAddress (data_ V)) 0 (size_ V)
                     (GetAddress new_data) 0)
         (destroy_n (GetAddress new_data) 0 (size_add (size_ V) 1) ;; throw))
      (RawMemory_dtor new_data) ;;
    destroy_n (GetAddress (data_ V)) 0 (size_ V) ;;
    let n := size_add (size_ V) 1 in
    let '(mine, old) := RawMemory_Swap (data_ V) new_data in
    set_vec this (mkVector mine n) ;;
    r ← RawMemory_index mine (size_sub n 1);
    RawMemory_dtor old ;;
    ret r.

(** [void PushBack(U&& value)] *)
Definition PushBack (this : vid) (value : T) (rvalue : bool) : M unit :=
  EmplaceBack this (forwarded value rvalue) ;; ret tt.

(** [iterator Emplace(const_iterator pos, Args&&... args)] *)
Definition Emplace (this : vid) (pos : iterator) (ctor : option T) : M iterator :=
  V ← get_vec this;
  offset ← iter_diff pos (begin V);
  if size_ V <? Capacity V then
    (if negb (iter_eqb pos (end_ V)) then
       match ctor with
       | None => throw
       | Some value_to_emplace =>
           last ← offset_before (size_ V);
           uninitialized_move_n (GetAddress (data_ V)) last 1
                                (GetAddress (data_ V)) (size_ V) ;;
           std_move_backward (GetAddress (data_ V)) offset last
                             (GetAddress (data_ V)) (size_ V) ;;
           r ← RawMemory_index (data_ V) offset;
           if move_assign_throws value_to_emplace then throw
           else assign_cell (it_base r) (it_off r) value_to_emplace
       end
     else construct_new (GetAddress (data_ V)) (size_ V) ctor) ;;
    set_vec this (mkVector (data_ V) (size_add (size_ V) 1)) ;;
    ret (std_next (begin V) offset)
  else
    new_data ← RawMemory_ctor (Nat.max (size_mul (Capacity V) 2)
                                       (size_add (size_ V) 1));
    on_unwind
      (construct_new (GetAddress new_data) offset ctor ;;
       try_catch
         (transfer_n (GetAddress (data_ V)) 0 offset
                     (GetAddress new_data) 0 ;;
          transfer_n (GetAddress (data_ V)) offset (size_sub (size_ V) offset)
                     (GetAddress new_data) (offset + 1))
         (destroy_n (GetAddress new_data) 0 (size_add (size_ V) 1) ;; throw))
      (RawMemory_dtor new_data) ;;
    destroy_n (GetAddress (data_ V)) 0 (size_ V) ;;
    let '(mine, old) := RawMemory_Swap (data_ V) new_data in
    let V' := mkVector mine (size_add (size_ V) 1) in
    set_vec this V' ;;
    RawMemory_dtor old ;;
    ret (std_next (begin V') offset).

(** [iterator Insert(const_iterator pos, U&& value)] *)
Definition Insert (this : vid) (pos : iterator) (value : T) (rvalue : bool)
    : M iterator :=
  Emplace this pos (forwarded value rvalue).

(** [iterator Erase(const_iterator pos)] *)
Definition Erase (this : vid) (pos : iterator) : M iterator :=
  V ← get_vec this;
  offset ← iter_diff pos (begin V);
  last ← offset_before (size_ V);
  (if negb (iter_eqb pos (mkIter (GetAddress (data_ V)) last)) then
     std_move (GetAddress (data_ V)) (offset + 1) (size_ V)
              (GetAddress (data_ V)) offset
   else ret tt) ;;
  destroy_n (GetAddress (data_ V)) last 1 ;;
  set_vec this (mkVector (data_ V) (size_sub (size_ V) 1)) ;;
  ret (std_next (begin V) offset).

(** [void Swap(Vector& other) noexcept] *)
Definition Swap (this other : vid) : M unit :=
  V ← get_vec this;
  O ← get_vec other;
  if negb (ptr_eqb (GetAddress (data_ V)) (GetAddress (data_ O))) then
    let '(mine, theirs) := RawMemory_Swap (data_ V) (data_ O) in
    set_vec this (mkVector mine (size_ O)) ;;
    set_vec other (mkVector theirs (size_ V))
  else ret tt.

(** [T& operator[](size_t index)] *)
Definition Vector_index (this : vid) (index : nat) : M iterator :=
  V ← get_vec this;
  assert (index <? size_ V) ;;
  RawMemory_index (data_ V) index.

(** [vec[index] = value]: the caller assigns through the reference that
    [operator[]] returns. *)
Definition Vector_store (this : vid) (index : nat) (value : T) : M unit :=
  r ← Vector_index this index;
  if copy_assign_throws value then throw
  else assign_cell (it_base r) (it_off r) value.

(** [Vector& operator=(const Vector& rhs)] *)
Definition Vector_copy_assign (this rhs : vid) : M unit :=
  if bool_decide (this ≠ rhs) then
    V ← get_vec this;
    R ← get_vec rhs;
    if Capacity V <? size_ R then
      rhs_copy ← new_local;
      Vector_copy_ctor rhs_copy rhs ;;
      Swap this rhs_copy ;;
      Vector_dtor rhs_copy
    else
      (if size_ V <? size_ R then
         std_copy (GetAddress (data_ R)) 0 (size_ V) (GetAddress (data_ V)) 0 ;;
         uninitialized_copy_n (GetAddress (data_ R)) (size_ V)
                              (size_sub (size_ R) (size_ V))
                              (GetAddress (data_ V)) (size_ V)
       else
         std_copy (GetAddress (data_ R)) 0 (size_ R) (GetAddress (data_ V)) 0 ;;
         if size_ R <? size_ V then
           destroy_n (GetAddress (data_ V)) (size_ R)
                     (size_sub (size_ V) (size_ R))
         else ret tt) ;;
      set_vec this (mkVector (data_ V) (size_ R))
  else ret tt.

(** [Vector& operator=(Vector&& rhs)]: [data_ = std::move(rhs.data_)] swaps
    the two blocks; [size_ = std::move(rhs.size_)] copies the number. *)
Definition Vector_move_assign (this rhs : vid) : M unit :=
  if bool_decide (this ≠ rhs) then
    V ← get_vec this;
    R ← get_vec rhs;
    let '(mine, theirs) := RawMemory_move_assign (data_ V) (data_ R) in
    set_vec this (mkVector mine (size_ R)) ;;
    set_vec rhs (mkVector theirs (size_ R))
  else ret tt.

End VectorOps.

(** * The vocabulary of the specification *)

Section Vocabulary.
Context {T : Type} `{ET : Element T}.

Implicit Types (s : state T) (a : addr) (v x : T) (vs xs elems : list T).

(** The block of a vector holding [elems] in storage for [cap] objects. *)
Definition cells (elems : list T) (cap : nat) : list (cell T) :=
  (Live <$> elems) ++ replicate (cap - length elems) Raw.

(** The vector object [this] is live, holds [elems] in this order in a block
    with room for [cap] objects, and every cell past its size is raw. *)
Definition owns s (this : vid) elems (cap : nat) : Prop :=
  match objs s !! this with
  | None => False
  | Some V =>
      size_ V = length elems /\
      capacity_ (data_ V) = cap /\
      length elems <= cap /\
      representable cap /\
      match buffer_ (data_ V) with
      | None => cap = 0
      | Some a => cap <> 0 /\ heap s !! a = Some (cells elems cap)
      end
  end.

(** The elements a transfer into a new block leaves behind in the old one. *)
Definition transferred v : T :=
  if is_nothrow_move_constructible || negb is_copy_constructible
  then moved_from v else v.

(** Whether the constructor chosen by [transfer_n] throws on [v]. *)
Definition transfer_throws v : bool :=
  if is_nothrow_move_constructible || negb is_copy_constructible
  then move_throws v else copy_throws v.

(** No element of [vs] makes the constructor chosen by [transfer_n] throw. *)
Definition transfer_ok vs : Prop :=
  Forall (fun v => transfer_throws v = false) vs.

(** The heap once the block at [p] has been given back. *)
Definition released (p : option addr) (h : gmap addr (list (cell T)))
    : gmap addr (list (cell T)) :=
  match p with
  | None => h
  | Some a => delete a h
  end.

(** The heap in which the block at [p], if there is one, holds [b]. *)
Definition housed (h : gmap addr (list (cell T))) (p : option addr)
    (b : list (cell T)) : gmap addr (list (cell T)) :=
  match p with
  | None => h
  | Some a => <[a := b]> h
  end.

(** The state after [this] has moved into a new block of [cap'] cells
    holding [elems'], its old block at [p] returned to the free store. *)
Definition relocated s (this : vid) (p : option addr) elems' (cap' : nat)
    : state T :=
  let da := fresh (dom (heap s)) in
  mkState (<[da := cells elems' cap']> (released p (heap s)))
          (<[this := mkVector (mkRawMemory (Some da) cap') (length elems')]> (objs s))
          (leaked s).

(** The capacity after one append to [size] elements in room for [cap]. *)
Definition grown (size cap : nat) : nat :=
  if size <? cap then cap else Nat.max (cap * 2) (size + 1).

(** What a position designates: the object in the cell, if there is one. *)
Definition deref s (it : iterator) : option T :=
  match it_base it with
  | None => None
  | Some a =>
      match heap s !! a with
      | None => None
      | Some b =>
          match b !! it_off it with
          | Some (Live x) => Some x
          | _ => None
          end
      end
  end.

(** The cell a position points at. *)
Definition cell_at s (it : iterator) : option (cell T) :=
  match it_base it with
  | None => None
  | Some a =>
      match heap s !! a with
      | None => None
      | Some b => b !! it_off it
      end
  end.

(** The capacity of [this] in the state an operation returns with. *)
Definition capacity_after {A} (this : vid) (o : outcome T A) : option nat :=
  match o with
  | Ok _ s' => Capacity <$> objs s' !! this
  | _ => None
  end.

(** One call of the appending interface. *)
Inductive append_call : Type :=
  | CallPushBack (value : T) (rvalue : bool)
  | CallEmplaceBack (ctor : option T).

Definition run_call (this : vid) (c : append_call) : M unit :=
  match c with
  | CallPushBack value rvalue => PushBack this value rvalue
  | CallEmplaceBack ctor => EmplaceBack this ctor ;; ret tt
  end.

(** The element a call constructs, when its constructor does not throw. *)
Definition produced (c : append_call) : option T :=
  match c with
  | CallPushBack value rvalue => forwarded value rvalue
  | CallEmplaceBack ctor => ctor
  end.

Fixpoint run_calls (this : vid) (cs : list append_call) : M unit :=
  match cs with
  | [] => ret tt
  | c :: rest => run_call this c ;; run_calls this rest
  end.

(** A caller that appends the values of [xs] one after the other and
    records the capacity it observes after each call. *)
Fixpoint append_run (this : vid) (xs : list T) : M (list nat) :=
  match xs with
  | [] => ret []
  | x :: rest =>
      EmplaceBack this (Some x) ;;
      V ← get_vec this;
      caps ← append_run this rest;
      ret (Capacity V :: caps)
  end.

(** The capacities that [n] appends go through. *)
Fixpoint capacities (size cap n : nat) : list nat :=
  match n with
  | 0 => []
  | S n' => grown size cap :: capacities (size + 1) (grown size cap) n'
  end.

(** The capacity after [n] appends. *)
Fixpoint final_capacity (size cap n : nat) : nat :=
  match n with
  | 0 => cap
  | S n' => final_capacity (size + 1) (grown size cap) n'
  end.

(** Each capacity observed is at least the one before. *)
Fixpoint nondecreasing_from (c : nat) (l : list nat) : Prop :=
  match l with
  | [] => True
  | c' :: l' => c <= c' /\ nondecreasing_from c' l'
  end.

(** A reallocation shows as a change of capacity. *)
Fixpoint reallocations (c : nat) (l : list nat) : nat :=
  match l with
  | [] => 0
  | c' :: l' => (if c' =? c then 0 else 1) + reallocations c' l'
  end.

(** A caller that appends the values of [xs] one after the other and
    records, after each call, where the block of the vector is and what its
    capacity is. *)
Fixpoint append_trace (this : vid) (xs : list T) : M (list (option addr * nat)) :=
  match xs with
  | [] => ret []
  | x :: rest =>
      EmplaceBack this (Some x) ;;
      V ← get_vec this;
      obs ← append_trace this rest;
      ret ((GetAddress (data_ V), Capacity V) :: obs)
  end.

(** Along what a run records, the vector is in another block after a call
    exactly when its capacity has changed in that call. *)
Fixpoint block_follows_capacity (p : option addr) (c : nat)
    (obs : list (option addr * nat)) : Prop :=
  match obs with
  | [] => True
  | (p', c') :: rest => (p' = p <-> c' = c) /\ block_follows_capacity p' c' rest
  end.

(** The number of calls after which the vector is in another block. *)
Fixpoint relocations (p : option addr) (l : list (option addr)) : nat :=
  match l with
  | [] => 0
  | p' :: l' => (if bool_decide (p' = p) then 0 else 1) + relocations p' l'
  end.

(** No constructor and no move assignment of [T] throws on [v]. *)
Definition calm v : Prop :=
  copy_throws v = false /\ move_throws v = false /\
  move_assign_throws v = false.

(** No other vector object points into the block of [v]. *)
Definition isolated s (v : vid) : Prop :=
  forall V u U a,
    objs s !! v = Some V -> u <> v -> objs s !! u = Some U ->
    buffer_ (data_ U) = Some a -> buffer_ (data_ V) <> Some a.

(** What a caller can do to a vector through its interface. *)
Inductive mutation : Type :=
  | DoReserve (new_capacity : nat)
  | DoResize (new_size : nat)
  | DoPushBack (value : T) (rvalue : bool)
  | DoPopBack
  | DoEmplaceBack (ctor : option T)
  | DoEmplace (offset : nat) (ctor : option T)
  | DoInsert (offset : nat) (value : T) (rvalue : bool)
  | DoErase (offset : nat)
  | DoStore (index : nat) (value : T)
  | DoCopyAssign (rhs : vid)
  | DoMoveAssign (rhs : vid)
  | DoSwap (other : vid).

Definition mutate (this : vid) (m : mutation) : M unit :=
  match m with
  | DoReserve new_capacity => Reserve this new_capacity
  | DoResize new_size => Resize this new_size
  | DoPushBack value rvalue => PushBack this value rvalue
  | DoPopBack => PopBack this
  | DoEmplaceBack ctor => EmplaceBack this ctor ;; ret tt
  | DoEmplace offset ctor =>
      V ← get_vec this;
      Emplace this (std_next (begin V) offset) ctor ;; ret tt
  | DoInsert offset value rvalue =>
      V ← get_vec this;
      Insert this (std_next (begin V) offset) value rvalue ;; ret tt
  | DoErase offset =>
      V ← get_vec this;
      Erase this (std_next (begin V) offset) ;; ret tt
  | DoStore index value => Vector_store this index value
  | DoCopyAssign rhs => Vector_copy_assign this rhs
  | DoMoveAssign rhs => Vector_move_assign this rhs
  | DoSwap other => Swap this other
  end.

(** The mutation does not name [v] as the vector to move from or to swap
    with. *)
Definition leaves_alone (v : vid) (m : mutation) : Prop :=
  match m with
  | DoMoveAssign rhs => rhs <> v
  | DoSwap other => other <> v
  | _ => True
  end.

Fixpoint mutate_all (this : vid) (ms : list mutation) : M unit :=
  match ms with
  | [] => ret tt
  | m :: rest => mutate this m ;; mutate_all this rest
  end.

(** A vector keeps its size within its capacity. *)
Definition size_within_capacity s (this : vid) : bool :=
  match objs s !! this with
  | Some V => size_ V <=? Capacity V
  | None => true
  end.

(** *** Framing *)

(** The vector object [v] is [V0], its block (if it has one) holds [blk0],
    and no other vector object points into that block. *)
Definition protected (v : vid) (V0 : Vector) (blk0 : list (cell T)) s : Prop :=
  objs s !! v = Some V0 /\
  (forall a, buffer_ (data_ V0) = Some a -> heap s !! a = Some blk0) /\
  (forall u U a, u <> v -> objs s !! u = Some U ->
                 buffer_ (data_ U) = Some a -> buffer_ (data_ V0) <> Some a).

(** A pointer that is not a pointer to the block of [V0]. *)
Definition foreign (V0 : Vector) (p : option addr) : Prop :=
  forall a, p = Some a -> buffer_ (data_ V0) <> Some a.

(** [m] keeps [v] protected, whether it returns (with a result in [Q]) or
    throws. *)
Definition preserves (v : vid) (V0 : Vector) (blk0 : list (cell T))
    {A} (m : M A) (Q : A -> Prop) : Prop :=
  forall s, protected v V0 blk0 s ->
    match m s with
    | Ok r s' => protected v V0 blk0 s' /\ Q r
    | Throw s' => protected v V0 blk0 s'
    | Fault _ => True
    end.

End Vocabulary.

(** * Concrete vectors and element types *)

(** No vector yet, nothing allocated. *)
Definition nothing : state nat := mkState ∅ ∅ 0.

(** One vector, object [0], holding [elems] in a block of [cap] cells at
    address [0]. *)
Definition one_vector (elems : list nat) (cap : nat) : state nat :=
  mkState {[ 0 := cells elems cap ]}
          {[ 0 := mkVector (mkRawMemory (Some 0) cap) (length elems) ]}
          0.

(** Two vectors: object [0] holds [1,2,3] and object [1] holds [9], each in
    a block of exactly its size. *)
Definition two_vectors : state nat :=
  mkState {[ 0 := cells [1; 2; 3] 3; 1 := cells [9] 1 ]}
          {[ 0 := mkVector (mkRawMemory (Some 0) 3) 3;
             1 := mkVector (mkRawMemory (Some 1) 1) 1 ]}
          0.

(** An element type like [int]: nothing throws, a moved-from object keeps
    its value, the move constructor is [noexcept]. *)
Definition plain_element : Element nat := {|
  value_init := Some 0;
  copy_throws := fun _ => false;
  move_throws := fun _ => false;
  copy_assign_throws := fun _ => false;
  move_assign_throws := fun _ => false;
  moved_from := fun v => v;
  is_nothrow_move_constructible := true;
  is_copy_constructible := true
|}.

(** A copyable element type whose copy constructor throws on the value 13
    and whose move constructor is not [noexcept]: the transfers into a new
    block copy. *)
Definition fragile_element : Element nat := {|
  value_init := Some 0;
  copy_throws := fun v => v =? 13;
  move_throws := fun _ => false;
  copy_assign_throws := fun v => v =? 13;
  move_assign_throws := fun _ => false;
  moved_from := fun v => v;
  is_nothrow_move_constructible := false;
  is_copy_constructible := true
|}.

(** An element type without a usable default constructor, whose move
    constructor throws on the value 14 and whose move assignment throws on
    the value 13; it is copyable, so transfers copy, and a moved-from object
    holds 0. *)
Definition brittle_element : Element nat := {|
  value_init := None;
  copy_throws := fun _ => false;
  move_throws := fun v => v =? 14;
  copy_assign_throws := fun _ => false;
  move_assign_throws := fun v => v =? 13;
  moved_from := fun _ => 0;
  is_nothrow_move_constructible := false;
  is_copy_constructible := true
|}.

(** Objects of four bytes. *)
Definition word_layout : Layout nat := {|
  size_of := 4;
  size_of_pos := Nat.lt_0_succ 3
|}.

(** * Reasoning about the model *)

(** ** [size_t] *)

Lemma wrap_small n : representable n -> wrap n = n.
Proof.
  unfold representable, wrap. intros Hn.
  rewrite N.mod_small by exact Hn. apply Nat2N.id.
Qed.

Lemma representable_le n m : n <= m -> representable m -> representable n.
Proof. unfold representable. lia. Qed.

Lemma size_add_small a b : representable (a + b) -> size_add a b = a + b.
Proof. apply wrap_small. Qed.

Lemma size_mul_small a b : representable (a * b) -> size_mul a b = a * b.
Proof. apply wrap_small. Qed.

Lemma size_sub_le a b : b <= a -> size_sub a b = a - b.
Proof.
  intros Hle. unfold size_sub.
  destruct (Nat.leb_spec b a) as [_|Hlt]; [reflexivity | lia].
Qed.

Lemma size_sub_succ n : representable (n + 1) -> size_sub (size_add n 1) 1 = n.
Proof.
  intros Hn. rewrite size_add_small by exact Hn.
  rewrite size_sub_le by lia. lia.
Qed.

Lemma size_sub_add1 n : size_sub (n + 1) 1 = n.
Proof. rewrite size_sub_le by lia. lia. Qed.

(** A number of objects whose bytes [size_t] holds is itself a [size_t]. *)
Lemma allocatable_representable {T : Type} `{LT : Layout T} n :
  allocatable n -> representable n.
Proof.
  unfold allocatable. apply representable_le.
  pose proof (@size_of_pos T LT). nia.
Qed.

(** For such a number the byte count of [Allocate] does not wrap, and the
    block obtained has room for exactly the objects asked for. *)
Lemma Allocate_bytes_allocatable {T : Type} `{LT : Layout T} n (s : state T) :
  allocatable n -> Allocate_bytes n s = Allocate n s.
Proof.
  intros Hn. unfold Allocate_bytes, Allocate.
  rewrite size_mul_small by exact Hn.
  rewrite Nat.div_mul; [reflexivity|].
  pose proof (@size_of_pos T LT). lia.
Qed.

(** ** The monad *)

Section MonadLemmas.
Context {T : Type}.

Local Abbreviation M := (@M T).

Lemma bind_Ok {A B} (m : M A) (f : A -> M B) s a s' :
  m s = Ok a s' -> bind m f s = f a s'.
Proof. unfold bind. intros ->. reflexivity. Qed.

Lemma bind_ret_l {A B} (a : A) (f : A -> M B) s : bind (ret a) f s = f a s.
Proof. reflexivity. Qed.

Lemma bind_Throw {A B} (m : M A) (f : A -> M B) s s' :
  m s = Throw s' -> bind m f s = Throw s'.
Proof. unfold bind. intros ->. reflexivity. Qed.

Lemma bind_Fault {A B} (m : M A) (f : A -> M B) s e :
  m s = Fault e -> bind m f s = Fault e.
Proof. unfold bind. intros ->. reflexivity. Qed.

Lemma bind_ext {A B} (m m' : M A) (f f' : A -> M B) s :
  m s = m' s -> (forall a s', f a s' = f' a s') -> bind m f s = bind m' f' s.
Proof.
  unfold bind. intros -> Hf. destruct (m' s); auto.
Qed.

Lemma bind_ext_Ok {A B} (m : M A) (f f' : A -> M B) s :
  (forall a s', m s = Ok a s' -> f a s' = f' a s') ->
  bind m f s = bind m f' s.
Proof.
  unfold bind. intros Hf. destruct (m s); auto.
Qed.

Lemma bind_ret_unit (m : M unit) s : bind m (fun _ => ret tt) s = m s.
Proof.
  unfold bind, ret. destruct (m s) as [[] ?| |]; reflexivity.
Qed.

Lemma try_catch_Ok {A} (m h : M A) s a s' :
  m s = Ok a s' -> try_catch m h s = Ok a s'.
Proof. unfold try_catch. intros ->. reflexivity. Qed.

Lemma try_catch_Throw {A} (m h : M A) s s' :
  m s = Throw s' -> try_catch m h s = h s'.
Proof. unfold try_catch. intros ->. reflexivity. Qed.

Lemma try_catch_Fault {A} (m h : M A) s e :
  m s = Fault e -> try_catch m h s = Fault e.
Proof. unfold try_catch. intros ->. reflexivity. Qed.

Lemma try_catch_ext {A} (m m' h : M A) s :
  m s = m' s -> try_catch m h s = try_catch m' h s.
Proof. unfold try_catch. intros ->. reflexivity. Qed.

Lemma on_unwind_Ok {A} (m : M A) d s a s' :
  m s = Ok a s' -> on_unwind m d s = Ok a s'.
Proof. apply try_catch_Ok. Qed.

Lemma on_unwind_Throw {A} (m : M A) d s s1 s2 :
  m s = Throw s1 -> d s1 = Ok tt s2 -> on_unwind m d s = Throw s2.
Proof.
  intros Hm Hd. unfold on_unwind. rewrite (try_catch_Throw _ _ _ _ Hm).
  rewrite (bind_Ok _ _ _ _ _ Hd). reflexivity.
Qed.

Lemma on_unwind_ext {A} (m m' : M A) d s :
  m s = m' s -> on_unwind m d s = on_unwind m' d s.
Proof. apply try_catch_ext. Qed.

End MonadLemmas.

(** ** Blocks *)

Section BlockLemmas.
Context {T : Type}.

Implicit Types (elems : list T) (x : T).

Lemma live_count_app (b1 b2 : list (cell T)) :
  live_count (b1 ++ b2) = live_count b1 + live_count b2.
Proof. unfold live_count. rewrite List.filter_app, length_app. reflexivity. Qed.

Lemma live_count_replicate_Raw n : live_count (replicate n (@Raw T)) = 0.
Proof. induction n as [|n IH]; [reflexivity | exact IH]. Qed.

Lemma live_count_Live (vs : list T) : live_count (Live <$> vs) = length vs.
Proof.
  induction vs as [|v vs IH]; [reflexivity|].
  change (S (live_count (Live <$> vs)) = S (length vs)).
  f_equal. exact IH.
Qed.

Lemma cells_length elems cap :
  length elems <= cap -> length (cells elems cap) = cap.
Proof.
  intros Hle. unfold cells.
  rewrite length_app, length_fmap, length_replicate. lia.
Qed.

Lemma cells_nil cap : cells (T:=T) [] cap = replicate cap Raw.
Proof. unfold cells. simpl. rewrite Nat.sub_0_r. reflexivity. Qed.

Lemma replicate_S_end {A} n (x : A) : replicate (S n) x = replicate n x ++ [x].
Proof.
  induction n as [|n IH]; [reflexivity|].
  change (replicate (S (S n)) x) with (x :: replicate (S n) x).
  rewrite IH at 1. reflexivity.
Qed.

Lemma replicate_shift {A} n (x : A) l :
  x :: replicate n x ++ l = replicate n x ++ x :: l.
Proof. induction n as [|n IH]; simpl; [reflexivity | by rewrite IH]. Qed.

Lemma cells_snoc elems x cap :
  cells (elems ++ [x]) cap =
  (Live <$> elems) ++ Live x :: replicate (cap - S (length elems)) Raw.
Proof.
  unfold cells.
  rewrite fmap_app, length_app. simpl.
  rewrite <- app_assoc. simpl.
  replace (length elems + 1) with (S (length elems)) by lia.
  reflexivity.
Qed.

Lemma cells_spare elems cap :
  length elems < cap ->
  cells elems cap =
  (Live <$> elems) ++ Raw :: replicate (cap - S (length elems)) Raw.
Proof.
  intros Hlt. unfold cells.
  replace (cap - length elems) with (S (cap - S (length elems))) by lia.
  reflexivity.
Qed.

Lemma insert_replicate_Raw n i (c : cell T) :
  i < n ->
  <[i := c]> (replicate n Raw) = replicate i Raw ++ c :: replicate (n - S i) Raw.
Proof.
  intros Hi.
  replace n with (i + S (n - S i)) at 1 by lia.
  rewrite replicate_add. simpl.
  rewrite <- (Nat.add_0_r i) at 1.
  rewrite <- (length_replicate i (@Raw T)) at 1.
  rewrite insert_app_r. reflexivity.
Qed.

End BlockLemmas.

(** ** Cells and the algorithms over them *)

Section CellLemmas.
Context {T : Type} `{ET : Element T}.

Implicit Types (s : state T) (b : list (cell T)) (a : addr) (v : T).

Lemma set_heap_set_heap h h' s : set_heap h (set_heap h' s) = set_heap h s.
Proof. reflexivity. Qed.

Lemma set_heap_id s : set_heap (heap s) s = s.
Proof. destruct s; reflexivity. Qed.

Lemma read_cell_Live s a b i v :
  heap s !! a = Some b -> b !! i = Some (Live v) ->
  read_cell (Some a) i s = Ok v s.
Proof. intros Ha Hi. unfold read_cell, with_cell. rewrite Ha, Hi. reflexivity. Qed.

Lemma construct_at_Raw s a b i v :
  heap s !! a = Some b -> b !! i = Some Raw ->
  construct_at (Some a) i v s
  = Ok tt (set_heap (<[a := <[i := Live v]> b]> (heap s)) s).
Proof.
  intros Ha Hi. unfold construct_at, with_cell. rewrite Ha, Hi. reflexivity.
Qed.

Lemma destroy_at_Live s a b i v :
  heap s !! a = Some b -> b !! i = Some (Live v) ->
  destroy_at (Some a) i s
  = Ok tt (set_heap (<[a := <[i := Raw]> b]> (heap s)) s).
Proof.
  intros Ha Hi. unfold destroy_at, with_cell. rewrite Ha, Hi. reflexivity.
Qed.

Lemma destroy_at_Raw s a b i :
  heap s !! a = Some b -> b !! i = Some Raw ->
  destroy_at (Some a) i s = Fault DestroyOfRawCell.
Proof.
  intros Ha Hi. unfold destroy_at, with_cell. rewrite Ha, Hi. reflexivity.
Qed.

Lemma assign_cell_Live s a b i w v :
  heap s !! a = Some b -> b !! i = Some (Live w) ->
  assign_cell (Some a) i v s
  = Ok tt (set_heap (<[a := <[i := Live v]> b]> (heap s)) s).
Proof.
  intros Ha Hi. unfold assign_cell, with_cell. rewrite Ha, Hi. reflexivity.
Qed.

Lemma assign_cell_Raw s a b i v :
  heap s !! a = Some b -> b !! i = Some Raw ->
  assign_cell (Some a) i v s = Fault AssignToRawCell.
Proof.
  intros Ha Hi. unfold assign_cell, with_cell. rewrite Ha, Hi. reflexivity.
Qed.

(** Positions in a block split as [pre ++ c :: post]. *)
Lemma lookup_split (pre post : list (cell T)) c i :
  i = length pre -> (pre ++ c :: post) !! i = Some c.
Proof. intros ->. apply list_lookup_middle. reflexivity. Qed.

Lemma insert_split (pre post : list (cell T)) c c' i :
  i = length pre -> <[i := c']> (pre ++ c :: post) = pre ++ c' :: post.
Proof.
  intros ->. rewrite <- (Nat.add_0_r (length pre)).
  rewrite insert_app_r. reflexivity.
Qed.

(** [std::destroy_n] over a run of live objects leaves raw storage. *)
Lemma destroy_n_Live vs : forall s a pre post first,
  heap s !! a = Some (pre ++ (Live <$> vs) ++ post) ->
  first = length pre ->
  destroy_n (Some a) first (length vs) s
  = Ok tt (set_heap (<[a := pre ++ replicate (length vs) Raw ++ post]> (heap s)) s).
Proof.
  induction vs as [|v vs IH]; intros s a pre post first Ha ->.
  - simpl. unfold ret. f_equal. simpl in Ha.
    rewrite insert_id by exact Ha. symmetry. apply set_heap_id.
  - simpl in *.
    erewrite bind_Ok; [| eapply destroy_at_Live; [exact Ha | by apply lookup_split]].
    rewrite insert_split by reflexivity.
    erewrite (IH _ a (pre ++ [Raw]) post).
    + simpl. rewrite set_heap_set_heap, insert_insert_eq.
      rewrite <- app_assoc. reflexivity.
    + simpl. rewrite lookup_insert_eq, <- app_assoc. reflexivity.
    + rewrite length_app. simpl. lia.
Qed.

(** Destroying a cell that holds no object is undefined. *)
Lemma destroy_n_Raw s a pre post first n :
  heap s !! a = Some (pre ++ Raw :: post) ->
  first = length pre ->
  destroy_n (Some a) first (S n) s = Fault DestroyOfRawCell.
Proof.
  intros Ha ->. simpl.
  apply bind_Fault. eapply destroy_at_Raw; [exact Ha | by apply lookup_split].
Qed.

Lemma destroy_n_zero p first s : destroy_n p first 0 s = Ok tt s.
Proof. reflexivity. Qed.

End CellLemmas.

Section LoopLemmas.
Context {T : Type} `{ET : Element T}.

Implicit Types (s : state T) (a : addr) (v : T) (vs : list T).

Lemma uninitialized_copy_loop_ok vs :
  forall s sa da spre spost dpre dpost sfirst dfirst k,
  sa <> da ->
  heap s !! sa = Some (spre ++ (Live <$> vs) ++ spost) ->
  heap s !! da = Some (dpre ++ replicate (length vs) Raw ++ dpost) ->
  length spre = sfirst + k -> length dpre = dfirst + k ->
  Forall (fun v => copy_throws v = false) vs ->
  uninitialized_copy_loop (Some sa) sfirst (Some da) dfirst k (length vs) s
  = Ok tt (set_heap (<[da := dpre ++ (Live <$> vs) ++ dpost]> (heap s)) s).
Proof.
  induction vs as [|v vs IH];
    intros s sa da spre spost dpre dpost sfirst dfirst k Hne Hs Hd Hsl Hdl Hok.
  - simpl in *. unfold ret. f_equal.
    rewrite insert_id by exact Hd. symmetry. apply set_heap_id.
  - simpl in *. inversion Hok as [|? ? Hv Hok']; subst.
    erewrite bind_Ok; [| eapply read_cell_Live; [exact Hs | by apply lookup_split]].
    rewrite Hv.
    erewrite bind_Ok; [| eapply construct_at_Raw; [exact Hd | by apply lookup_split]].
    rewrite insert_split by done.
    erewrite (IH _ sa da (spre ++ [Live v]) spost (dpre ++ [Live v]) dpost).
    + simpl. rewrite set_heap_set_heap, insert_insert_eq, <- app_assoc.
      reflexivity.
    + exact Hne.
    + simpl. rewrite lookup_insert_ne by done. rewrite Hs, <- app_assoc. done.
    + simpl. rewrite lookup_insert_eq, <- app_assoc. done.
    + rewrite length_app. simpl. lia.
    + rewrite length_app. simpl. lia.
    + exact Hok'.
Qed.

(** When the copy of some element throws, the algorithm destroys what it
    has constructed: the destination is raw storage again and the state is
    the one the algorithm started from. *)
Lemma uninitialized_copy_loop_throw vs1 :
  forall s sa da spre spost dpre ws dpost sfirst dfirst k v vs2,
  sa <> da ->
  heap s !! sa = Some (spre ++ (Live <$> (vs1 ++ v :: vs2)) ++ spost) ->
  heap s !! da
  = Some (dpre ++ (Live <$> ws) ++ replicate (length (vs1 ++ v :: vs2)) Raw ++ dpost) ->
  length spre = sfirst + k -> length dpre = dfirst -> length ws = k ->
  Forall (fun v => copy_throws v = false) vs1 ->
  copy_throws v = true ->
  uninitialized_copy_loop (Some sa) sfirst (Some da) dfirst k
                          (length (vs1 ++ v :: vs2)) s
  = Throw (set_heap (<[da := dpre ++ replicate k Raw
                            ++ replicate (length (vs1 ++ v :: vs2)) Raw ++ dpost]>
                       (heap s)) s).
Proof.
  induction vs1 as [|u vs1 IH];
    intros s sa da spre spost dpre ws dpost sfirst dfirst k v vs2
           Hne Hs Hd Hsl Hdl Hwl Hok Hv.
  - simpl in *.
    erewrite bind_Ok; [| eapply read_cell_Live; [exact Hs | by apply lookup_split]].
    rewrite Hv. subst k.
    erewrite bind_Ok; [| eapply destroy_n_Live; [exact Hd | done]].
    reflexivity.
  - simpl in *. inversion Hok as [|? ? Hu Hok']; subst.
    erewrite bind_Ok; [| eapply read_cell_Live; [exact Hs | by apply lookup_split]].
    rewrite Hu.
    erewrite bind_Ok; [| eapply construct_at_Raw; [exact Hd |]].
    2:{ rewrite app_assoc. apply lookup_split. rewrite length_app, length_fmap. lia. }
    rewrite (app_assoc dpre), insert_split
      by (rewrite length_app, length_fmap; lia).
    erewrite (IH _ sa da (spre ++ [Live u]) spost dpre (ws ++ [u]) dpost
                sfirst (length dpre) (S (length ws)) v vs2).
    + simpl. rewrite set_heap_set_heap, insert_insert_eq.
      rewrite replicate_shift. reflexivity.
    + exact Hne.
    + simpl. rewrite lookup_insert_ne by done. rewrite Hs, <- app_assoc. done.
    + simpl. rewrite lookup_insert_eq, fmap_app, <- !app_assoc. done.
    + rewrite length_app. simpl. lia.
    + reflexivity.
    + rewrite length_app. simpl. lia.
    + exact Hok'.
    + exact Hv.
Qed.

Lemma insert_pair_collapse {A} (h : gmap addr A) sa da x1 y1 x2 y2 :
  sa <> da ->
  <[sa := x2]> (<[da := y2]> (<[sa := x1]> (<[da := y1]> h)))
  = <[sa := x2]> (<[da := y2]> h).
Proof.
  intros Hne. apply map_eq. intros i.
  rewrite !lookup_insert. repeat case_decide; subst; congruence.
Qed.

Lemma uninitialized_move_loop_ok vs :
  forall s sa da spre spost dpre dpost sfirst dfirst k,
  sa <> da ->
  heap s !! sa = Some (spre ++ (Live <$> vs) ++ spost) ->
  heap s !! da = Some (dpre ++ replicate (length vs) Raw ++ dpost) ->
  length spre = sfirst + k -> length dpre = dfirst + k ->
  Forall (fun v => move_throws v = false) vs ->
  uninitialized_move_loop (Some sa) sfirst (Some da) dfirst k (length vs) s
  = Ok tt (set_heap
             (<[sa := spre ++ (Live <$> (moved_from <$> vs)) ++ spost]>
                (<[da := dpre ++ (Live <$> vs) ++ dpost]> (heap s))) s).
Proof.
  induction vs as [|v vs IH];
    intros s sa da spre spost dpre dpost sfirst dfirst k Hne Hs Hd Hsl Hdl Hok.
  - simpl in *. unfold ret. f_equal.
    rewrite (insert_id _ da) by exact Hd.
    rewrite insert_id by exact Hs. symmetry. apply set_heap_id.
  - simpl in *. inversion Hok as [|? ? Hv Hok']; subst.
    erewrite bind_Ok; [| eapply read_cell_Live; [exact Hs | by apply lookup_split]].
    rewrite Hv.
    erewrite bind_Ok; [| eapply construct_at_Raw; [exact Hd | by apply lookup_split]].
    rewrite insert_split by done.
    erewrite bind_Ok.
    2:{ eapply assign_cell_Live; [| by apply lookup_split].
        simpl. rewrite lookup_insert_ne by done. exact Hs. }
    rewrite insert_split by done. simpl.
    erewrite (IH _ sa da (spre ++ [Live (moved_from v)]) spost
                (dpre ++ [Live v]) dpost).
    + simpl. rewrite set_heap_set_heap.
      rewrite <- !app_assoc. simpl.
      rewrite insert_pair_collapse by done. reflexivity.
    + exact Hne.
    + simpl. rewrite lookup_insert_eq, <- app_assoc. done.
    + simpl. rewrite lookup_insert_ne by done.
      rewrite lookup_insert_eq, <- app_assoc. done.
    + rewrite length_app. simpl. lia.
    + rewrite length_app. simpl. lia.
    + exact Hok'.
Qed.

(** When the move of some element throws, the destination is raw storage
    again; the elements moved before it stay moved-from. *)
Lemma uninitialized_move_loop_throw vs1 :
  forall s sa da spre spost dpre ws dpost sfirst dfirst k v vs2,
  sa <> da ->
  heap s !! sa = Some (spre ++ (Live <$> (vs1 ++ v :: vs2)) ++ spost) ->
  heap s !! da
  = Some (dpre ++ (Live <$> ws) ++ replicate (length (vs1 ++ v :: vs2)) Raw ++ dpost) ->
  length spre = sfirst + k -> length dpre = dfirst -> length ws = k ->
  Forall (fun v => move_throws v = false) vs1 ->
  move_throws v = true ->
  uninitialized_move_loop (Some sa) sfirst (Some da) dfirst k
                          (length (vs1 ++ v :: vs2)) s
  = Throw (set_heap
             (<[sa := spre ++ (Live <$> (moved_from <$> vs1))
                      ++ (Live <$> (v :: vs2)) ++ spost]>
                (<[da := dpre ++ replicate k Raw
                         ++ replicate (length (vs1 ++ v :: vs2)) Raw ++ dpost]>
                   (heap s))) s).
Proof.
  induction vs1 as [|u vs1 IH];
    intros s sa da spre spost dpre ws dpost sfirst dfirst k v vs2
           Hne Hs Hd Hsl Hdl Hwl Hok Hv.
  - simpl in *.
    erewrite bind_Ok; [| eapply read_cell_Live; [exact Hs | by apply lookup_split]].
    rewrite Hv. subst k.
    erewrite bind_Ok; [| eapply destroy_n_Live; [exact Hd | done]].
    unfold throw.
    rewrite (insert_id (<[da := _]> _) sa); [reflexivity|].
    rewrite lookup_insert_ne by done. exact Hs.
  - simpl in *. inversion Hok as [|? ? Hu Hok']; subst.
    erewrite bind_Ok; [| eapply read_cell_Live; [exact Hs | by apply lookup_split]].
    rewrite Hu.
    erewrite bind_Ok; [| eapply construct_at_Raw; [exact Hd |]].
    2:{ rewrite app_assoc. apply lookup_split. rewrite length_app, length_fmap. lia. }
    rewrite (app_assoc dpre), insert_split
      by (rewrite length_app, length_fmap; lia).
    erewrite bind_Ok.
    2:{ eapply assign_cell_Live; [| by apply lookup_split].
        simpl. rewrite lookup_insert_ne by done. exact Hs. }
    rewrite insert_split by done. rewrite set_heap_set_heap. simpl heap.
    erewrite (IH _ sa da (spre ++ [Live (moved_from u)]) spost dpre (ws ++ [u]) dpost
                sfirst (length dpre) (S (length ws)) v vs2).
    + rewrite set_heap_set_heap. simpl.
      rewrite insert_pair_collapse by done.
      rewrite (replicate_shift (length ws)), <- !app_assoc. reflexivity.
    + exact Hne.
    + simpl. rewrite lookup_insert_eq, <- app_assoc. done.
    + simpl. rewrite lookup_insert_ne by done.
      rewrite lookup_insert_eq, fmap_app, <- !app_assoc. done.
    + rewrite length_app. simpl. lia.
    + reflexivity.
    + rewrite length_app. simpl. lia.
    + exact Hok'.
    + exact Hv.
Qed.

End LoopLemmas.

(** ** What a vector owns *)

Section Ownership.
Context {T : Type} `{ET : Element T}.

Implicit Types (s : state T) (a : addr) (v x : T) (vs elems : list T).

Lemma owns_inv s this elems cap :
  owns s this elems cap ->
  exists p,
    objs s !! this = Some (mkVector (mkRawMemory p cap) (length elems)) /\
    length elems <= cap /\ representable cap /\
    match p with
    | None => cap = 0
    | Some a => cap <> 0 /\ heap s !! a = Some (cells elems cap)
    end.
Proof.
  unfold owns. destruct (objs s !! this) as [[[p c] n]|]; [|done].
  simpl. intros (-> & -> & Hle & Hrep & Hp). exists p. done.
Qed.

Lemma owns_intro s this elems cap p :
  objs s !! this = Some (mkVector (mkRawMemory p cap) (length elems)) ->
  length elems <= cap -> representable cap ->
  match p with
  | None => cap = 0
  | Some a => cap <> 0 /\ heap s !! a = Some (cells elems cap)
  end ->
  owns s this elems cap.
Proof. unfold owns. intros -> Hle Hrep Hp. simpl. done. Qed.

Lemma get_vec_Ok s this V : objs s !! this = Some V -> get_vec this s = Ok V s.
Proof. unfold get_vec. intros ->. reflexivity. Qed.

Lemma set_vec_Ok s this V :
  set_vec this V s = Ok tt (set_objs (<[this := V]> (objs s)) s).
Proof. reflexivity. Qed.

Lemma RawMemory_index_Ok s m i :
  i < capacity_ m -> RawMemory_index m i s = Ok (mkIter (buffer_ m) i) s.
Proof.
  intros Hi. unfold RawMemory_index, assert, bind.
  destruct (Nat.ltb_spec i (capacity_ m)); [reflexivity | lia].
Qed.

Lemma fresh_block s : heap s !! fresh (dom (heap s)) = None.
Proof. apply not_elem_of_dom, is_fresh. Qed.

Lemma fresh_block_ne s a b :
  heap s !! a = Some b -> a <> fresh (dom (heap s)).
Proof. intros Ha ->. rewrite fresh_block in Ha. done. Qed.

Lemma RawMemory_ctor_Ok s n :
  n <> 0 ->
  RawMemory_ctor n s
  = Ok (mkRawMemory (Some (fresh (dom (heap s)))) n)
       (set_heap (<[fresh (dom (heap s)) := replicate n Raw]> (heap s)) s).
Proof.
  intros Hn. unfold RawMemory_ctor, Allocate, bind.
  destruct (Nat.eqb_spec n 0); [done | reflexivity].
Qed.

Lemma RawMemory_ctor_capacity s n m s' :
  RawMemory_ctor n s = Ok m s' -> capacity_ m = n.
Proof.
  unfold RawMemory_ctor, Allocate, bind.
  destruct (n =? 0); unfold ret; intros [= <- _]; reflexivity.
Qed.

Lemma RawMemory_ctor_zero s : RawMemory_ctor 0 s = Ok RawMemory_default s.
Proof. reflexivity. Qed.

Lemma Deallocate_Ok s a b :
  heap s !! a = Some b ->
  Deallocate (Some a) s
  = Ok tt (add_leaked (live_count b) (set_heap (delete a (heap s)) s)).
Proof. unfold Deallocate. intros ->. reflexivity. Qed.

Lemma transfer_n_zero p sfirst q dfirst s :
  transfer_n p sfirst 0 q dfirst s = Ok tt s.
Proof. unfold transfer_n. destruct (_ || _); reflexivity. Qed.

Lemma transfer_n_ok vs s sa da spre spost dpre dpost sfirst dfirst :
  sa <> da ->
  heap s !! sa = Some (spre ++ (Live <$> vs) ++ spost) ->
  heap s !! da = Some (dpre ++ replicate (length vs) Raw ++ dpost) ->
  length spre = sfirst -> length dpre = dfirst ->
  transfer_ok vs ->
  transfer_n (Some sa) sfirst (length vs) (Some da) dfirst s
  = Ok tt (set_heap
             (<[sa := spre ++ (Live <$> (transferred <$> vs)) ++ spost]>
                (<[da := dpre ++ (Live <$> vs) ++ dpost]> (heap s))) s).
Proof.
  intros Hne Hs Hd Hsl Hdl Hok.
  unfold transfer_n, transfer_ok, transfer_throws, transferred in *.
  destruct (is_nothrow_move_constructible || negb is_copy_constructible).
  - unfold uninitialized_move_n.
    erewrite uninitialized_move_loop_ok; eauto; lia.
  - unfold uninitialized_copy_n.
    erewrite uninitialized_copy_loop_ok; eauto; try lia.
    rewrite list_fmap_id.
    rewrite (insert_id (<[da := _]> _) sa); [reflexivity|].
    rewrite lookup_insert_ne by done. exact Hs.
Qed.

End Ownership.

(** ** [EmplaceBack] *)

Section EmplaceBackSpec.
Context {T : Type} `{ET : Element T}.

Implicit Types (s : state T) (a : addr) (v x : T) (vs elems : list T).

(** With spare capacity the new element is constructed in cell [size_]. *)
Lemma EmplaceBack_spare s this a elems cap x :
  objs s !! this = Some (mkVector (mkRawMemory (Some a) cap) (length elems)) ->
  heap s !! a = Some (cells elems cap) ->
  length elems < cap -> representable cap ->
  EmplaceBack this (Some x) s
  = Ok (mkIter (Some a) (length elems))
       (mkState (<[a := cells (elems ++ [x]) cap]> (heap s))
                (<[this := mkVector (mkRawMemory (Some a) cap)
                                    (length (elems ++ [x]))]> (objs s))
                (leaked s)).
Proof.
  intros Hobj Hblk Hlt Hrep.
  assert (Hrep1 : representable (length elems + 1))
    by (eapply representable_le; [|exact Hrep]; lia).
  unfold EmplaceBack.
  rewrite (bind_Ok _ _ _ _ _ (get_vec_Ok _ _ _ Hobj)).
  unfold Capacity, RawMemory_Capacity, GetAddress. simpl.
  destruct (Nat.ltb_spec (length elems) cap) as [_|]; [|lia].
  rewrite (cells_spare _ _ Hlt) in Hblk.
  erewrite bind_Ok;
    [| unfold construct_new; eapply construct_at_Raw;
       [exact Hblk | apply lookup_split; by rewrite length_fmap]].
  rewrite insert_split by (by rewrite length_fmap).
  cbv zeta. rewrite (bind_Ok _ _ _ _ _ (set_vec_Ok _ _ _)).
  rewrite size_sub_succ by exact Hrep1.
  rewrite RawMemory_index_Ok by (simpl; lia).
  rewrite size_add_small by exact Hrep1.
  rewrite cells_snoc, length_app. reflexivity.
Qed.

(** Without spare capacity the vector moves into a block of
    [max(2 * capacity, size + 1)] cells. *)
Lemma EmplaceBack_full s this p elems cap x :
  objs s !! this = Some (mkVector (mkRawMemory p cap) (length elems)) ->
  match p with
  | None => cap = 0
  | Some a => cap <> 0 /\ heap s !! a = Some (cells elems cap)
  end ->
  cap = length elems ->
  representable (2 * (length elems + 1)) ->
  transfer_ok elems ->
  EmplaceBack this (Some x) s
  = Ok (mkIter (Some (fresh (dom (heap s)))) (length elems))
       (relocated s this p (elems ++ [x])
                  (Nat.max (cap * 2) (length elems + 1))).
Proof.
  intros Hobj Hp Hcap Hrep Hok.
  assert (Hrep1 : representable (length elems + 1))
    by (eapply representable_le; [|exact Hrep]; lia).
  assert (Hrep2 : representable (cap * 2))
    by (eapply representable_le; [|exact Hrep]; lia).
  unfold EmplaceBack.
  rewrite (bind_Ok _ _ _ _ _ (get_vec_Ok _ _ _ Hobj)).
  unfold Capacity, RawMemory_Capacity, GetAddress. simpl.
  destruct (Nat.ltb_spec (length elems) cap) as [|_]; [lia|].
  rewrite size_add_small by exact Hrep1.
  rewrite size_mul_small by exact Hrep2.
  set (cap' := Nat.max (cap * 2) (length elems + 1)).
  assert (Hcap' : length elems < cap') by (unfold cap'; lia).
  rewrite (bind_Ok _ _ _ _ _ (RawMemory_ctor_Ok s cap' ltac:(lia))).
  set (da := fresh (dom (heap s))).
  set (newblk := (Live <$> elems) ++ Live x :: replicate (cap' - S (length elems)) Raw).
  (* the new element, then the transfer *)
  assert (Hbody :
    forall dtor,
    on_unwind
      (construct_new (Some da) (length elems) (Some x) ;;
       try_catch (transfer_n p 0 (length elems) (Some da) 0)
                 (destroy_n (Some da) 0 (length elems + 1) ;; throw))
      dtor
      (set_heap (<[da := replicate cap' Raw]> (heap s)) s)
    = Ok tt (set_heap
               (<[da := newblk]>
                  (match p with
                   | Some a => <[a := (Live <$> (transferred <$> elems))
                                      ++ replicate (cap - length elems) Raw]> (heap s)
                   | None => heap s
                   end)) s)).
  { intros dtor. apply on_unwind_Ok.
    erewrite bind_Ok.
    2:{ unfold construct_new. eapply construct_at_Raw.
        - simpl. apply lookup_insert_eq.
        - apply lookup_replicate_2. lia. }
    simpl. rewrite set_heap_set_heap, insert_insert_eq.
    rewrite insert_replicate_Raw by lia.
    apply try_catch_Ok.
    destruct p as [a|].
    - destruct Hp as [Hc0 Ha].
      pose proof (fresh_block_ne _ _ _ Ha) as Hne.
      erewrite (transfer_n_ok elems _ a da [] (replicate (cap - length elems) Raw)
                  [] (Live x :: replicate (cap' - S (length elems)) Raw)).
      + rewrite set_heap_set_heap. simpl.
        rewrite insert_insert_eq.
        rewrite (insert_insert_ne _ a da) by done. reflexivity.
      + exact Hne.
      + simpl. rewrite lookup_insert_ne by done. exact Ha.
      + simpl. rewrite lookup_insert_eq. reflexivity.
      + reflexivity.
      + reflexivity.
      + exact Hok.
    - assert (elems = []) as -> by (destruct elems; [done | simpl in *; lia]).
      rewrite transfer_n_zero. reflexivity. }
  rewrite (bind_Ok _ _ _ _ _ (Hbody _)).
  (* the old elements are destroyed and the blocks exchanged *)
  destruct p as [a|].
  - destruct Hp as [Hc0 Ha].
    pose proof (fresh_block_ne _ _ _ Ha) as Hne.
    pose proof (destroy_n_Live (transferred <$> elems)
                  (set_heap (<[da := newblk]>
                     (<[a := (Live <$> (transferred <$> elems))
                             ++ replicate (cap - length elems) Raw]> (heap s))) s)
                  a [] (replicate (cap - length elems) Raw) 0) as Hd.
    rewrite length_fmap in Hd.
    rewrite (bind_Ok _ _ _ _ _ (Hd ltac:(simpl; rewrite lookup_insert_ne by done;
                                         apply lookup_insert_eq) eq_refl)).
    clear Hd. rewrite set_heap_set_heap.
    cbv zeta. unfold RawMemory_Swap. simpl buffer_. simpl capacity_.
    rewrite (bind_Ok _ _ _ _ _ (set_vec_Ok _ _ _)).
    rewrite size_sub_add1.
    erewrite bind_Ok; [| apply RawMemory_index_Ok; simpl; lia].
    erewrite bind_Ok.
    2:{ eapply Deallocate_Ok. simpl. apply lookup_insert_eq. }
    unfold ret, relocated, add_leaked, set_heap, set_objs. simpl.
    f_equal. fold da. f_equal.
    + rewrite delete_insert_eq.
      rewrite delete_insert_ne by done.
      rewrite delete_insert_eq.
      unfold newblk. rewrite cells_snoc. reflexivity.
    + rewrite length_app. simpl. reflexivity.
    + rewrite live_count_app, !live_count_replicate_Raw. lia.
  - assert (elems = []) as -> by (destruct elems; [done | simpl in *; lia]).
    simpl in *. subst cap. reflexivity.
Qed.

End EmplaceBackSpec.

(** ** Moves inside one block *)

Section ShiftLemmas.
Context {T : Type} `{ET : Element T}.

Implicit Types (s : state T) (a : addr) (v w x y : T) (xs : list T).

Lemma lookup_second (l1 l2 : list (cell T)) c1 c2 i :
  i = S (length l1) -> (l1 ++ c1 :: c2 :: l2) !! i = Some c2.
Proof.
  intros ->. change (l1 ++ c1 :: c2 :: l2) with (l1 ++ [c1] ++ c2 :: l2).
  rewrite app_assoc. apply lookup_split. rewrite length_app. simpl. lia.
Qed.

Lemma insert_second (l1 l2 : list (cell T)) c1 c2 c' i :
  i = S (length l1) ->
  <[i := c']> (l1 ++ c1 :: c2 :: l2) = l1 ++ c1 :: c' :: l2.
Proof.
  intros ->. change (l1 ++ c1 :: c2 :: l2) with (l1 ++ [c1] ++ c2 :: l2).
  rewrite app_assoc.
  rewrite insert_split by (rewrite length_app; simpl; lia).
  rewrite <- app_assoc. reflexivity.
Qed.

(** [dst[i + 1] = std::move(src[i])] *)
Lemma move_assign_cell_right s a l1 l2 v w i :
  heap s !! a = Some (l1 ++ Live v :: Live w :: l2) ->
  i = length l1 ->
  move_assign_throws v = false ->
  move_assign_cell (Some a) i (Some a) (S i) s
  = Ok tt (set_heap (<[a := l1 ++ Live (moved_from v) :: Live v :: l2]> (heap s)) s).
Proof.
  intros Ha -> Hv. unfold move_assign_cell.
  erewrite bind_Ok; [| eapply read_cell_Live; [exact Ha | by apply lookup_split]].
  rewrite Hv.
  erewrite bind_Ok;
    [| eapply (assign_cell_Live _ _ _ _ w); [exact Ha | by apply lookup_second]].
  rewrite insert_second by done.
  erewrite (assign_cell_Live _ _ (l1 ++ Live v :: Live v :: l2) _ v);
    [| simpl; apply lookup_insert_eq | by apply lookup_split].
  rewrite set_heap_set_heap. simpl. rewrite insert_insert_eq.
  rewrite insert_split by done. reflexivity.
Qed.

(** [dst[i] = std::move(src[i + 1])] *)
Lemma move_assign_cell_left s a l1 l2 v w i :
  heap s !! a = Some (l1 ++ Live w :: Live v :: l2) ->
  i = length l1 ->
  move_assign_throws v = false ->
  move_assign_cell (Some a) (S i) (Some a) i s
  = Ok tt (set_heap (<[a := l1 ++ Live v :: Live (moved_from v) :: l2]> (heap s)) s).
Proof.
  intros Ha -> Hv. unfold move_assign_cell.
  erewrite bind_Ok; [| eapply read_cell_Live; [exact Ha | by apply lookup_second]].
  rewrite Hv.
  erewrite bind_Ok;
    [| eapply (assign_cell_Live _ _ _ _ w); [exact Ha | by apply lookup_split]].
  rewrite insert_split by done.
  erewrite (assign_cell_Live _ _ (l1 ++ Live v :: Live v :: l2) _ v);
    [| simpl; apply lookup_insert_eq | by apply lookup_second].
  rewrite set_heap_set_heap. simpl. rewrite insert_insert_eq.
  rewrite insert_second by done. reflexivity.
Qed.

(** [std::move_backward] over [xs], one cell to the right, into the cell
    that holds [y]: the run is shifted and its first cell keeps a live,
    moved-from object. *)
Lemma state_unchanged s a (b : list (cell T)) :
  heap s !! a = Some b -> set_heap (<[a := b]> (heap s)) s = s.
Proof. intros Ha. rewrite insert_id by exact Ha. apply set_heap_id. Qed.

Lemma move_backward_loop_shift xs :
  forall s a pre y post first dlast,
  heap s !! a = Some (pre ++ (Live <$> xs) ++ Live y :: post) ->
  first = length pre -> dlast = length pre + length xs + 1 ->
  Forall (fun v => move_assign_throws v = false) xs ->
  exists z,
    move_backward_loop (Some a) first (Some a) dlast (length xs) s
    = Ok tt (set_heap (<[a := pre ++ Live z :: (Live <$> xs) ++ post]> (heap s)) s).
Proof.
  induction xs as [|x xs IH] using rev_ind;
    intros s a pre y post first dlast Ha -> -> Hok.
  - exists y. simpl in *. rewrite (state_unchanged _ _ _ Ha). reflexivity.
  - apply Forall_app in Hok as [Hok Hx].
    inversion Hx as [|? ? Hx' _]; subst.
    rewrite length_app. simpl length.
    replace (length xs + 1) with (S (length xs)) by lia.
    replace (length pre + S (length xs) + 1)
      with (S (S (length pre + length xs))) by lia.
    simpl.
    rewrite fmap_app, <- app_assoc in Ha. simpl in Ha.
    rewrite app_assoc in Ha.
    erewrite bind_Ok.
    2:{ eapply move_assign_cell_right; [exact Ha | | exact Hx'].
        rewrite length_app, length_fmap. reflexivity. }
    rewrite <- app_assoc.
    destruct (IH (set_heap
                    (<[a := pre ++ (Live <$> xs) ++ Live (moved_from x) :: Live x :: post]>
                       (heap s)) s)
                 a pre (moved_from x) (Live x :: post)
                 (length pre) (S (length pre + length xs))) as [z Hz].
    + simpl. apply lookup_insert_eq.
    + reflexivity.
    + lia.
    + exact Hok.
    + exists z. rewrite Hz.
      rewrite set_heap_set_heap. simpl. rewrite insert_insert_eq.
      rewrite fmap_app, <- app_assoc. reflexivity.
Qed.

(** [std::move] over [xs], one cell to the left, into the cell that holds
    [y]: the run is shifted and the cell after it keeps a live, moved-from
    object. *)
Lemma move_loop_shift xs :
  forall s a pre y post first dfirst,
  heap s !! a = Some (pre ++ Live y :: (Live <$> xs) ++ post) ->
  dfirst = length pre -> first = S (length pre) ->
  Forall (fun v => move_assign_throws v = false) xs ->
  exists z,
    move_loop (Some a) first (Some a) dfirst (length xs) s
    = Ok tt (set_heap (<[a := pre ++ (Live <$> xs) ++ Live z :: post]> (heap s)) s).
Proof.
  induction xs as [|x xs IH];
    intros s a pre y post first dfirst Ha -> -> Hok.
  - exists y. simpl in *. rewrite (state_unchanged _ _ _ Ha). reflexivity.
  - inversion Hok as [|? ? Hx Hok']; subst. simpl in *.
    erewrite bind_Ok;
      [| eapply move_assign_cell_left; [exact Ha | reflexivity | exact Hx]].
    destruct (IH (set_heap
                    (<[a := pre ++ Live x :: Live (moved_from x)
                                :: (Live <$> xs) ++ post]> (heap s)) s)
                 a (pre ++ [Live x]) (moved_from x) post
                 (S (S (length pre))) (S (length pre))) as [z Hz].
    + simpl. rewrite lookup_insert_eq, <- app_assoc. reflexivity.
    + rewrite length_app. simpl. lia.
    + rewrite length_app. simpl. lia.
    + exact Hok'.
    + exists z. etransitivity; [exact Hz|].
      rewrite set_heap_set_heap. simpl. rewrite insert_insert_eq.
      rewrite <- app_assoc. reflexivity.
Qed.

End ShiftLemmas.

(** ** [Emplace] *)

Section EmplaceSpec.
Context {T : Type} `{ET : Element T}.

Implicit Types (s : state T) (a : addr) (v x : T) (vs elems pre suf : list T).

Lemma iter_diff_begin s p i V :
  GetAddress (data_ V) = p ->
  iter_diff (mkIter p i) (begin V) s = Ok i s.
Proof.
  intros <-. unfold iter_diff, begin, ptr_eqb. simpl.
  rewrite bool_decide_eq_true_2 by reflexivity.
  rewrite Nat.sub_0_r. reflexivity.
Qed.

(** Without spare capacity: the new element is constructed at its offset in
    the new block, and the elements before and after the offset are
    transferred around it. *)
Lemma Emplace_full s this p pre suf cap x :
  objs s !! this = Some (mkVector (mkRawMemory p cap) (length (pre ++ suf))) ->
  match p with
  | None => cap = 0
  | Some a => cap <> 0 /\ heap s !! a = Some (cells (pre ++ suf) cap)
  end ->
  cap = length (pre ++ suf) ->
  representable (2 * (length (pre ++ suf) + 1)) ->
  transfer_ok (pre ++ suf) ->
  Emplace this (mkIter p (length pre)) (Some x) s
  = Ok (mkIter (Some (fresh (dom (heap s)))) (length pre))
       (relocated s this p (pre ++ x :: suf)
                  (Nat.max (cap * 2) (length (pre ++ suf) + 1))).
Proof.
  intros Hobj Hp Hcap Hrep Hok.
  set (n := length (pre ++ suf)) in *.
  assert (Hn : n = length pre + length suf) by (unfold n; apply length_app).
  assert (Hrep1 : representable (n + 1))
    by (eapply representable_le; [|exact Hrep]; lia).
  assert (Hrep2 : representable (cap * 2))
    by (eapply representable_le; [|exact Hrep]; lia).
  apply Forall_app in Hok as [Hokp Hoks].
  unfold Emplace.
  rewrite (bind_Ok _ _ _ _ _ (get_vec_Ok _ _ _ Hobj)).
  erewrite bind_Ok; [| apply iter_diff_begin; reflexivity].
  unfold Capacity, RawMemory_Capacity, GetAddress. simpl.
  destruct (Nat.ltb_spec n cap) as [|_]; [lia|].
  rewrite size_add_small by exact Hrep1.
  rewrite size_mul_small by exact Hrep2.
  rewrite (size_sub_le n (length pre)) by lia.
  replace (n - length pre) with (length suf) by lia.
  set (cap' := Nat.max (cap * 2) (n + 1)).
  assert (Hcap' : n < cap') by (unfold cap'; lia).
  rewrite (bind_Ok _ _ _ _ _ (RawMemory_ctor_Ok s cap' ltac:(lia))).
  set (da := fresh (dom (heap s))).
  set (newblk := (Live <$> pre) ++ Live x :: (Live <$> suf)
                 ++ replicate (cap' - S n) Raw).
  set (oldblk := (Live <$> (transferred <$> pre))
                 ++ (Live <$> (transferred <$> suf))
                 ++ replicate (cap - n) Raw).
  assert (Hbody :
    forall dtor,
    on_unwind
      (construct_new (Some da) (length pre) (Some x) ;;
       try_catch
         (transfer_n p 0 (length pre) (Some da) 0 ;;
          transfer_n p (length pre) (length suf) (Some da) (length pre + 1))
         (destroy_n (Some da) 0 (n + 1) ;; throw))
      dtor
      (set_heap (<[da := replicate cap' Raw]> (heap s)) s)
    = Ok tt (set_heap
               (<[da := newblk]>
                  (match p with
                   | Some a => <[a := oldblk]> (heap s)
                   | None => heap s
                   end)) s)).
  { intros dtor. apply on_unwind_Ok.
    erewrite bind_Ok.
    2:{ unfold construct_new. eapply construct_at_Raw.
        - simpl. apply lookup_insert_eq.
        - apply lookup_replicate_2. lia. }
    simpl. rewrite set_heap_set_heap, insert_insert_eq.
    rewrite insert_replicate_Raw by lia.
    apply try_catch_Ok.
    destruct p as [a|].
    - destruct Hp as [Hc0 Ha].
      pose proof (fresh_block_ne _ _ _ Ha) as Hne.
      unfold cells in Ha. rewrite fmap_app, <- app_assoc in Ha.
      fold n in Ha.
      erewrite bind_Ok.
      2:{ eapply (transfer_n_ok pre _ a da []
                    ((Live <$> suf) ++ replicate (cap - n) Raw)
                    [] (Live x :: replicate (cap' - S (length pre)) Raw));
          [exact Hne | | | reflexivity | reflexivity | exact Hokp].
        - simpl. rewrite lookup_insert_ne by done. exact Ha.
        - simpl. rewrite lookup_insert_eq. reflexivity. }
      rewrite set_heap_set_heap. simpl.
      rewrite insert_insert_eq.
      replace (cap' - S (length pre))
        with (length suf + (cap' - S n)) by lia.
      rewrite replicate_add.
      erewrite (transfer_n_ok suf _ a da
                  (Live <$> (transferred <$> pre)) (replicate (cap - n) Raw)
                  ((Live <$> pre) ++ [Live x]) (replicate (cap' - S n) Raw)).
      + rewrite set_heap_set_heap. simpl.
        rewrite insert_pair_collapse by done.
        rewrite (insert_insert_ne _ a da) by done.
        unfold newblk, oldblk. rewrite <- !app_assoc. reflexivity.
      + exact Hne.
      + simpl. rewrite lookup_insert_eq. reflexivity.
      + simpl. rewrite lookup_insert_ne by done.
        rewrite lookup_insert_eq, <- app_assoc. reflexivity.
      + rewrite !length_fmap. reflexivity.
      + rewrite length_app, length_fmap. reflexivity.
      + exact Hoks.
    - assert (pre = []) as -> by (destruct pre; [done | simpl in *; lia]).
      assert (suf = []) as -> by (destruct suf; [done | simpl in *; lia]).
      rewrite (bind_Ok _ _ _ _ _ (transfer_n_zero _ _ _ _ _)).
      rewrite transfer_n_zero. reflexivity. }
  rewrite (bind_Ok _ _ _ _ _ (Hbody _)).
  destruct p as [a|].
  - destruct Hp as [Hc0 Ha].
    pose proof (fresh_block_ne _ _ _ Ha) as Hne.
    pose proof (destroy_n_Live (transferred <$> (pre ++ suf))
                  (set_heap (<[da := newblk]> (<[a := oldblk]> (heap s))) s)
                  a [] (replicate (cap - n) Raw) 0) as Hd.
    rewrite length_fmap in Hd. fold n in Hd.
    erewrite bind_Ok.
    2:{ apply Hd; [|reflexivity].
        simpl. rewrite lookup_insert_ne by done. rewrite lookup_insert_eq.
        unfold oldblk. rewrite !fmap_app, <- app_assoc. reflexivity. }
    clear Hd. rewrite set_heap_set_heap.
    cbv zeta. unfold RawMemory_Swap. simpl buffer_. simpl capacity_.
    rewrite (bind_Ok _ _ _ _ _ (set_vec_Ok _ _ _)).
    erewrite bind_Ok.
    2:{ eapply Deallocate_Ok. simpl. apply lookup_insert_eq. }
    unfold ret, relocated, add_leaked, set_heap, set_objs, std_next, begin.
    simpl. f_equal. fold da. f_equal.
    + rewrite delete_insert_eq.
      rewrite delete_insert_ne by done.
      rewrite delete_insert_eq.
      unfold newblk, cells. rewrite fmap_app, <- app_assoc. simpl.
      rewrite length_app. simpl.
      replace (cap' - (length pre + S (length suf))) with (cap' - S n) by lia.
      reflexivity.
    + rewrite length_app. simpl. do 2 f_equal. lia.
    + rewrite live_count_app, !live_count_replicate_Raw. lia.
  - assert (pre = []) as -> by (destruct pre; [done | simpl in *; lia]).
    assert (suf = []) as -> by (destruct suf; [done | simpl in *; lia]).
    simpl in *. subst cap. reflexivity.
Qed.

(** With spare capacity, in front of an element: the last element is moved
    into the first raw cell, the elements from the offset on are shifted
    right by move assignment, and the new value is move-assigned into the
    cell at the offset. *)
Lemma Emplace_spare_middle s this a pre mid l cap x :
  objs s !! this
  = Some (mkVector (mkRawMemory (Some a) cap) (length (pre ++ mid ++ [l]))) ->
  heap s !! a = Some (cells (pre ++ mid ++ [l]) cap) ->
  length (pre ++ mid ++ [l]) < cap -> representable cap ->
  move_throws l = false ->
  Forall (fun v => move_assign_throws v = false) mid ->
  move_assign_throws x = false ->
  Emplace this (mkIter (Some a) (length pre)) (Some x) s
  = Ok (mkIter (Some a) (length pre))
       (mkState (<[a := cells (pre ++ x :: mid ++ [l]) cap]> (heap s))
                (<[this := mkVector (mkRawMemory (Some a) cap)
                                    (length (pre ++ x :: mid ++ [l]))]> (objs s))
                (leaked s)).
Proof.
  intros Hobj Hblk Hlt Hrep Hl Hmid Hx.
  set (m := length pre + length mid).
  assert (Hn : length (pre ++ mid ++ [l]) = S m)
    by (rewrite !length_app; simpl; unfold m; lia).
  rewrite Hn in *.
  assert (Hrep1 : representable (S m + 1))
    by (eapply representable_le; [|exact Hrep]; lia).
  set (raws := replicate (cap - S (S m)) (@Raw T)).
  assert (Hblk0 : heap s !! a
                  = Some (((Live <$> pre) ++ (Live <$> mid))
                          ++ Live l :: Raw :: raws)).
  { rewrite Hblk. f_equal. unfold cells. rewrite Hn.
    rewrite !fmap_app, <- !app_assoc. simpl.
    replace (cap - S m) with (S (cap - S (S m))) by lia. reflexivity. }
  assert (Hlen1 : length ((Live <$> pre) ++ (Live <$> mid) : list (cell T)) = m)
    by (rewrite length_app, !length_fmap; reflexivity).
  unfold Emplace.
  rewrite (bind_Ok _ _ _ _ _ (get_vec_Ok _ _ _ Hobj)).
  erewrite bind_Ok; [| apply iter_diff_begin; reflexivity].
  unfold Capacity, RawMemory_Capacity, GetAddress, end_, iter_eqb, ptr_eqb.
  simpl.
  destruct (Nat.ltb_spec (S m) cap) as [_|]; [|lia].
  rewrite bool_decide_eq_true_2 by reflexivity.
  destruct (Nat.eqb_spec (length pre) (S m)) as [|_]; [unfold m in *; lia|].
  simpl.
  erewrite bind_Ok.
  2:{ rewrite bind_ret_l. cbv beta.
      (* the last element moves into the raw cell behind it *)
      erewrite bind_Ok.
      2:{ unfold uninitialized_move_n. simpl uninitialized_move_loop.
          rewrite !Nat.add_0_r.
          erewrite bind_Ok;
            [| eapply read_cell_Live; [exact Hblk0 | by apply lookup_split]].
          rewrite Hl.
          erewrite bind_Ok;
            [| eapply construct_at_Raw;
               [exact Hblk0 | apply lookup_second; congruence]].
          rewrite insert_second by congruence.
          erewrite bind_Ok.
          2:{ eapply (assign_cell_Live _ _ _ _ l);
                [simpl; apply lookup_insert_eq | by apply lookup_split]. }
          rewrite set_heap_set_heap. simpl heap. rewrite insert_insert_eq.
          rewrite insert_split by done. reflexivity. }
      (* the elements from the offset on shift right *)
      unfold std_move_backward.
      replace (m - length pre) with (length mid) by (unfold m; lia).
      destruct (move_backward_loop_shift mid
                  (set_heap
                     (<[a := ((Live <$> pre) ++ (Live <$> mid))
                             ++ Live (moved_from l) :: Live l :: raws]> (heap s)) s)
                  a (Live <$> pre) (moved_from l) (Live l :: raws)
                  (length pre) (S m)) as [z Hz].
      { simpl. rewrite lookup_insert_eq, <- app_assoc. reflexivity. }
      { by rewrite length_fmap. }
      { rewrite length_fmap. unfold m. lia. }
      { exact Hmid. }
      rewrite (bind_Ok _ _ _ _ _ Hz). clear Hz.
      rewrite set_heap_set_heap. simpl heap. rewrite insert_insert_eq.
      (* the new value is assigned into the cell at the offset *)
      erewrite bind_Ok; [| apply RawMemory_index_Ok; simpl; unfold m in *; lia].
      rewrite Hx. simpl it_base. simpl it_off.
      erewrite (assign_cell_Live _ _ _ _ z);
        [| simpl; apply lookup_insert_eq
         | apply lookup_split; by rewrite length_fmap].
      rewrite set_heap_set_heap. simpl heap. rewrite insert_insert_eq.
      rewrite insert_split by (by rewrite length_fmap).
      reflexivity. }
  rewrite (bind_Ok _ _ _ _ _ (set_vec_Ok _ _ _)).
  rewrite size_add_small by exact Hrep1.
  unfold ret, std_next, begin, set_objs, set_heap. simpl.
  f_equal. f_equal.
  - f_equal. unfold cells.
    rewrite !fmap_app, <- !app_assoc. simpl.
    rewrite !length_app. simpl. rewrite !length_app. simpl.
    rewrite fmap_app, <- app_assoc. simpl.
    replace (cap - (length pre + S (length mid + 1)))
      with (cap - S (S m)) by (unfold m; lia).
    reflexivity.
  - do 2 f_equal. rewrite !length_app. simpl. rewrite !length_app. simpl.
    unfold m. lia.
Qed.

(** At the end position [Emplace] is [EmplaceBack]: same state, same
    outcome (also when the constructor or a transfer throws), and the
    reference returned by the one is the position returned by the other. *)
Lemma Emplace_at_end s this V ctor :
  objs s !! this = Some V ->
  representable (size_ V + 1) ->
  Emplace this (end_ V) ctor s = EmplaceBack this ctor s.
Proof.
  intros Hobj Hrep.
  unfold Emplace, EmplaceBack.
  rewrite !(bind_Ok _ _ _ _ _ (get_vec_Ok _ _ _ Hobj)).
  unfold end_. erewrite bind_Ok; [| apply iter_diff_begin; reflexivity].
  destruct (Nat.ltb_spec (size_ V) (Capacity V)) as [Hlt|Hge].
  - unfold iter_eqb, ptr_eqb. simpl.
    rewrite bool_decide_eq_true_2 by reflexivity.
    rewrite Nat.eqb_refl. simpl.
    apply bind_ext; [reflexivity|]. intros [] s1.
    apply bind_ext; [reflexivity|]. intros [] s2.
    rewrite size_sub_succ by exact Hrep.
    rewrite RawMemory_index_Ok by exact Hlt.
    reflexivity.
  - apply bind_ext_Ok. intros new_data s1 Hnew.
    apply RawMemory_ctor_capacity in Hnew.
    apply bind_ext.
    { apply on_unwind_ext.
      apply bind_ext; [reflexivity|]. intros [] s2.
      apply try_catch_ext.
      rewrite size_sub_le, Nat.sub_diag by lia.
      etransitivity; [|apply bind_ret_unit].
      apply bind_ext; [reflexivity|]. intros [] s3.
      apply transfer_n_zero. }
    intros [] s2.
    apply bind_ext; [reflexivity|]. intros [] s3.
    unfold RawMemory_Swap. cbv zeta.
    apply bind_ext; [reflexivity|]. intros [] s4.
    rewrite size_sub_succ by exact Hrep.
    erewrite (bind_Ok (RawMemory_index _ _)).
    2:{ apply RawMemory_index_Ok. simpl. rewrite Hnew.
        rewrite (size_add_small _ _ Hrep). lia. }
    reflexivity.
Qed.

End EmplaceSpec.

(** ** [Erase] *)

Section EraseSpec.
Context {T : Type} `{ET : Element T}.

Implicit Types (s : state T) (a : addr) (v x y : T) (vs elems pre suf : list T).

(** The element at the offset is overwritten by its successor, every later
    element moves one cell to the left, and the last cell is destroyed. *)
Lemma Erase_spec s this a pre y suf cap :
  objs s !! this
  = Some (mkVector (mkRawMemory (Some a) cap) (length (pre ++ y :: suf))) ->
  heap s !! a = Some (cells (pre ++ y :: suf) cap) ->
  length (pre ++ y :: suf) <= cap ->
  Forall (fun v => move_assign_throws v = false) suf ->
  Erase this (mkIter (Some a) (length pre)) s
  = Ok (mkIter (Some a) (length pre))
       (mkState (<[a := cells (pre ++ suf) cap]> (heap s))
                (<[this := mkVector (mkRawMemory (Some a) cap)
                                    (length (pre ++ suf))]> (objs s))
                (leaked s)).
Proof.
  intros Hobj Hblk Hle Hok.
  set (m := length pre + length suf).
  assert (Hn : length (pre ++ y :: suf) = S m)
    by (rewrite length_app; simpl; unfold m; lia).
  assert (Hm : length (pre ++ suf) = m) by (rewrite length_app; reflexivity).
  rewrite Hn in *.
  set (raws := replicate (cap - S m) (@Raw T)).
  assert (Hblk0 : heap s !! a
                  = Some ((Live <$> pre) ++ Live y :: (Live <$> suf) ++ raws)).
  { rewrite Hblk. f_equal. unfold cells. rewrite Hn.
    rewrite fmap_app, <- app_assoc. reflexivity. }
  unfold Erase.
  rewrite (bind_Ok _ _ _ _ _ (get_vec_Ok _ _ _ Hobj)).
  erewrite bind_Ok; [| apply iter_diff_begin; reflexivity].
  simpl size_ . simpl offset_before. rewrite bind_ret_l. cbv beta.
  unfold GetAddress. simpl data_. simpl buffer_.
  assert (Hshift : exists z,
    (if negb (iter_eqb (mkIter (Some a) (length pre)) (mkIter (Some a) m))
     then std_move (Some a) (length pre + 1) (S m) (Some a) (length pre)
     else ret tt) s
    = Ok tt (set_heap (<[a := (Live <$> pre) ++ (Live <$> suf) ++ Live z :: raws]>
                         (heap s)) s)).
  { destruct (negb _) eqn:Hlast.
    - unfold std_move.
      replace (S m - (length pre + 1)) with (length suf) by (unfold m; lia).
      replace (length pre + 1) with (S (length pre)) by lia.
      eapply move_loop_shift; [exact Hblk0 | | | exact Hok];
        by rewrite length_fmap.
    - destruct suf as [|x suf]; [| exfalso].
      + exists y. simpl in *. rewrite (state_unchanged _ _ _ Hblk0). reflexivity.
      + unfold iter_eqb, ptr_eqb in Hlast. simpl in Hlast.
        rewrite bool_decide_eq_true_2 in Hlast by reflexivity.
        destruct (Nat.eqb_spec (length pre) m) as [Heq|]; [|done].
        unfold m in Heq. simpl in Heq. lia. }
  destruct Hshift as [z Hz].
  rewrite (bind_Ok _ _ _ _ _ Hz). clear Hz.
  change (destroy_n (T:=T) (Some a) m 1)
    with (destroy_n (T:=T) (Some a) m (length [z])).
  erewrite bind_Ok.
  2:{ eapply (destroy_n_Live [z] _ a ((Live <$> pre) ++ (Live <$> suf)) raws).
      - simpl. rewrite lookup_insert_eq, <- app_assoc. reflexivity.
      - rewrite length_app, !length_fmap. reflexivity. }
  rewrite set_heap_set_heap. simpl heap. rewrite insert_insert_eq.
  rewrite (bind_Ok _ _ _ _ _ (set_vec_Ok _ _ _)).
  rewrite size_sub_le by lia.
  unfold ret, std_next, begin, set_objs, set_heap. simpl.
  f_equal. f_equal.
  - f_equal. unfold cells. rewrite Hm, fmap_app, <- !app_assoc. simpl.
    unfold raws.
    replace (cap - m) with (S (cap - S m)) by lia. reflexivity.
  - rewrite Hm. do 3 f_equal. lia.
Qed.

End EraseSpec.

(** ** Framing: what an operation on one vector leaves alone *)

Section Frame.
Context {T : Type} `{ET : Element T}.
Variables (v : vid) (V0 : Vector) (blk0 : list (cell T)).

Implicit Types (s : state T) (a : addr) (p q : option addr).

Local Abbreviation protected := (protected v V0 blk0).
Local Abbreviation foreign := (foreign V0).
Local Abbreviation preserves := (preserves v V0 blk0).

Lemma foreign_None : foreign None.
Proof. intros a Ha. discriminate. Qed.

Lemma preserves_ret {A} (r : A) (Q : A -> Prop) : Q r -> preserves (ret r) Q.
Proof. intros HQ s Hs. simpl. done. Qed.

Lemma preserves_throw {A} (Q : A -> Prop) : preserves throw Q.
Proof. intros s Hs. exact Hs. Qed.

Lemma preserves_fault {A} e (Q : A -> Prop) : preserves (fault_with e) Q.
Proof. intros s Hs. exact I. Qed.

Lemma preserves_bind {A B} (m : M A) (f : A -> M B) Q R :
  preserves m Q -> (forall r, Q r -> preserves (f r) R) ->
  preserves (bind m f) R.
Proof.
  intros Hm Hf s Hs. specialize (Hm s Hs). unfold bind.
  destruct (m s) as [r s'| |]; [|done..].
  destruct Hm as [Hs' Hr]. exact (Hf r Hr s' Hs').
Qed.

Lemma preserves_weaken {A} (m : M A) (Q Q' : A -> Prop) :
  preserves m Q -> (forall r, Q r -> Q' r) -> preserves m Q'.
Proof.
  intros Hm HQ s Hs. specialize (Hm s Hs).
  destruct (m s) as [r s'| |]; [|done..].
  destruct Hm as [Hs' Hr]. split; [done | by apply HQ].
Qed.

Lemma preserves_try_catch {A} (m h : M A) Q :
  preserves m Q -> preserves h Q -> preserves (try_catch m h) Q.
Proof.
  intros Hm Hh s Hs. specialize (Hm s Hs). unfold try_catch.
  destruct (m s) as [r s'|s'|]; [done | | done]. exact (Hh s' Hm).
Qed.

Lemma preserves_on_unwind {A} (m : M A) d Q :
  preserves m Q -> preserves d (fun _ => True) -> preserves (on_unwind m d) Q.
Proof.
  intros Hm Hd. apply preserves_try_catch; [exact Hm|].
  eapply preserves_bind; [exact Hd|]. intros _ _. apply preserves_throw.
Qed.

Lemma preserves_if {A} (b : bool) (m1 m2 : M A) Q :
  preserves m1 Q -> preserves m2 Q -> preserves (if b then m1 else m2) Q.
Proof. destruct b; done. Qed.

Lemma preserves_assert b : preserves (assert b) (fun _ => True).
Proof. destruct b; [by apply preserves_ret | apply preserves_fault]. Qed.

(** *** Vector objects *)

Lemma preserves_get_vec u :
  preserves (get_vec u)
    (fun U => (u = v -> U = V0) /\ (u <> v -> foreign (buffer_ (data_ U)))).
Proof.
  intros s Hs. unfold get_vec.
  destruct (objs s !! u) as [U|] eqn:HU; [|done].
  split; [exact Hs|]. destruct Hs as (Hv & _ & Hno). split.
  - intros ->. congruence.
  - intros Hne a Ha. by eapply Hno.
Qed.

Lemma protected_set_objs s o :
  protected s ->
  o !! v = Some V0 ->
  (forall u U a, u <> v -> o !! u = Some U ->
                 buffer_ (data_ U) = Some a -> buffer_ (data_ V0) <> Some a) ->
  protected (set_objs o s).
Proof. intros (_ & Hblk & _) Hv Hno. repeat split; done. Qed.

Lemma preserves_set_vec u U :
  u <> v -> foreign (buffer_ (data_ U)) ->
  preserves (set_vec u U) (fun _ => True).
Proof.
  intros Hne HU s Hs. simpl. split; [|done].
  destruct Hs as (Hv & Hblk & Hno).
  apply protected_set_objs; [done | by rewrite lookup_insert_ne |].
  intros u' U' a Hu'. rewrite lookup_insert.
  case_decide; [intros [= <-]; apply HU | by apply Hno].
Qed.

Lemma preserves_del_vec u : u <> v -> preserves (del_vec u) (fun _ => True).
Proof.
  intros Hne s Hs. simpl. split; [|done].
  destruct Hs as (Hv & Hblk & Hno).
  apply protected_set_objs; [done | by rewrite lookup_delete_ne |].
  intros u' U' a Hu'. rewrite lookup_delete.
  case_decide; [done | by apply Hno].
Qed.

Lemma preserves_new_local : preserves new_local (fun u => u <> v).
Proof.
  intros s Hs. simpl. split; [done|]. intros Heq.
  destruct Hs as (Hv & _).
  pose proof (is_fresh (dom (objs s))) as Hf. rewrite Heq in Hf.
  apply Hf, elem_of_dom. eauto.
Qed.

(** *** Blocks *)

Lemma protected_set_heap s h :
  protected s ->
  (forall a, buffer_ (data_ V0) = Some a -> h !! a = Some blk0) ->
  protected (set_heap h s).
Proof. intros (Hv & _ & Hno) Hblk. repeat split; done. Qed.

Lemma protected_add_leaked s n : protected s -> protected (add_leaked n s).
Proof. intros (Hv & Hblk & Hno). repeat split; done. Qed.

Lemma protected_store s a b :
  protected s -> foreign (Some a) -> protected (set_heap (<[a := b]> (heap s)) s).
Proof.
  intros Hs Hf. apply protected_set_heap; [done|].
  intros a' Ha'. rewrite lookup_insert_ne.
  - destruct Hs as (_ & Hblk & _). by apply Hblk.
  - intros ->. by apply (Hf a').
Qed.

Lemma preserves_Allocate n : preserves (Allocate n) foreign.
Proof.
  intros s Hs. unfold Allocate. destruct (n =? 0).
  - split; [done | apply foreign_None].
  - assert (Hf : foreign (Some (fresh (dom (heap s))))).
    { intros a [= <-] Ha. destruct Hs as (_ & Hblk & _).
      specialize (Hblk _ Ha). rewrite fresh_block in Hblk. done. }
    split; [by apply protected_store | exact Hf].
Qed.

Lemma preserves_RawMemory_ctor n :
  preserves (RawMemory_ctor n) (fun m => foreign (buffer_ m)).
Proof.
  unfold RawMemory_ctor. eapply preserves_bind; [apply preserves_Allocate|].
  intros p Hp. by apply preserves_ret.
Qed.

Lemma preserves_Deallocate p :
  foreign p -> preserves (Deallocate p) (fun _ => True).
Proof.
  intros Hf s Hs. unfold Deallocate. destruct p as [a|]; [|done].
  destruct (heap s !! a) as [b|]; [|done]. split; [|done].
  apply protected_add_leaked, protected_set_heap; [done|].
  intros a' Ha'. rewrite lookup_delete_ne.
  - destruct Hs as (_ & Hblk & _). by apply Hblk.
  - intros ->. by apply (Hf a').
Qed.

Lemma preserves_RawMemory_dtor m :
  foreign (buffer_ m) -> preserves (RawMemory_dtor m) (fun _ => True).
Proof. apply preserves_Deallocate. Qed.

Lemma preserves_RawMemory_index m i :
  preserves (RawMemory_index m i) (fun r => it_base r = buffer_ m).
Proof.
  unfold RawMemory_index. eapply preserves_bind; [apply preserves_assert|].
  intros _ _. by apply preserves_ret.
Qed.

Lemma preserves_with_cell {A} p i (k : addr -> list (cell T) -> cell T -> M A) Q :
  (forall a b c, p = Some a -> preserves (k a b c) Q) ->
  preserves (with_cell p i k) Q.
Proof.
  intros Hk s Hs. unfold with_cell. destruct p as [a|]; [|done].
  destruct (heap s !! a) as [b|]; [|done].
  destruct (b !! i) as [c|]; [|done]. by apply Hk.
Qed.

Lemma preserves_put_cell a b i c :
  foreign (Some a) -> preserves (put_cell a b i c) (fun _ => True).
Proof. intros Hf s Hs. simpl. split; [by apply protected_store | done]. Qed.

Lemma preserves_read_cell p i : preserves (read_cell p i) (fun _ => True).
Proof.
  apply preserves_with_cell. intros a b [|w] _;
    [apply preserves_fault | by apply preserves_ret].
Qed.

Lemma preserves_construct_at p i x :
  foreign p -> preserves (construct_at p i x) (fun _ => True).
Proof.
  intros Hf. apply preserves_with_cell. intros a b c ->.
  eapply preserves_bind; [by apply preserves_put_cell|]. intros _ _.
  destruct c; [by apply preserves_ret|].
  intros s Hs. split; [by apply protected_add_leaked | done].
Qed.

Lemma preserves_destroy_at p i :
  foreign p -> preserves (destroy_at p i) (fun _ => True).
Proof.
  intros Hf. apply preserves_with_cell. intros a b [|w] ->;
    [apply preserves_fault | by apply preserves_put_cell].
Qed.

Lemma preserves_assign_cell p i x :
  foreign p -> preserves (assign_cell p i x) (fun _ => True).
Proof.
  intros Hf. apply preserves_with_cell. intros a b [|w] ->;
    [apply preserves_fault | by apply preserves_put_cell].
Qed.

Lemma preserves_construct_new p i ctor :
  foreign p -> preserves (construct_new p i ctor) (fun _ => True).
Proof.
  intros Hf. destruct ctor; [by apply preserves_construct_at | apply preserves_throw].
Qed.

Lemma preserves_copy_assign_cell p i q j :
  foreign q -> preserves (copy_assign_cell p i q j) (fun _ => True).
Proof.
  intros Hf. eapply preserves_bind; [apply preserves_read_cell|].
  intros x _. apply preserves_if; [apply preserves_throw | by apply preserves_assign_cell].
Qed.

Lemma preserves_move_assign_cell p i q j :
  foreign p -> foreign q -> preserves (move_assign_cell p i q j) (fun _ => True).
Proof.
  intros Hp Hq. eapply preserves_bind; [apply preserves_read_cell|].
  intros x _. apply preserves_if; [apply preserves_throw|].
  eapply preserves_bind; [by apply preserves_assign_cell|]. intros _ _.
  by apply preserves_assign_cell.
Qed.

(** *** Algorithms *)

Lemma preserves_destroy_n p n : forall first,
  foreign p -> preserves (destroy_n p first n) (fun _ => True).
Proof.
  induction n as [|n IH]; intros first Hf; simpl.
  - by apply preserves_ret.
  - eapply preserves_bind; [by apply preserves_destroy_at|].
    intros _ _. by apply IH.
Qed.

Lemma preserves_uninitialized_copy_loop p sfirst q dfirst n : forall k,
  foreign q ->
  preserves (uninitialized_copy_loop p sfirst q dfirst k n) (fun _ => True).
Proof.
  induction n as [|n IH]; intros k Hf; simpl.
  - by apply preserves_ret.
  - eapply preserves_bind; [apply preserves_read_cell|]. intros x _.
    apply preserves_if.
    + eapply preserves_bind; [by apply preserves_destroy_n|].
      intros _ _. apply preserves_throw.
    + eapply preserves_bind; [by apply preserves_construct_at|].
      intros _ _. by apply IH.
Qed.

Lemma preserves_uninitialized_move_loop p sfirst q dfirst n : forall k,
  foreign p -> foreign q ->
  preserves (uninitialized_move_loop p sfirst q dfirst k n) (fun _ => True).
Proof.
  induction n as [|n IH]; intros k Hp Hq; simpl.
  - by apply preserves_ret.
  - eapply preserves_bind; [apply preserves_read_cell|]. intros x _.
    apply preserves_if.
    + eapply preserves_bind; [by apply preserves_destroy_n|].
      intros _ _. apply preserves_throw.
    + eapply preserves_bind; [by apply preserves_construct_at|]. intros _ _.
      eapply preserves_bind; [by apply preserves_assign_cell|]. intros _ _.
      by apply IH.
Qed.

Lemma preserves_uninitialized_value_construct_loop q dfirst n : forall k,
  foreign q ->
  preserves (uninitialized_value_construct_loop q dfirst k n) (fun _ => True).
Proof.
  induction n as [|n IH]; intros k Hq; simpl.
  - by apply preserves_ret.
  - destruct value_init.
    + eapply preserves_bind; [by apply preserves_construct_at|]. intros _ _.
      by apply IH.
    + eapply preserves_bind; [by apply preserves_destroy_n|].
      intros _ _. apply preserves_throw.
Qed.

Lemma preserves_copy_loop p q n : forall first dfirst,
  foreign q -> preserves (copy_loop p first q dfirst n) (fun _ => True).
Proof.
  induction n as [|n IH]; intros first dfirst Hq; simpl.
  - by apply preserves_ret.
  - eapply preserves_bind; [by apply preserves_copy_assign_cell|].
    intros _ _. by apply IH.
Qed.

Lemma preserves_move_loop p q n : forall first dfirst,
  foreign p -> foreign q ->
  preserves (move_loop p first q dfirst n) (fun _ => True).
Proof.
  induction n as [|n IH]; intros first dfirst Hp Hq; simpl.
  - by apply preserves_ret.
  - eapply preserves_bind; [by apply preserves_move_assign_cell|].
    intros _ _. by apply IH.
Qed.

Lemma preserves_move_backward_loop p first q n : forall dlast,
  foreign p -> foreign q ->
  preserves (move_backward_loop p first q dlast n) (fun _ => True).
Proof.
  induction n as [|n IH]; intros dlast Hp Hq; simpl.
  - by apply preserves_ret.
  - destruct dlast as [|dlast]; [apply preserves_fault|].
    eapply preserves_bind; [by apply preserves_move_assign_cell|].
    intros _ _. by apply IH.
Qed.

Lemma preserves_transfer_n p sfirst n q dfirst :
  foreign p -> foreign q ->
  preserves (transfer_n p sfirst n q dfirst) (fun _ => True).
Proof.
  intros Hp Hq. unfold transfer_n. apply preserves_if.
  - by apply preserves_uninitialized_move_loop.
  - by apply preserves_uninitialized_copy_loop.
Qed.

Lemma preserves_offset_before n : preserves (offset_before n) (fun _ => True).
Proof. destruct n; [apply preserves_fault | by apply preserves_ret]. Qed.

Lemma preserves_iter_diff (pos first : iterator) :
  preserves (iter_diff pos first) (fun _ => True).
Proof.
  unfold iter_diff. repeat apply preserves_if;
    first [by apply preserves_ret | apply preserves_fault].
Qed.

(** *** Operations on another vector *)

Ltac frame_get V HV :=
  eapply preserves_bind; [apply preserves_get_vec|];
  let H := fresh in
  intros V [H HV]; clear H; try (specialize (HV ltac:(assumption))).

Ltac frame_prim :=
  first
    [ apply preserves_assert
    | apply preserves_offset_before
    | apply preserves_iter_diff
    | apply preserves_read_cell
    | apply preserves_RawMemory_ctor
    | apply preserves_RawMemory_index
    | apply preserves_new_local
    | apply preserves_throw
    | apply preserves_fault
    | apply preserves_ret; done
    | apply preserves_set_vec; done
    | apply preserves_del_vec; done
    | apply preserves_RawMemory_dtor; done
    | apply preserves_Deallocate; done
    | apply preserves_construct_new; done
    | apply preserves_construct_at; done
    | apply preserves_assign_cell; done
    | apply preserves_destroy_n; done
    | apply preserves_transfer_n; done
    | apply preserves_copy_loop; done
    | apply preserves_move_loop; done
    | apply preserves_move_backward_loop; done
    | apply preserves_uninitialized_copy_loop; done
    | apply preserves_uninitialized_move_loop; done
    | apply preserves_uninitialized_value_construct_loop; done ].

Ltac frame_seq := eapply preserves_bind; [frame_prim | intros ? ?].

Lemma preserves_Reserve this n :
  this <> v -> preserves (Reserve this n) (fun _ => True).
Proof.
  intros Hne. unfold Reserve. frame_get V HV.
  apply preserves_if; [frame_prim|].
  eapply preserves_bind; [apply preserves_RawMemory_ctor|]. intros nd Hnd.
  eapply preserves_bind;
    [apply preserves_on_unwind; frame_prim|]. intros _ _.
  frame_seq. unfold RawMemory_Swap. cbv zeta.
  frame_seq. frame_prim.
Qed.

Lemma preserves_Resize this n :
  this <> v -> preserves (Resize this n) (fun _ => True).
Proof.
  intros Hne. unfold Resize. frame_get V HV.
  eapply preserves_bind with (Q := fun _ => True).
  - repeat apply preserves_if; try frame_prim.
    eapply preserves_bind; [by apply preserves_Reserve|]. intros _ _.
    frame_get V' HV'. unfold uninitialized_value_construct_n. frame_prim.
  - intros _ _. frame_get V' HV'. frame_prim.
Qed.

Lemma preserves_PopBack this :
  this <> v -> preserves (PopBack this) (fun _ => True).
Proof.
  intros Hne. unfold PopBack. frame_get V HV.
  frame_seq. frame_seq. frame_prim.
Qed.

Lemma preserves_EmplaceBack this ctor :
  this <> v -> preserves (EmplaceBack this ctor) (fun _ => True).
Proof.
  intros Hne. unfold EmplaceBack. frame_get V HV.
  apply preserves_if.
  - frame_seq. cbv zeta. frame_seq.
    eapply preserves_weaken; [apply preserves_RawMemory_index | done].
  - eapply preserves_bind; [apply preserves_RawMemory_ctor|]. intros nd Hnd.
    eapply preserves_bind with (Q := fun _ => True).
    { apply preserves_on_unwind; [|frame_prim].
      frame_seq. apply preserves_try_catch; [frame_prim|].
      frame_seq. frame_prim. }
    intros _ _. frame_seq. unfold RawMemory_Swap. cbv zeta.
    frame_seq.
    eapply preserves_bind; [apply preserves_RawMemory_index|]. intros ref _.
    frame_seq. frame_prim.
Qed.

Lemma preserves_PushBack this x rvalue :
  this <> v -> preserves (PushBack this x rvalue) (fun _ => True).
Proof.
  intros Hne. unfold PushBack.
  eapply preserves_bind; [by apply preserves_EmplaceBack|].
  intros _ _. frame_prim.
Qed.

Lemma preserves_Emplace this pos ctor :
  this <> v -> preserves (Emplace this pos ctor) (fun _ => True).
Proof.
  intros Hne. unfold Emplace. frame_get V HV.
  frame_seq. apply preserves_if.
  - eapply preserves_bind with (Q := fun _ => True).
    + apply preserves_if; [|frame_prim].
      destruct ctor as [x|]; [|frame_prim].
      frame_seq. unfold uninitialized_move_n, std_move_backward.
      frame_seq. frame_seq.
      eapply preserves_bind; [apply preserves_RawMemory_index|].
      intros ref Href. apply preserves_if; [frame_prim|].
      apply preserves_assign_cell. rewrite Href. exact HV.
    + intros _ _. frame_seq. frame_prim.
  - eapply preserves_bind; [apply preserves_RawMemory_ctor|]. intros nd Hnd.
    eapply preserves_bind with (Q := fun _ => True).
    { apply preserves_on_unwind; [|frame_prim].
      frame_seq. apply preserves_try_catch.
      - frame_seq. frame_prim.
      - frame_seq. frame_prim. }
    intros _ _. frame_seq. unfold RawMemory_Swap. cbv zeta.
    frame_seq. frame_seq. frame_prim.
Qed.

Lemma preserves_Insert this pos x rvalue :
  this <> v -> preserves (Insert this pos x rvalue) (fun _ => True).
Proof. intros Hne. by apply preserves_Emplace. Qed.

Lemma preserves_Erase this pos :
  this <> v -> preserves (Erase this pos) (fun _ => True).
Proof.
  intros Hne. unfold Erase. frame_get V HV.
  frame_seq. frame_seq.
  eapply preserves_bind with (Q := fun _ => True).
  - apply preserves_if; [|frame_prim]. unfold std_move. frame_prim.
  - intros _ _. frame_seq. frame_seq. frame_prim.
Qed.

Lemma preserves_Vector_store this i x :
  this <> v -> preserves (Vector_store this i x) (fun _ => True).
Proof.
  intros Hne. unfold Vector_store, Vector_index.
  eapply preserves_bind with (Q := fun r => foreign (it_base r)).
  - frame_get V HV. frame_seq.
    eapply preserves_weaken; [apply preserves_RawMemory_index|].
    intros ref ->. exact HV.
  - intros ref Href. apply preserves_if; frame_prim.
Qed.

Lemma preserves_Vector_copy_ctor this other :
  this <> v -> preserves (Vector_copy_ctor this other) (fun _ => True).
Proof.
  intros Hne. unfold Vector_copy_ctor.
  eapply preserves_bind; [apply preserves_get_vec|]. intros O _.
  eapply preserves_bind; [apply preserves_RawMemory_ctor|]. intros d Hd.
  eapply preserves_bind with (Q := fun _ => True).
  - apply preserves_on_unwind; [|frame_prim].
    unfold uninitialized_copy_n. frame_prim.
  - intros _ _. frame_prim.
Qed.

Lemma preserves_Swap this other :
  this <> v -> other <> v -> preserves (Swap this other) (fun _ => True).
Proof.
  intros Hne Hne'. unfold Swap. frame_get V HV. frame_get W HW.
  apply preserves_if; [|frame_prim].
  unfold RawMemory_Swap. cbv zeta. frame_seq. frame_prim.
Qed.

Lemma preserves_Vector_move_assign this rhs :
  this <> v -> rhs <> v ->
  preserves (Vector_move_assign this rhs) (fun _ => True).
Proof.
  intros Hne Hne'. unfold Vector_move_assign.
  apply preserves_if; [|frame_prim].
  frame_get V HV. frame_get W HW.
  unfold RawMemory_move_assign, RawMemory_Swap. cbv zeta.
  frame_seq. frame_prim.
Qed.

Lemma preserves_Vector_dtor this :
  this <> v -> preserves (Vector_dtor this) (fun _ => True).
Proof.
  intros Hne. unfold Vector_dtor. frame_get V HV.
  eapply preserves_bind with (Q := fun _ => True).
  - apply preserves_if; frame_prim.
  - intros _ _. frame_seq. frame_prim.
Qed.

Lemma preserves_Vector_copy_assign this rhs :
  this <> v -> preserves (Vector_copy_assign this rhs) (fun _ => True).
Proof.
  intros Hne. unfold Vector_copy_assign.
  apply preserves_if; [|frame_prim].
  frame_get V HV.
  eapply preserves_bind; [apply preserves_get_vec|]. intros R _.
  apply preserves_if.
  - eapply preserves_bind; [apply preserves_new_local|]. intros tmp Htmp.
    eapply preserves_bind; [by apply preserves_Vector_copy_ctor|]. intros _ _.
    eapply preserves_bind; [by apply preserves_Swap|]. intros _ _.
    by apply preserves_Vector_dtor.
  - eapply preserves_bind with (Q := fun _ => True).
    + unfold std_copy, uninitialized_copy_n.
      apply preserves_if.
      * frame_seq. frame_prim.
      * frame_seq. apply preserves_if; frame_prim.
    + intros _ _. frame_prim.
Qed.

End Frame.

(** * The operations on a vector that owns its elements *)

Section Appending.
Context {T : Type} `{ET : Element T}.

Implicit Types (s : state T) (a : addr) (v x : T) (vs xs elems : list T).

Lemma grown_ge size cap : cap <= grown size cap.
Proof. unfold grown. destruct (size <? cap); lia. Qed.

(** The capacity changes exactly in the calls that find no spare capacity,
    so counting the changes counts the reallocations. *)
Lemma grown_changes size cap :
  size <= cap -> (grown size cap <> cap <-> cap <= size).
Proof. unfold grown. destruct (Nat.ltb_spec size cap); lia. Qed.

Lemma grown_gt size cap : size < grown size cap.
Proof. unfold grown. destruct (Nat.ltb_spec size cap); lia. Qed.

Lemma owns_relocated s this p elems' cap' :
  objs s !! this <> None ->
  length elems' <= cap' -> cap' <> 0 -> representable cap' ->
  owns (relocated s this p elems' cap') this elems' cap'.
Proof.
  intros _ Hle Hc Hrep. unfold owns, relocated. simpl.
  rewrite lookup_insert_eq. simpl. repeat split; try done.
  apply lookup_insert_eq.
Qed.

Lemma deref_cells s a elems cap i x :
  heap s !! a = Some (cells elems cap) -> elems !! i = Some x ->
  deref s (mkIter (Some a) i) = Some x.
Proof.
  intros Ha Hi. unfold deref. simpl. rewrite Ha.
  unfold cells. rewrite lookup_app_l
    by (rewrite length_fmap; by eapply lookup_lt_Some).
  rewrite list_lookup_fmap, Hi. reflexivity.
Qed.

(** [EmplaceBack] of a value whose construction succeeds: the value is the
    new last element, every other element keeps its place, the capacity is
    [grown], and the reference returned designates the new element. *)
Lemma EmplaceBack_owns s this elems cap x :
  owns s this elems cap ->
  representable (2 * (length elems + 1)) ->
  (cap <= length elems -> transfer_ok elems) ->
  exists r s',
    EmplaceBack this (Some x) s = Ok r s' /\
    owns s' this (elems ++ [x]) (grown (length elems) cap) /\
    deref s' r = Some x /\
    leaked s' = leaked s.
Proof.
  intros Hown Hrep Hok.
  destruct (owns_inv _ _ _ _ Hown) as (p & Hobj & Hle & Hrc & Hp).
  unfold grown. destruct (Nat.ltb_spec (length elems) cap) as [Hlt|Hge].
  - destruct p as [a|]; [|lia]. destruct Hp as [Hc Ha].
    eexists _, _. split; [by apply EmplaceBack_spare|].
    split; [|split; [|reflexivity]].
    + eapply owns_intro.
      * simpl. apply lookup_insert_eq.
      * rewrite length_app. simpl. lia.
      * exact Hrc.
      * split; [done|]. simpl. apply lookup_insert_eq.
    + eapply deref_cells; [simpl; apply lookup_insert_eq|].
      by apply list_lookup_middle.
  - assert (cap = length elems) as Hcap by lia.
    eexists _, _. split.
    { apply EmplaceBack_full;
        [exact Hobj | exact Hp | exact Hcap | exact Hrep | apply Hok; lia]. }
    assert (Hlen : length (elems ++ [x]) = length elems + 1)
      by (rewrite length_app; reflexivity).
    split; [|split; [|reflexivity]].
    + apply owns_relocated.
      * by rewrite Hobj.
      * lia.
      * lia.
      * eapply representable_le; [|exact Hrep]. lia.
    + eapply deref_cells; [simpl; apply lookup_insert_eq|].
      by apply list_lookup_middle.
Qed.

Lemma owns_Capacity s this elems cap :
  owns s this elems cap ->
  exists V, objs s !! this = Some V /\ Capacity V = cap /\ size_ V = length elems.
Proof.
  intros Hown. destruct (owns_inv _ _ _ _ Hown) as (p & Hobj & _).
  eexists. split; [exact Hobj|]. done.
Qed.

Lemma append_run_owns xs : forall s this elems cap,
  owns s this elems cap ->
  representable (2 * (length elems + length xs)) ->
  transfer_ok (elems ++ xs) ->
  exists s',
    append_run this xs s = Ok (capacities (length elems) cap (length xs)) s' /\
    owns s' this (elems ++ xs)
         (final_capacity (length elems) cap (length xs)) /\
    leaked s' = leaked s.
Proof.
  induction xs as [|x xs IH]; intros s this elems cap Hown Hrep Hok.
  - exists s. simpl. rewrite app_nil_r. done.
  - simpl length in *.
    apply Forall_app in Hok as [Hoke Hokx].
    inversion Hokx as [|? ? Hx Hokxs]; subst.
    destruct (EmplaceBack_owns s this elems cap x Hown) as (r & s1 & He & Hown1 & _ & Hl1).
    { eapply representable_le; [|exact Hrep]. lia. }
    { intros _. exact Hoke. }
    destruct (IH s1 this (elems ++ [x]) (grown (length elems) cap) Hown1)
      as (s2 & Hrun & Hown2 & Hl2).
    { rewrite length_app. simpl.
      eapply representable_le; [|exact Hrep]. lia. }
    { rewrite <- app_assoc. simpl.
      apply Forall_app. split; [exact Hoke | by constructor]. }
    destruct (owns_Capacity _ _ _ _ Hown1) as (V1 & HV1 & Hc1 & _).
    exists s2. split; [|split].
    + simpl. rewrite (bind_Ok _ _ _ _ _ He).
      rewrite (bind_Ok _ _ _ _ _ (get_vec_Ok _ _ _ HV1)).
      rewrite length_app in Hrun. simpl in Hrun.
      rewrite (bind_Ok _ _ _ _ _ Hrun). rewrite Hc1. reflexivity.
    + rewrite <- app_assoc in Hown2. simpl in Hown2.
      rewrite length_app in Hown2. simpl in Hown2.
      exact Hown2.
    + congruence.
Qed.

Lemma bind_assoc {A B C} (m : @M T A) (f : A -> @M T B) (g : B -> @M T C) s :
  bind (bind m f) g s = bind m (fun r => bind (f r) g) s.
Proof. unfold bind. destruct (m s); reflexivity. Qed.

(** What [append_run] records is the second component of what
    [append_trace] records. *)
Lemma append_run_trace xs : forall this s,
  append_run this xs s = (obs ← append_trace this xs; ret (obs.*2)) s.
Proof.
  induction xs as [|x xs IH]; intros this s; [reflexivity|].
  simpl. rewrite bind_assoc.
  apply bind_ext; [reflexivity|]. intros _ s1. rewrite bind_assoc.
  apply bind_ext; [reflexivity|]. intros V s2. rewrite bind_assoc.
  etransitivity; [apply bind_ext; [apply IH | reflexivity]|].
  rewrite bind_assoc.
  apply bind_ext; [reflexivity|]. intros obs s3. reflexivity.
Qed.

(** Where the capacity changes the block changes, and conversely. *)
Lemma relocations_follow obs : forall (p : option addr) c,
  block_follows_capacity p c obs ->
  relocations p (obs.*1) = reallocations c (obs.*2).
Proof.
  induction obs as [|[p' c'] obs IH]; intros p c Hobs; [reflexivity|].
  destruct Hobs as [Hiff Hrest]. rewrite !fmap_cons.
  cbn [relocations reallocations fst snd]. rewrite (IH _ _ Hrest). f_equal.
  destruct (Nat.eqb_spec c' c) as [Hc|Hc].
  - rewrite bool_decide_eq_true_2; [reflexivity | by apply Hiff].
  - rewrite bool_decide_eq_false_2; [reflexivity|]. intros Hp. by apply Hc, Hiff.
Qed.

(** One append, with the heap it leaves: with spare capacity the vector
    stays in its block and no other block is touched; without, it is in a
    block that was not allocated before, and its old block is given back. *)
Lemma EmplaceBack_block s this p elems cap x :
  objs s !! this = Some (mkVector (mkRawMemory p cap) (length elems)) ->
  owns s this elems cap ->
  representable (2 * (length elems + 1)) ->
  (cap <= length elems -> transfer_ok elems) ->
  exists r s1 p1,
    EmplaceBack this (Some x) s = Ok r s1 /\
    objs s1 !! this
    = Some (mkVector (mkRawMemory p1 (grown (length elems) cap)) (length elems + 1)) /\
    owns s1 this (elems ++ [x]) (grown (length elems) cap) /\
    leaked s1 = leaked s /\
    (length elems < cap ->
       p1 = p /\
       heap s1 = housed (heap s) p (cells (elems ++ [x]) cap)) /\
    (cap <= length elems ->
       exists a, p1 = Some a /\ p1 <> p /\ heap s !! a = None /\
                 heap s1 = <[a := cells (elems ++ [x]) (grown (length elems) cap)]>
                             (released p (heap s))).
Proof.
  intros Hobj Hown Hrep Hok.
  destruct (owns_inv _ _ _ _ Hown) as (p0 & Hobj0 & Hle & Hrc & Hp).
  rewrite Hobj in Hobj0. injection Hobj0 as <-.
  assert (Hlen : length (elems ++ [x]) = length elems + 1)
    by (rewrite length_app; reflexivity).
  unfold grown. destruct (Nat.ltb_spec (length elems) cap) as [Hlt|Hge].
  - destruct p as [a|]; [|lia]. destruct Hp as [Hc Ha].
    eexists _, _, (Some a). split; [by apply EmplaceBack_spare|].
    split; [simpl; rewrite lookup_insert_eq, Hlen; reflexivity|].
    split; [|split; [reflexivity|split; [done | lia]]].
    eapply owns_intro.
    + simpl. apply lookup_insert_eq.
    + lia.
    + exact Hrc.
    + split; [done|]. simpl. apply lookup_insert_eq.
  - assert (cap = length elems) as Hcap by lia.
    eexists _, _, (Some (fresh (dom (heap s)))). split.
    { apply EmplaceBack_full;
        [exact Hobj | exact Hp | exact Hcap | exact Hrep | apply Hok; lia]. }
    split; [simpl; rewrite lookup_insert_eq, Hlen; reflexivity|].
    split; [|split; [reflexivity|split; [lia|]]].
    + apply owns_relocated.
      * by rewrite Hobj.
      * lia.
      * lia.
      * eapply representable_le; [|exact Hrep]. lia.
    + intros _. exists (fresh (dom (heap s))).
      split; [reflexivity|]. split; [|split; [apply fresh_block | reflexivity]].
      destruct p as [a|]; [|done]. destruct Hp as [_ Ha].
      intros [= Heq]. rewrite <- Heq in Ha. by rewrite fresh_block in Ha.
Qed.

Lemma append_trace_owns xs : forall s this p elems cap,
  objs s !! this = Some (mkVector (mkRawMemory p cap) (length elems)) ->
  owns s this elems cap ->
  representable (2 * (length elems + length xs)) ->
  transfer_ok (elems ++ xs) ->
  exists obs s',
    append_trace this xs s = Ok obs s' /\
    obs.*2 = capacities (length elems) cap (length xs) /\
    block_follows_capacity p cap obs.
Proof.
  induction xs as [|x xs IH]; intros s this p elems cap Hobj Hown Hrep Hok.
  - exists [], s. done.
  - simpl length in *.
    apply Forall_app in Hok as [Hoke Hokx].
    inversion Hokx as [|? ? Hx Hokxs]; subst.
    destruct (EmplaceBack_block s this p elems cap x Hobj Hown)
      as (r & s1 & p1 & He & Hobj1 & Hown1 & _ & Hspare & Hfull).
    { eapply representable_le; [|exact Hrep]. lia. }
    { intros _. exact Hoke. }
    assert (Hlen : length (elems ++ [x]) = length elems + 1)
      by (rewrite length_app; reflexivity).
    rewrite <- Hlen in Hobj1.
    destruct (IH s1 this p1 (elems ++ [x]) (grown (length elems) cap) Hobj1 Hown1)
      as (obs & s2 & Hrun & Hcaps & Hfollow).
    { rewrite Hlen. eapply representable_le; [|exact Hrep]. lia. }
    { rewrite <- app_assoc. simpl.
      apply Forall_app. split; [exact Hoke | by constructor]. }
    exists ((p1, grown (length elems) cap) :: obs), s2. split; [|split].
    + simpl. rewrite (bind_Ok _ _ _ _ _ He).
      rewrite (bind_Ok _ _ _ _ _ (get_vec_Ok _ _ _ Hobj1)).
      rewrite (bind_Ok _ _ _ _ _ Hrun). reflexivity.
    + rewrite fmap_cons. cbn [snd capacities]. rewrite Hcaps, Hlen. reflexivity.
    + simpl. split; [|exact Hfollow].
      destruct (Nat.lt_ge_cases (length elems) cap) as [Hlt|Hge].
      * destruct (Hspare Hlt) as [-> _].
        unfold grown. destruct (Nat.ltb_spec (length elems) cap); [done | lia].
      * destruct (Hfull Hge) as (a & _ & Hne & _).
        destruct (owns_inv _ _ _ _ Hown) as (_ & _ & Hle & _).
        pose proof (proj2 (grown_changes (length elems) cap Hle) Hge) as Hg.
        split; intros Heq; [by destruct Hne | by destruct Hg].
Qed.

End Appending.

(** ** The growth policy, as arithmetic *)

Lemma capacities_length n : forall size cap, length (capacities size cap n) = n.
Proof. induction n as [|n IH]; intros size cap; simpl; [done | by rewrite IH]. Qed.

Lemma capacities_nondecreasing n : forall size cap,
  nondecreasing_from cap (capacities size cap n).
Proof.
  induction n as [|n IH]; intros size cap; simpl; [done|].
  split; [apply grown_ge | apply IH].
Qed.

(** From a block of at least one cell, the [k]-th reallocation needs the
    size to have reached [cap * 2 ^ (k - 1)]. *)
Lemma reallocations_doubling n : forall size cap k,
  size <= cap -> 1 <= cap ->
  reallocations cap (capacities size cap n) = S k ->
  cap * 2 ^ k + 1 <= n + size.
Proof.
  induction n as [|n IH]; intros size cap k Hle Hc Hk; simpl in Hk; [done|].
  unfold grown in Hk at 1 2.
  destruct (Nat.ltb_spec size cap) as [Hlt|Hge].
  - rewrite Nat.eqb_refl in Hk. simpl in Hk.
    unfold grown in Hk. destruct (Nat.ltb_spec size cap); [|lia].
    specialize (IH (size + 1) cap k ltac:(lia) Hc Hk). lia.
  - assert (size = cap) as -> by lia.
    replace (Nat.max (cap * 2) (cap + 1)) with (cap * 2) in Hk by lia.
    destruct (Nat.eqb_spec (cap * 2) cap) as [|_]; [lia|].
    simpl in Hk. injection Hk as Hk.
    unfold grown in Hk. destruct (Nat.ltb_spec cap cap); [lia|].
    replace (Nat.max (cap * 2) (cap + 1)) with (cap * 2) in Hk by lia.
    destruct k as [|k].
    + simpl. lia.
    + specialize (IH (cap + 1) (cap * 2) k ltac:(lia) ltac:(lia) Hk).
      rewrite Nat.pow_succ_r'. lia.
Qed.

Lemma pow2_le_log2 k n : 2 ^ k <= n -> k <= Nat.log2 n.
Proof.
  intros Hle. rewrite <- (Nat.log2_pow2 k) by lia.
  by apply Nat.log2_le_mono.
Qed.

Lemma reallocations_log_from_block n size cap :
  size <= cap -> 1 <= cap ->
  reallocations cap (capacities size cap n) <= Nat.log2 n + 1.
Proof.
  intros Hle Hc.
  destruct (reallocations cap (capacities size cap n)) as [|k] eqn:Hk; [lia|].
  pose proof (reallocations_doubling n size cap k Hle Hc Hk) as Hd.
  assert (2 ^ k <= n).
  { assert (1 <= 2 ^ k) by (apply Nat.neq_0_lt_0, Nat.pow_nonzero; lia).
    nia. }
  pose proof (pow2_le_log2 k n). lia.
Qed.

(** The number of reallocations over [n] appends is logarithmic in [n]. *)
Lemma reallocations_log n size cap :
  size <= cap ->
  reallocations cap (capacities size cap n) <= Nat.log2 n + 2.
Proof.
  intros Hle. destruct (decide (1 <= cap)) as [Hc|Hc].
  - pose proof (reallocations_log_from_block n size cap Hle Hc). lia.
  - assert (cap = 0) as -> by lia. assert (size = 0) as -> by lia.
    destruct n as [|n]; [simpl; lia|].
    simpl. unfold grown at 1 2. simpl.
    pose proof (reallocations_log_from_block n 1 1 ltac:(lia) ltac:(lia)) as Hb.
    change (grown 0 0) with 1.
    pose proof (Nat.log2_le_mono n (S n) ltac:(lia)). lia.
Qed.

(** * The behaviour of the vector *)

Section Behaviour.
Context {T : Type} `{ET : Element T}.

Implicit Types (s : state T) (a : addr) (v x : T) (vs xs elems : list T).

Lemma run_call_EmplaceBack this c s :
  run_call this c s = (EmplaceBack this (produced c) ;; ret tt) s.
Proof. destruct c; reflexivity. Qed.

Lemma capacity_after_relocated {A} (r : A) s this p elems' cap' :
  capacity_after this (Ok r (relocated s this p elems' cap')) = Some cap'.
Proof.
  unfold capacity_after, relocated. simpl. rewrite lookup_insert_eq. reflexivity.
Qed.

(** C5. Whenever [PushBack], [EmplaceBack] or [Emplace] finds no spare
    capacity, the block it allocates has room for exactly
    [max(2 * capacity, size + 1)] objects.  Consequently the capacities a
    caller observes over a run of appends never decrease, and the number of
    reallocations over [n] appends is at most [log2 n + 2]: along the run
    the vector is in another block after a call exactly when its capacity
    has changed in that call, an append that finds spare capacity stays in
    its block and touches no other, and an append that finds none ends in a
    block that was not allocated before, its old block given back. *)
Theorem growth_policy s this elems cap xs :
  owns s this elems cap ->
  representable (2 * (length elems + length xs + 1)) ->
  transfer_ok (elems ++ xs) ->
  (cap = length elems ->
   forall x V i rvalue,
     objs s !! this = Some V -> i <= length elems ->
     capacity_after this (EmplaceBack this (Some x) s)
     = Some (Nat.max (2 * cap) (length elems + 1)) /\
     (forwarded x rvalue = Some x ->
      capacity_after this (PushBack this x rvalue s)
      = Some (Nat.max (2 * cap) (length elems + 1))) /\
     capacity_after this (Emplace this (std_next (begin V) i) (Some x) s)
     = Some (Nat.max (2 * cap) (length elems + 1))) /\
  (exists caps s',
    append_run this xs s = Ok caps s' /\
    length caps = length xs /\
    nondecreasing_from cap caps /\
    reallocations cap caps <= Nat.log2 (length xs) + 2 /\
    exists obs,
      append_trace this xs s = Ok obs s' /\
      obs.*2 = caps /\
      forall V, objs s !! this = Some V ->
        block_follows_capacity (GetAddress (data_ V)) cap obs /\
        relocations (GetAddress (data_ V)) (obs.*1)
        <= Nat.log2 (length xs) + 2) /\
  forall x V,
    objs s !! this = Some V ->
    exists r s1 V1,
      EmplaceBack this (Some x) s = Ok r s1 /\
      objs s1 !! this = Some V1 /\
      (length elems < cap ->
       data_ V1 = data_ V /\
       heap s1 = housed (heap s) (GetAddress (data_ V)) (cells (elems ++ [x]) cap)) /\
      (cap = length elems ->
       exists a,
         GetAddress (data_ V1) = Some a /\
         heap s !! a = None /\
         heap s1
         = <[a := cells (elems ++ [x]) (Nat.max (2 * cap) (length elems + 1))]>
             (released (GetAddress (data_ V)) (heap s))).
Proof.
  intros Hown Hrep Hok.
  destruct (owns_inv _ _ _ _ Hown) as (p & Hobj & Hle & Hrc & Hp).
  assert (Hrep1 : representable (2 * (length elems + 1)))
    by (eapply representable_le; [|exact Hrep]; lia).
  pose proof Hok as Hokall.
  apply Forall_app in Hok as [Hoke _].
  split; [|split].
  - intros Hcap x V i rvalue HV Hi.
    rewrite (Nat.mul_comm 2 cap).
    pose proof (EmplaceBack_full s this p elems cap x Hobj Hp Hcap Hrep1 Hoke) as HE.
    split; [|split].
    + rewrite HE. apply capacity_after_relocated.
    + intros Hfw. unfold PushBack. rewrite Hfw.
      rewrite (bind_Ok _ _ _ _ _ HE). apply capacity_after_relocated.
    + rewrite Hobj in HV. injection HV as <-.
      unfold std_next, begin, GetAddress. simpl.
      rewrite <- (take_drop i elems) in Hobj, Hp, Hcap, Hrep1, Hoke.
      pose proof (Emplace_full s this p (take i elems) (drop i elems) cap x
                    Hobj Hp Hcap Hrep1 Hoke) as HM.
      rewrite length_take_le in HM by exact Hi.
      rewrite HM. rewrite take_drop. apply capacity_after_relocated.
  - destruct (append_trace_owns xs s this p elems cap Hobj Hown)
      as (obs & s' & Htrace & Hcaps & Hfollow).
    { eapply representable_le; [|exact Hrep]. lia. }
    { exact Hokall. }
    exists (obs.*2), s'. split; [|split; [|split; [|split]]].
    + rewrite append_run_trace. rewrite (bind_Ok _ _ _ _ _ Htrace). reflexivity.
    + rewrite Hcaps. apply capacities_length.
    + rewrite Hcaps. apply capacities_nondecreasing.
    + rewrite Hcaps. by apply reallocations_log.
    + exists obs. split; [exact Htrace|]. split; [reflexivity|].
      intros V HV. rewrite Hobj in HV. injection HV as <-.
      unfold GetAddress. simpl. split; [exact Hfollow|].
      rewrite (relocations_follow _ _ _ Hfollow), Hcaps.
      by apply reallocations_log.
  - intros x V HV. rewrite Hobj in HV. injection HV as <-.
    destruct (EmplaceBack_block s this p elems cap x Hobj Hown Hrep1)
      as (r & s1 & p1 & He & Hobj1 & _ & _ & Hspare & Hfull).
    { intros _. exact Hoke. }
    eexists r, s1, _. split; [exact He|]. split; [exact Hobj1|].
    unfold GetAddress. simpl. split.
    + intros Hlt. destruct (Hspare Hlt) as [-> Hheap]. split; [|exact Hheap].
      unfold grown. destruct (Nat.ltb_spec (length elems) cap); [done | lia].
    + intros Hcap. destruct (Hfull ltac:(lia)) as (a & -> & _ & Hfresh & Hheap).
      exists a. split; [reflexivity|]. split; [exact Hfresh|].
      rewrite Hheap. unfold grown.
      destruct (Nat.ltb_spec (length elems) cap); [lia|].
      do 2 f_equal. lia.
Qed.

Lemma calm_transfer_ok vs : Forall calm vs -> transfer_ok vs.
Proof.
  unfold transfer_ok, transfer_throws. intros Hvs.
  eapply Forall_impl; [exact Hvs|].
  intros v (Hc & Hm & _). by destruct (_ || _).
Qed.

Lemma calm_forwarded x rvalue : calm x -> forwarded x rvalue = Some x.
Proof.
  intros (Hc & Hm & _). unfold forwarded.
  destruct rvalue; [by rewrite Hm | by rewrite Hc].
Qed.

Lemma std_next_begin_end V n :
  size_ V = n -> std_next (begin V) n = end_ V.
Proof. intros <-. reflexivity. Qed.

(** C7. [Emplace] and [Insert] at offset [i] of a vector of [n] elements,
    [0 <= i <= n], put the new element at position [i] and keep every other
    element in its relative order; the position returned designates the new
    element; at [i = n] the call is [EmplaceBack]. *)
Theorem emplace_inserts_at_offset s this V elems cap i x :
  owns s this elems cap ->
  objs s !! this = Some V ->
  i <= length elems ->
  representable (2 * (length elems + 1)) ->
  Forall calm (x :: elems) ->
  exists s' V',
    Emplace this (std_next (begin V) i) (Some x) s
    = Ok (std_next (begin V') i) s' /\
    objs s' !! this = Some V' /\
    owns s' this (take i elems ++ x :: drop i elems)
         (grown (length elems) cap) /\
    deref s' (std_next (begin V') i) = Some x /\
    (forall rvalue,
       Insert this (std_next (begin V) i) x rvalue s
       = Emplace this (std_next (begin V) i) (Some x) s) /\
    (i = length elems ->
     Emplace this (std_next (begin V) i) (Some x) s
     = EmplaceBack this (Some x) s).
Proof.
  intros Hown HV Hi Hrep Hcalm.
  inversion Hcalm as [|? ? Hx Hce]; subst.
  destruct (owns_inv _ _ _ _ Hown) as (p & Hobj & Hle & Hrc & Hp).
  rewrite Hobj in HV. injection HV as <-.
  assert (Hrep1 : representable (length elems + 1))
    by (eapply representable_le; [|exact Hrep]; lia).
  assert (Hins : length (take i elems ++ x :: drop i elems) = length elems + 1).
  { rewrite length_app, length_take_le by exact Hi. simpl.
    rewrite length_drop. lia. }
  assert (Hend : i = length elems ->
            Emplace this (std_next (begin (mkVector (mkRawMemory p cap) (length elems))) i)
                    (Some x) s
            = EmplaceBack this (Some x) s).
  { intros ->. rewrite (std_next_begin_end _ (length elems)) by reflexivity.
    apply Emplace_at_end; [exact Hobj | exact Hrep1]. }
  assert (Hinsert : forall rvalue,
            Insert this (std_next (begin (mkVector (mkRawMemory p cap) (length elems))) i)
                   x rvalue s
            = Emplace this (std_next (begin (mkVector (mkRawMemory p cap) (length elems))) i)
                      (Some x) s).
  { intros rvalue. unfold Insert. by rewrite calm_forwarded. }
  unfold grown. destruct (Nat.ltb_spec (length elems) cap) as [Hlt|Hge].
  - (* spare capacity *)
    destruct p as [a|]; [|lia]. destruct Hp as [Hc Ha].
    assert (Hres : Emplace this (mkIter (Some a) i) (Some x) s
              = Ok (mkIter (Some a) i)
                   (mkState (<[a := cells (take i elems ++ x :: drop i elems) cap]> (heap s))
                            (<[this := mkVector (mkRawMemory (Some a) cap)
                                         (length (take i elems ++ x :: drop i elems))]>
                               (objs s))
                            (leaked s))).
    { destruct (decide (i = length elems)) as [->|Hne].
      - specialize (Hend eq_refl). unfold std_next, begin in Hend.
        simpl in Hend. rewrite Hend.
        rewrite firstn_all, drop_all.
        by apply EmplaceBack_spare.
      - assert (Hdrop : drop i elems <> []).
        { intros Hnil. apply (f_equal length) in Hnil.
          rewrite length_drop in Hnil. simpl in Hnil. lia. }
        destruct (exists_last Hdrop) as (mid & l & Hml).
        assert (Hsplit : elems = take i elems ++ mid ++ [l])
          by (rewrite <- Hml; symmetry; apply take_drop).
        rewrite Hml.
        assert (Hcl : Forall calm (mid ++ [l])).
        { rewrite <- Hml. by apply Forall_drop. }
        apply Forall_app in Hcl as [Hcm Hcl].
        inversion Hcl as [|? ? (_ & Hlm & _) _]; subst.
        rewrite <- (length_take_le elems i) at 1 2 by exact Hi.
        rewrite Hsplit in Hobj, Ha, Hlt.
        apply Emplace_spare_middle; try done.
        + eapply Forall_impl; [exact Hcm|]. by intros v (_ & _ & Hv).
        + by destruct Hx as (_ & _ & Hx). }
    eexists _, (mkVector (mkRawMemory (Some a) cap)
                         (length (take i elems ++ x :: drop i elems))).
    split; [exact Hres|]. split; [|split; [|split; [|split]]].
    + simpl. apply lookup_insert_eq.
    + eapply owns_intro.
      * simpl. apply lookup_insert_eq.
      * lia.
      * exact Hrc.
      * split; [done|]. simpl. apply lookup_insert_eq.
    + eapply deref_cells; [simpl; apply lookup_insert_eq|].
      apply list_lookup_middle. by rewrite length_take_le.
    + exact Hinsert.
    + exact Hend.
  - (* the vector moves into a new block *)
    assert (cap = length elems) as Hcap by lia.
    pose proof (calm_transfer_ok _ Hce) as Hok.
    rewrite <- (take_drop i elems) in Hobj, Hp, Hcap, Hrep, Hok.
    pose proof (Emplace_full s this p (take i elems) (drop i elems) cap x
                  Hobj Hp Hcap Hrep Hok) as HM.
    rewrite length_take_le in HM by exact Hi.
    rewrite take_drop in HM, Hobj.
    eexists _, (mkVector (mkRawMemory (Some (fresh (dom (heap s))))
                                      (Nat.max (cap * 2) (length elems + 1)))
                         (length (take i elems ++ x :: drop i elems))).
    split; [exact HM|]. split; [|split; [|split; [|split]]].
    + unfold relocated. simpl. apply lookup_insert_eq.
    + apply owns_relocated.
      * by rewrite Hobj.
      * lia.
      * lia.
      * eapply representable_le; [|exact Hrep]. rewrite take_drop. lia.
    + eapply deref_cells; [simpl; apply lookup_insert_eq|].
      apply list_lookup_middle. by rewrite length_take_le.
    + exact Hinsert.
    + exact Hend.
Qed.

(** C8. [Erase] at a valid offset [i] removes exactly the element at [i]:
    the later elements move one cell to the left in their order, the
    vacated last cell is destroyed, and the size drops by one. *)
Theorem erase_removes_at_offset s this V elems cap i :
  owns s this elems cap ->
  objs s !! this = Some V ->
  i < length elems ->
  Forall (fun v => move_assign_throws v = false) (drop (S i) elems) ->
  exists s' V',
    Erase this (std_next (begin V) i) s = Ok (std_next (begin V') i) s' /\
    objs s' !! this = Some V' /\
    owns s' this (take i elems ++ drop (S i) elems) cap /\
    Size V' = length elems - 1 /\
    cell_at s' (std_next (begin V') (length elems - 1)) = Some Raw.
Proof.
  intros Hown HV Hi Hok.
  destruct (owns_inv _ _ _ _ Hown) as (p & Hobj & Hle & Hrc & Hp).
  rewrite Hobj in HV. injection HV as <-.
  destruct p as [a|]; [|lia]. destruct Hp as [Hc Ha].
  destruct (lookup_lt_is_Some_2 elems i Hi) as [y Hy].
  pose proof (take_drop_middle elems i y Hy) as Hsplit.
  assert (Hlen : length (take i elems ++ drop (S i) elems) = length elems - 1).
  { rewrite length_app, length_take_le, length_drop by lia. lia. }
  rewrite <- Hsplit in Hobj, Ha, Hle.
  pose proof (Erase_spec s this a (take i elems) y (drop (S i) elems) cap
                Hobj Ha Hle Hok) as HE.
  rewrite length_take_le in HE by lia.
  exists (mkState (<[a := cells (take i elems ++ drop (S i) elems) cap]> (heap s))
                  (<[this := mkVector (mkRawMemory (Some a) cap)
                               (length (take i elems ++ drop (S i) elems))]> (objs s))
                  (leaked s)),
         (mkVector (mkRawMemory (Some a) cap)
                   (length (take i elems ++ drop (S i) elems))).
  split; [exact HE|]. split; [|split; [|split]].
  - simpl. apply lookup_insert_eq.
  - eapply owns_intro.
    + simpl. apply lookup_insert_eq.
    + rewrite Hsplit in Hle. lia.
    + exact Hrc.
    + split; [done|]. simpl. apply lookup_insert_eq.
  - exact Hlen.
  - unfold cell_at. simpl. rewrite lookup_insert_eq.
    unfold cells. rewrite Hlen.
    rewrite lookup_app_r by (rewrite length_fmap, Hlen; lia).
    rewrite length_fmap, Hlen, Nat.sub_diag.
    rewrite Hsplit in Hle.
    apply lookup_replicate_2. lia.
Qed.

(** C10. Copy assignment from itself, move assignment from itself and a
    swap with itself leave the vector, and the whole state, as they were. *)
Theorem self_assignment_is_identity s this V :
  objs s !! this = Some V ->
  Vector_copy_assign this this s = Ok tt s /\
  Vector_move_assign this this s = Ok tt s /\
  Swap this this s = Ok tt s.
Proof.
  intros HV. split; [|split].
  - unfold Vector_copy_assign.
    rewrite bool_decide_eq_false_2 by (intros Hne; by apply Hne). reflexivity.
  - unfold Vector_move_assign.
    rewrite bool_decide_eq_false_2 by (intros Hne; by apply Hne). reflexivity.
  - unfold Swap.
    rewrite !(bind_Ok _ _ _ _ _ (get_vec_Ok _ _ _ HV)).
    unfold ptr_eqb. rewrite bool_decide_eq_true_2 by reflexivity. reflexivity.
Qed.

(** *** Copies *)

Lemma preserves_mutate (v : vid) V0 blk0 (this : vid) m :
  this <> v -> leaves_alone v m ->
  preserves v V0 blk0 (mutate this m) (fun _ => True).
Proof.
  intros Hne Hm. destruct m; simpl in *.
  - by apply preserves_Reserve.
  - by apply preserves_Resize.
  - by apply preserves_PushBack.
  - by apply preserves_PopBack.
  - eapply preserves_bind; [by apply preserves_EmplaceBack|].
    intros _ _. by apply preserves_ret.
  - eapply preserves_bind; [apply preserves_get_vec|]. intros V _.
    eapply preserves_bind; [by apply preserves_Emplace|].
    intros _ _. by apply preserves_ret.
  - eapply preserves_bind; [apply preserves_get_vec|]. intros V _.
    eapply preserves_bind; [by apply preserves_Insert|].
    intros _ _. by apply preserves_ret.
  - eapply preserves_bind; [apply preserves_get_vec|]. intros V _.
    eapply preserves_bind; [by apply preserves_Erase|].
    intros _ _. by apply preserves_ret.
  - by apply preserves_Vector_store.
  - by apply preserves_Vector_copy_assign.
  - by apply preserves_Vector_move_assign.
  - by apply preserves_Swap.
Qed.

Lemma preserves_mutate_all (v : vid) V0 blk0 (this : vid) ms :
  this <> v -> Forall (leaves_alone v) ms ->
  preserves v V0 blk0 (mutate_all this ms) (fun _ => True).
Proof.
  intros Hne Hms. induction Hms as [|m ms Hm Hms IH]; simpl.
  - by apply preserves_ret.
  - eapply preserves_bind; [by apply preserves_mutate|]. intros _ _. exact IH.
Qed.

Lemma protected_owns (v : vid) p elems cap s :
  length elems <= cap -> representable cap ->
  match p with None => cap = 0 | Some _ => cap <> 0 end ->
  protected v (mkVector (mkRawMemory p cap) (length elems)) (cells elems cap) s ->
  owns s v elems cap.
Proof.
  intros Hle Hrep Hp (Hobj & Hblk & _).
  eapply owns_intro; [exact Hobj | exact Hle | exact Hrep |].
  destruct p as [a|]; [|exact Hp]. split; [exact Hp|]. by apply Hblk.
Qed.

(** The copy constructor: a block for exactly [size] objects, filled with
    copies of the elements of [other] in their order. *)
Lemma Vector_copy_ctor_spec s this other elems cap :
  owns s other elems cap ->
  Forall (fun x => copy_throws x = false) elems ->
  exists p,
    match p with None => elems = [] | Some a => elems <> [] /\ heap s !! a = None end /\
    Vector_copy_ctor this other s
    = Ok tt (mkState (match p with
                      | None => heap s
                      | Some a => <[a := cells elems (length elems)]> (heap s)
                      end)
                     (<[this := mkVector (mkRawMemory p (length elems))
                                         (length elems)]> (objs s))
                     (leaked s)).
Proof.
  intros Hown Hok.
  destruct (owns_inv _ _ _ _ Hown) as (q & Hobj & Hle & Hrc & Hq).
  unfold Vector_copy_ctor.
  rewrite (bind_Ok _ _ _ _ _ (get_vec_Ok _ _ _ Hobj)). simpl size_.
  destruct elems as [|x elems].
  - exists None. split; [done|]. reflexivity.
  - exists (Some (fresh (dom (heap s)))). split; [split; [done | apply fresh_block]|].
    destruct q as [a|]; [|simpl in *; lia]. destruct Hq as [Hc Ha].
    pose proof (fresh_block_ne _ _ _ Ha) as Hne.
    set (elems' := x :: elems) in *.
    rewrite (bind_Ok _ _ _ _ _ (RawMemory_ctor_Ok s (length elems') ltac:(done))).
    set (da := fresh (dom (heap s))) in *.
    erewrite bind_Ok.
    2:{ apply on_unwind_Ok. unfold uninitialized_copy_n, GetAddress.
        cbn [data_ buffer_].
        eapply (uninitialized_copy_loop_ok elems' _ a da []
                  (replicate (cap - length elems') Raw) [] []);
          [exact Hne | | | reflexivity | reflexivity | exact Hok].
        - simpl. rewrite lookup_insert_ne by done. exact Ha.
        - simpl. rewrite lookup_insert_eq, app_nil_r. reflexivity. }
    rewrite set_heap_set_heap. simpl heap. rewrite insert_insert_eq.
    unfold set_vec, set_objs, set_heap. simpl.
    unfold cells. rewrite Nat.sub_diag. reflexivity.
Qed.

(** C9. The copy constructor gives a vector with the same elements in the
    same order and the same size, in storage of its own: whatever is then
    done to the copy (short of moving from the original or swapping with
    it), returning or throwing, the original keeps its elements, its size
    and its capacity. *)
Theorem copy_is_deep s (v w : vid) elems cap :
  owns s v elems cap ->
  isolated s v ->
  objs s !! w = None ->
  Forall (fun x => copy_throws x = false) elems ->
  exists s1,
    Vector_copy_ctor w v s = Ok tt s1 /\
    owns s1 w elems (length elems) /\
    owns s1 v elems cap /\
    forall ms,
      Forall (leaves_alone v) ms ->
      match mutate_all w ms s1 with
      | Ok _ s2 => owns s2 v elems cap
      | Throw s2 => owns s2 v elems cap
      | Fault _ => True
      end.
Proof.
  intros Hown Hiso Hw Hok.
  destruct (owns_inv _ _ _ _ Hown) as (q & Hobj & Hle & Hrc & Hq).
  assert (Hwv : w <> v) by (intros ->; rewrite Hobj in Hw; done).
  destruct (Vector_copy_ctor_spec s w v elems cap Hown Hok) as (p & Hp & Hcopy).
  eexists. split; [exact Hcopy|].
  set (s1 := mkState _ _ _).
  assert (Hprot : protected v (mkVector (mkRawMemory q cap) (length elems))
                            (cells elems cap) s1).
  { repeat split.
    - simpl. rewrite lookup_insert_ne by done. exact Hobj.
    - simpl. intros a ->. destruct Hq as [_ Ha].
      destruct p as [da|]; [|exact Ha].
      destruct Hp as [_ Hda].
      rewrite lookup_insert_ne by (intros ->; congruence). exact Ha.
    - simpl. intros u U a Hu. rewrite lookup_insert.
      case_decide as Huw.
      + intros [= <-]. simpl. intros -> ->.
        destruct Hp as [_ Hda]. destruct Hq as [_ Ha]. congruence.
      + intros HU Hbuf. by eapply (Hiso _ u U a Hobj). }
  assert (Hqcap : match q with None => cap = 0 | Some _ => cap <> 0 end)
    by (destruct q; [by destruct Hq | exact Hq]).
  split; [|split].
  - eapply owns_intro.
    + simpl. apply lookup_insert_eq.
    + lia.
    + eapply representable_le; [exact Hle | exact Hrc].
    + destruct p as [da|].
      * destruct Hp as [Hne _]. split.
        -- destruct elems; [done | simpl; lia].
        -- simpl. apply lookup_insert_eq.
      * by rewrite Hp.
  - by eapply protected_owns.
  - intros ms Hms.
    pose proof (preserves_mutate_all v _ _ w ms Hwv Hms s1 Hprot) as Hm.
    destruct (mutate_all w ms s1) as [[] s2|s2|]; [| |done].
    + destruct Hm as [Hm _]. by eapply protected_owns.
    + by eapply protected_owns.
Qed.

End Behaviour.

(** * Where the code leaves the lifetime rules *)

Section Defects.
Context {T : Type} `{ET : Element T}.

Implicit Types (s : state T) (a : addr) (x : T) (vs elems : list T).

(** When the constructor of the new element throws, [EmplaceBack] leaves
    the state as it found it: nothing was touched, and the block it had
    allocated is returned with no object in it. *)
Lemma EmplaceBack_constructor_throws s this elems cap :
  owns s this elems cap ->
  representable (2 * (length elems + 1)) ->
  EmplaceBack this None s = Throw s.
Proof.
  intros Hown Hrep.
  destruct (owns_inv _ _ _ _ Hown) as (p & Hobj & Hle & Hrc & Hp).
  unfold EmplaceBack.
  rewrite (bind_Ok _ _ _ _ _ (get_vec_Ok _ _ _ Hobj)).
  unfold Capacity, RawMemory_Capacity. simpl.
  destruct (Nat.ltb_spec (length elems) cap) as [Hlt|Hge]; [reflexivity|].
  rewrite size_add_small by (eapply representable_le; [|exact Hrep]; lia).
  rewrite size_mul_small by (eapply representable_le; [|exact Hrep]; lia).
  erewrite bind_Ok; [| apply RawMemory_ctor_Ok; lia].
  apply bind_Throw. eapply on_unwind_Throw; [reflexivity|].
  unfold RawMemory_dtor. cbn [buffer_].
  erewrite Deallocate_Ok by (simpl; apply lookup_insert_eq).
  unfold add_leaked, set_heap. simpl.
  rewrite delete_insert_id by apply fresh_block.
  rewrite live_count_replicate_Raw, Nat.add_0_r.
  destruct s; reflexivity.
Qed.

(** When a transfer throws, the algorithm has already destroyed what it
    had constructed: the destination is as it was before the transfer. *)
Lemma transfer_n_throws s sa da vs1 v vs2 spost dpost :
  sa <> da ->
  heap s !! sa = Some ((Live <$> (vs1 ++ v :: vs2)) ++ spost) ->
  heap s !! da = Some (replicate (length (vs1 ++ v :: vs2)) Raw ++ dpost) ->
  Forall (fun u => transfer_throws u = false) vs1 ->
  transfer_throws v = true ->
  exists s1,
    transfer_n (Some sa) 0 (length (vs1 ++ v :: vs2)) (Some da) 0 s = Throw s1 /\
    heap s1 !! da = Some (replicate (length (vs1 ++ v :: vs2)) Raw ++ dpost).
Proof.
  intros Hne Hs Hd Hok Hv. unfold transfer_n, transfer_throws in *.
  destruct (is_nothrow_move_constructible || negb is_copy_constructible).
  - eexists. split.
    + unfold uninitialized_move_n.
      by eapply (uninitialized_move_loop_throw vs1 s sa da [] spost [] [] dpost
                   0 0 0 v vs2).
    + simpl. rewrite lookup_insert_ne by done. apply lookup_insert_eq.
  - eexists. split.
    + unfold uninitialized_copy_n.
      by eapply (uninitialized_copy_loop_throw vs1 s sa da [] spost [] [] dpost
                   0 0 0 v vs2).
    + simpl. apply lookup_insert_eq.
Qed.

(** When a transfer throws in [EmplaceBack], the handler's
    [std::destroy_n(new_data.GetAddress(), size_ + 1)] runs destructors over
    cells that hold no object: of the new block only cell [size_] does. *)
Lemma EmplaceBack_transfer_throws s this a vs1 v vs2 cap x :
  objs s !! this
  = Some (mkVector (mkRawMemory (Some a) cap) (length (vs1 ++ v :: vs2))) ->
  heap s !! a = Some (cells (vs1 ++ v :: vs2) cap) ->
  cap = length (vs1 ++ v :: vs2) ->
  representable (2 * (length (vs1 ++ v :: vs2) + 1)) ->
  Forall (fun u => transfer_throws u = false) vs1 ->
  transfer_throws v = true ->
  EmplaceBack this (Some x) s = Fault DestroyOfRawCell.
Proof.
  intros Hobj Ha Hcap Hrep Hok Hv.
  set (elems := vs1 ++ v :: vs2) in *.
  assert (Hpos : 0 < length elems)
    by (unfold elems; rewrite length_app; simpl; lia).
  pose proof (fresh_block_ne _ _ _ Ha) as Hne.
  unfold EmplaceBack.
  rewrite (bind_Ok _ _ _ _ _ (get_vec_Ok _ _ _ Hobj)).
  unfold Capacity, RawMemory_Capacity, GetAddress. simpl.
  destruct (Nat.ltb_spec (length elems) cap) as [|_]; [lia|].
  rewrite size_add_small by (eapply representable_le; [|exact Hrep]; lia).
  rewrite size_mul_small by (eapply representable_le; [|exact Hrep]; lia).
  set (cap' := Nat.max (cap * 2) (length elems + 1)).
  assert (Hcap' : length elems < cap') by (unfold cap'; lia).
  rewrite (bind_Ok _ _ _ _ _ (RawMemory_ctor_Ok s cap' ltac:(lia))).
  set (da := fresh (dom (heap s))) in *.
  apply bind_Fault, try_catch_Fault.
  erewrite bind_Ok.
  2:{ unfold construct_new. eapply construct_at_Raw.
      - simpl. apply lookup_insert_eq.
      - apply lookup_replicate_2. lia. }
  simpl. rewrite set_heap_set_heap, insert_insert_eq.
  rewrite insert_replicate_Raw by lia.
  destruct (transfer_n_throws
              (set_heap (<[da := replicate (length elems) Raw
                               ++ Live x :: replicate (cap' - S (length elems)) Raw]>
                           (heap s)) s)
              a da vs1 v vs2 (replicate (cap - length elems) Raw)
              (Live x :: replicate (cap' - S (length elems)) Raw))
    as (s1 & Ht & Hda); [exact Hne | | | exact Hok | exact Hv |].
  { simpl. rewrite lookup_insert_ne by done. exact Ha. }
  { simpl. apply lookup_insert_eq. }
  fold elems in Ht, Hda.
  rewrite (try_catch_Throw _ _ _ _ Ht).
  apply bind_Fault.
  rewrite Nat.add_1_r.
  destruct (length elems) as [|n] eqn:Hn; [lia|].
  by eapply (destroy_n_Raw _ da []
               (replicate n Raw ++ Live x :: replicate (cap' - S (S n)) Raw)).
Qed.

Lemma first_throw (P : T -> bool) vs :
  Forall (fun u => P u = false) vs \/
  exists vs1 v vs2,
    vs = vs1 ++ v :: vs2 /\ Forall (fun u => P u = false) vs1 /\ P v = true.
Proof.
  induction vs as [|u vs IH]; [by left|].
  destruct (P u) eqn:Hu.
  - right. exists [], u, vs. done.
  - destruct IH as [IH|(vs1 & v & vs2 & -> & Hok & Hv)].
    + left. by constructor.
    + right. exists (u :: vs1), v, vs2. repeat split; [by constructor | done].
Qed.

(** [EmplaceBack] returns only when the constructor of the new element and
    every transfer have succeeded. *)
Lemma EmplaceBack_returns s this elems cap ctor r s' :
  owns s this elems cap ->
  representable (2 * (length elems + 1)) ->
  EmplaceBack this ctor s = Ok r s' ->
  exists x, ctor = Some x /\ (cap <= length elems -> transfer_ok elems).
Proof.
  intros Hown Hrep Hret.
  destruct ctor as [x|];
    [|by rewrite (EmplaceBack_constructor_throws _ _ _ _ Hown Hrep) in Hret].
  exists x. split; [reflexivity|]. intros Hge.
  destruct (first_throw transfer_throws elems)
    as [Hok|(vs1 & v & vs2 & -> & Hok & Hv)]; [exact Hok|].
  destruct (owns_inv _ _ _ _ Hown) as (p & Hobj & Hle & Hrc & Hp).
  destruct p as [a|]; [|rewrite length_app in Hle; simpl in Hle; lia].
  destruct Hp as [_ Ha].
  rewrite (EmplaceBack_transfer_throws s this a vs1 v vs2 cap x) in Hret;
    [done | exact Hobj | exact Ha | lia | exact Hrep | exact Hok | exact Hv].
Qed.

(** The constructor from an initializer list fills the new block with
    [std::copy], that is by copy assignment to objects that were never
    constructed. *)
Lemma Vector_list_ctor_assigns_to_raw_cells s this x xs :
  copy_assign_throws x = false ->
  Vector_list_ctor this (x :: xs) s = Fault AssignToRawCell.
Proof.
  intros Hx. unfold Vector_list_ctor.
  erewrite bind_Ok; [| by apply RawMemory_ctor_Ok].
  apply bind_Fault, try_catch_Fault.
  simpl. rewrite Hx. apply bind_Fault.
  eapply assign_cell_Raw; [simpl; apply lookup_insert_eq | reflexivity].
Qed.

(** Both move operations hand the source's elements to the target, and both
    leave [size_] of the source as it was: [std::move] of a [size_t] is a
    copy. *)
Lemma Vector_move_ctor_spec s this other O :
  objs s !! other = Some O -> this <> other ->
  Vector_move_ctor this other s
  = Ok tt (set_objs (<[this := O]>
                       (<[other := mkVector RawMemory_default (size_ O)]> (objs s))) s).
Proof.
  intros HO Hne. unfold Vector_move_ctor.
  rewrite (bind_Ok _ _ _ _ _ (get_vec_Ok _ _ _ HO)).
  destruct O as [[p c] n]. reflexivity.
Qed.

Lemma Vector_move_assign_spec s this rhs V R :
  objs s !! this = Some V -> objs s !! rhs = Some R -> this <> rhs ->
  Vector_move_assign this rhs s
  = Ok tt (set_objs (<[rhs := mkVector (data_ V) (size_ R)]>
                       (<[this := R]> (objs s))) s).
Proof.
  intros HV HR Hne. unfold Vector_move_assign.
  rewrite bool_decide_eq_true_2 by exact Hne.
  rewrite (bind_Ok _ _ _ _ _ (get_vec_Ok _ _ _ HV)).
  rewrite (bind_Ok _ _ _ _ _ (get_vec_Ok _ _ _ HR)).
  destruct V as [[p c] n], R as [[q d] m]. reflexivity.
Qed.

(** The target of a move construction owns the source's elements in their
    order; the source is left with no block and its old size. *)
Lemma Vector_move_ctor_target s this other elems cap :
  owns s other elems cap ->
  objs s !! this = None ->
  exists s',
    Vector_move_ctor this other s = Ok tt s' /\
    owns s' this elems cap /\
    objs s' !! other = Some (mkVector RawMemory_default (length elems)).
Proof.
  intros Hown Hthis.
  destruct (owns_inv _ _ _ _ Hown) as (p & Hobj & Hle & Hrc & Hp).
  assert (Hne : this <> other) by (intros ->; rewrite Hobj in Hthis; done).
  eexists. split; [by apply Vector_move_ctor_spec|]. split.
  - eapply owns_intro; [simpl; apply lookup_insert_eq | done..].
  - simpl. rewrite lookup_insert_ne by done. apply lookup_insert_eq.
Qed.

(** The target of a move assignment owns the source's elements in their
    order; the source is left with the target's old block and its own old
    size. *)
Lemma Vector_move_assign_target s this rhs V elems cap :
  owns s rhs elems cap ->
  objs s !! this = Some V -> this <> rhs ->
  exists s',
    Vector_move_assign this rhs s = Ok tt s' /\
    owns s' this elems cap /\
    objs s' !! rhs = Some (mkVector (data_ V) (length elems)).
Proof.
  intros Hown HV Hne.
  destruct (owns_inv _ _ _ _ Hown) as (p & Hobj & Hle & Hrc & Hp).
  eexists. split; [by eapply Vector_move_assign_spec|]. split.
  - eapply owns_intro; [simpl | done..].
    rewrite lookup_insert_ne by done. apply lookup_insert_eq.
  - simpl. apply lookup_insert_eq.
Qed.

End Defects.

Section CallOrder.
Context {T : Type} `{ET : Element T}.

Implicit Types (s : state T) (x : T) (xs elems : list T).

(** C6. Every run of [PushBack] and [EmplaceBack] calls that returns
    leaves the vector holding its initial elements followed by the appended
    ones in call order, with its size grown by the number of calls; and the
    run does return when no constructor involved throws. *)
Theorem appends_keep_call_order s this elems cap calls :
  owns s this elems cap ->
  representable (2 * (length elems + length calls)) ->
  (forall s',
     run_calls this calls s = Ok tt s' ->
     exists xs cap' V',
       Forall2 (fun c x => produced c = Some x) calls xs /\
       owns s' this (elems ++ xs) cap' /\
       objs s' !! this = Some V' /\
       Size V' = length elems + length calls) /\
  (forall xs,
     Forall2 (fun c x => produced c = Some x) calls xs ->
     transfer_ok (elems ++ xs) ->
     exists s', run_calls this calls s = Ok tt s').
Proof.
  revert s elems cap.
  induction calls as [|c calls IH]; intros s elems cap Hown Hrep.
  - split.
    + intros s' [= <-].
      destruct (owns_Capacity _ _ _ _ Hown) as (V & HV & _ & Hsz).
      exists [], cap, V. rewrite app_nil_r. simpl.
      repeat split; [constructor | done.. | unfold Size; lia].
    + intros xs _ _. exists s. reflexivity.
  - simpl length in Hrep.
    assert (Hrep1 : representable (2 * (length elems + 1)))
      by (eapply representable_le; [|exact Hrep]; lia).
    split.
    + intros s' Hrun. simpl in Hrun. unfold bind at 1 in Hrun.
      rewrite run_call_EmplaceBack in Hrun. unfold bind at 1 in Hrun.
      destruct (EmplaceBack this (produced c) s) as [r s1| |] eqn:He; [|done..].
      destruct (EmplaceBack_returns _ _ _ _ _ _ _ Hown Hrep1 He) as (x & Hc & Hok).
      rewrite Hc in He.
      destruct (EmplaceBack_owns s this elems cap x Hown Hrep1 Hok)
        as (r' & s1' & He' & Hown1 & _ & _).
      rewrite He in He'. injection He' as <- <-.
      destruct (IH s1 (elems ++ [x]) _ Hown1) as [Hret _].
      { rewrite length_app. simpl.
        eapply representable_le; [|exact Hrep]. lia. }
      destruct (Hret s' Hrun) as (xs & cap' & V' & Hxs & Hown' & HV' & Hsz).
      exists (x :: xs), cap', V'. split; [|split; [|split]].
      * by constructor.
      * rewrite <- app_assoc in Hown'. exact Hown'.
      * exact HV'.
      * rewrite Hsz, length_app. simpl. lia.
    + intros xs Hxs Hok.
      inversion Hxs as [|? x ? xs' Hc Hxs']; subst.
      apply Forall_app in Hok as [Hoke Hokx].
      inversion Hokx as [|? ? Hx Hokxs]; subst.
      destruct (EmplaceBack_owns s this elems cap x Hown Hrep1)
        as (r & s1 & He & Hown1 & _ & _); [by intros _|].
      destruct (IH s1 (elems ++ [x]) _ Hown1) as [_ Htot].
      { rewrite length_app. simpl.
        eapply representable_le; [|exact Hrep]. lia. }
      destruct (Htot xs' Hxs') as (s' & Hrun).
      { rewrite <- app_assoc. simpl.
        apply Forall_app. split; [exact Hoke | by constructor]. }
      exists s'. simpl. erewrite bind_Ok; [exact Hrun|].
      rewrite run_call_EmplaceBack, Hc.
      rewrite (bind_Ok _ _ _ _ _ He). reflexivity.
Qed.

End CallOrder.

(** * The rest of the interface *)

(** What the member functions outside the appending and inserting paths do
    on a valid vector, and what the in-place paths leave when an element
    operation throws. *)

(** ** Capacity and size *)

Section Storage.
Context {T : Type} `{ET : Element T} `{LT : Layout T}.

Implicit Types (s : state T) (a : addr) (v x : T) (vs elems : list T).

(** [Reserve] with a capacity above the current one: the elements move into
    a new block of exactly that many cells and the old block is returned. *)
Lemma Reserve_grows s this p elems cap n :
  objs s !! this = Some (mkVector (mkRawMemory p cap) (length elems)) ->
  match p with
  | None => cap = 0
  | Some a => cap <> 0 /\ heap s !! a = Some (cells elems cap)
  end ->
  length elems <= cap -> cap < n ->
  transfer_ok elems ->
  Reserve this n s = Ok tt (relocated s this p elems n).
Proof.
  intros Hobj Hp Hle Hn Hok.
  unfold Reserve.
  rewrite (bind_Ok _ _ _ _ _ (get_vec_Ok _ _ _ Hobj)).
  unfold Capacity, RawMemory_Capacity, GetAddress. simpl.
  destruct (Nat.leb_spec n cap) as [|_]; [lia|].
  rewrite (bind_Ok _ _ _ _ _ (RawMemory_ctor_Ok s n ltac:(lia))).
  set (da := fresh (dom (heap s))).
  cbn [buffer_ capacity_].
  destruct p as [a|].
  - destruct Hp as [Hc0 Ha].
    pose proof (fresh_block_ne _ _ _ Ha) as Hne. fold da in Hne.
    erewrite bind_Ok.
    2:{ apply on_unwind_Ok.
        eapply (transfer_n_ok elems _ a da [] (replicate (cap - length elems) Raw)
                  [] (replicate (n - length elems) Raw));
          [exact Hne | | | reflexivity | reflexivity | exact Hok].
        - simpl. rewrite lookup_insert_ne by done. exact Ha.
        - simpl. rewrite lookup_insert_eq. rewrite <- replicate_add.
          f_equal. f_equal. lia. }
    rewrite set_heap_set_heap. simpl heap. rewrite insert_insert_eq.
    pose proof (destroy_n_Live (transferred <$> elems)
                  (set_heap (<[a := (Live <$> (transferred <$> elems))
                             ++ replicate (cap - length elems) Raw]>
                     (<[da := (Live <$> elems) ++ replicate (n - length elems) Raw]>
                        (heap s))) s)
                  a [] (replicate (cap - length elems) Raw) 0) as Hd.
    rewrite length_fmap in Hd.
    rewrite (bind_Ok _ _ _ _ _ (Hd ltac:(simpl; apply lookup_insert_eq) eq_refl)).
    clear Hd. rewrite set_heap_set_heap. simpl heap. rewrite insert_insert_eq.
    unfold RawMemory_Swap. simpl buffer_. simpl capacity_.
    rewrite (bind_Ok _ _ _ _ _ (set_vec_Ok _ _ _)).
    unfold RawMemory_dtor. cbn [buffer_].
    erewrite Deallocate_Ok by (simpl; apply lookup_insert_eq).
    unfold relocated, add_leaked, set_heap, set_objs. simpl.
    f_equal. fold da. f_equal.
    + rewrite delete_insert_eq.
      rewrite delete_insert_ne by done. reflexivity.
    + rewrite live_count_app, !live_count_replicate_Raw. lia.
  - assert (elems = []) as -> by (destruct elems; [done | simpl in *; lia]).
    subst cap.
    erewrite bind_Ok; [| apply on_unwind_Ok, transfer_n_zero].
    unfold relocated, cells. simpl. rewrite Nat.sub_0_r. reflexivity.
Qed.


(** [Reserve] with a capacity the vector already has does nothing. *)
Lemma Reserve_enough s this V n :
  objs s !! this = Some V -> n <= Capacity V -> Reserve this n s = Ok tt s.
Proof.
  intros Hobj Hn. unfold Reserve.
  rewrite (bind_Ok _ _ _ _ _ (get_vec_Ok _ _ _ Hobj)).
  destruct (Nat.leb_spec n (Capacity V)) as [_|]; [reflexivity | lia].
Qed.

(** X1. [Reserve(n)] on a valid vector, for an [n] above the capacity
    whose bytes [size_t] holds, or for any [n] within the capacity, returns
    with the same elements in the same order in room for [max(capacity, n)]
    objects; nothing is leaked and no other object changes.  When [n] is
    within the capacity the state is untouched.  When it is not, the vector
    is in a block that was not allocated before, of exactly [n] cells, and
    the heap is the old one with the old block given back and that block
    added. *)
Theorem reserve_keeps_elements s this elems cap n :
  owns s this elems cap ->
  (cap < n -> allocatable n) ->
  (cap < n -> transfer_ok elems) ->
  exists s',
    Reserve this n s = Ok tt s' /\
    owns s' this elems (Nat.max cap n) /\
    leaked s' = leaked s /\
    (forall u, u <> this -> objs s' !! u = objs s !! u) /\
    (n <= cap -> s' = s) /\
    (cap < n ->
     forall V, objs s !! this = Some V ->
       exists a',
         heap s !! a' = None /\
         objs s' !! this
         = Some (mkVector (mkRawMemory (Some a') n) (length elems)) /\
         heap s'
         = <[a' := cells elems n]> (released (GetAddress (data_ V)) (heap s)) /\
         forall a, GetAddress (data_ V) = Some a -> heap s' !! a = None).
Proof.
  intros Hown Hrep Hok.
  destruct (owns_inv _ _ _ _ Hown) as (p & Hobj & Hle & Hrc & Hp).
  destruct (Nat.le_gt_cases n cap) as [Hn|Hn].
  - exists s. split; [by eapply (Reserve_enough _ _ _ _ Hobj)|].
    rewrite Nat.max_l by exact Hn.
    split; [exact Hown|]. split; [reflexivity|]. split; [reflexivity|].
    split; [reflexivity | lia].
  - exists (relocated s this p elems n).
    split; [apply (Reserve_grows _ _ _ _ cap); auto|].
    rewrite Nat.max_r by lia.
    split; [|split; [reflexivity|split; [|split; [lia|]]]].
    + apply owns_relocated; [by rewrite Hobj | lia | lia |].
      apply allocatable_representable. auto.
    + intros u Hu. unfold relocated. simpl.
      by rewrite lookup_insert_ne by (apply not_eq_sym; exact Hu).
    + intros _ V HV. rewrite Hobj in HV. injection HV as <-.
      exists (fresh (dom (heap s))).
      split; [apply fresh_block|].
      split; [unfold relocated; simpl; apply lookup_insert_eq|].
      split; [reflexivity|].
      intros a Ha. unfold GetAddress in Ha. simpl in Ha. subst p.
      destruct Hp as [_ Hblk].
      unfold relocated. simpl.
      rewrite lookup_insert_ne by (apply not_eq_sym; by eapply fresh_block_ne).
      apply lookup_delete_eq.
Qed.


(** What [Reserve] leaves on a valid vector when no transfer throws. *)
Lemma Reserve_owns s this elems cap n :
  owns s this elems cap ->
  representable n ->
  (cap < n -> transfer_ok elems) ->
  exists s',
    Reserve this n s = Ok tt s' /\
    owns s' this elems (Nat.max cap n) /\
    leaked s' = leaked s.
Proof.
  intros Hown Hrep Hok.
  destruct (owns_inv _ _ _ _ Hown) as (p & Hobj & Hle & Hrc & Hp).
  destruct (Nat.le_gt_cases n cap) as [Hn|Hn].
  - exists s. split; [by eapply (Reserve_enough _ _ _ _ Hobj)|].
    rewrite Nat.max_l by exact Hn. done.
  - exists (relocated s this p elems n).
    split; [apply (Reserve_grows _ _ _ _ cap); auto|].
    rewrite Nat.max_r by lia. split; [|reflexivity].
    apply owns_relocated; [by rewrite Hobj | lia | lia | exact Hrep].
Qed.

(** X2. [Reserve] never shrinks and asks once: after [Reserve(n)], a
    [Reserve] of a capacity not above [n] changes nothing, so that
    [Reserve(n)] twice is [Reserve(n)] once. *)
Theorem reserve_is_idempotent s this elems cap n k :
  owns s this elems cap ->
  representable n ->
  (cap < n -> transfer_ok elems) ->
  k <= n ->
  (Reserve this n ;; Reserve this k) s = Reserve this n s /\
  (Reserve this n ;; Reserve this n) s = Reserve this n s.
Proof.
  intros Hown Hrep Hok Hk.
  destruct (Reserve_owns s this elems cap n Hown Hrep Hok)
    as (s1 & Hres & Hown1 & _).
  destruct (owns_Capacity _ _ _ _ Hown1) as (V1 & HV1 & Hc1 & _).
  rewrite !(bind_Ok _ _ _ _ _ Hres), Hres.
  split; f_equal; apply (Reserve_enough _ _ _ _ HV1); lia.
Qed.

(** While there is spare capacity, appends construct in place: the block
    and its capacity stay. *)
Lemma append_run_in_place xs : forall s this a elems cap,
  objs s !! this = Some (mkVector (mkRawMemory (Some a) cap) (length elems)) ->
  heap s !! a = Some (cells elems cap) ->
  length elems + length xs <= cap -> representable cap ->
  append_run this xs s
  = Ok (replicate (length xs) cap)
       (mkState (<[a := cells (elems ++ xs) cap]> (heap s))
                (<[this := mkVector (mkRawMemory (Some a) cap)
                                    (length (elems ++ xs))]> (objs s))
                (leaked s)).
Proof.
  induction xs as [|x xs IH]; intros s this a elems cap Hobj Ha Hle Hrep.
  - simpl. rewrite app_nil_r. unfold ret. f_equal.
    rewrite !insert_id by done. by destruct s.
  - simpl in Hle. simpl append_run.
    rewrite (bind_Ok _ _ _ _ _
               (EmplaceBack_spare s this a elems cap x Hobj Ha ltac:(lia) Hrep)).
    erewrite bind_Ok; [| apply get_vec_Ok; simpl; apply lookup_insert_eq].
    erewrite bind_Ok.
    2:{ apply (IH _ this a (elems ++ [x]) cap).
        - simpl. apply lookup_insert_eq.
        - simpl. apply lookup_insert_eq.
        - rewrite length_app. simpl. lia.
        - exact Hrep. }
    unfold ret. simpl. rewrite !insert_insert_eq, <- app_assoc. reflexivity.
Qed.

(** A number of objects that [size_t] holds in bytes, when one is needed. *)
Lemma allocatable_above cap n :
  (cap < n -> allocatable n) -> cap < n -> representable n.
Proof. intros Hn Hlt. apply allocatable_representable. auto. Qed.

(** What [Reserve] does to the state of a valid vector: within the capacity
    nothing; above it, the old block is given back and the elements are in
    a block that was not in use. *)
Lemma Reserve_exact s this elems cap n :
  owns s this elems cap ->
  (cap < n -> representable n) ->
  (cap < n -> transfer_ok elems) ->
  exists p s1,
    objs s !! this = Some (mkVector (mkRawMemory p cap) (length elems)) /\
    Reserve this n s = Ok tt s1 /\
    owns s1 this elems (Nat.max cap n) /\
    leaked s1 = leaked s /\
    (n <= cap -> s1 = s) /\
    (cap < n -> s1 = relocated s this p elems n).
Proof.
  intros Hown Hrep Hok.
  destruct (owns_inv _ _ _ _ Hown) as (p & Hobj & Hle & Hrc & Hp).
  exists p.
  destruct (Nat.le_gt_cases n cap) as [Hn|Hn].
  - exists s. split; [exact Hobj|].
    split; [by eapply (Reserve_enough _ _ _ _ Hobj)|].
    rewrite Nat.max_l by exact Hn.
    split; [exact Hown|]. split; [reflexivity|]. split; [reflexivity | lia].
  - exists (relocated s this p elems n). split; [exact Hobj|].
    split; [apply (Reserve_grows _ _ _ _ cap); auto|].
    rewrite Nat.max_r by lia.
    split; [|split; [reflexivity|split; [lia | reflexivity]]].
    apply owns_relocated; [by rewrite Hobj | lia | lia | auto].
Qed.

(** The same appends with the block recorded after each of them. *)
Lemma append_trace_in_place xs : forall s this a elems cap,
  objs s !! this = Some (mkVector (mkRawMemory (Some a) cap) (length elems)) ->
  heap s !! a = Some (cells elems cap) ->
  length elems + length xs <= cap -> representable cap ->
  append_trace this xs s
  = Ok (replicate (length xs) (Some a, cap))
       (mkState (<[a := cells (elems ++ xs) cap]> (heap s))
                (<[this := mkVector (mkRawMemory (Some a) cap)
                                    (length (elems ++ xs))]> (objs s))
                (leaked s)).
Proof.
  induction xs as [|x xs IH]; intros s this a elems cap Hobj Ha Hle Hrep.
  - simpl. rewrite app_nil_r. unfold ret. f_equal.
    rewrite !insert_id by done. by destruct s.
  - simpl in Hle. simpl append_trace.
    rewrite (bind_Ok _ _ _ _ _
               (EmplaceBack_spare s this a elems cap x Hobj Ha ltac:(lia) Hrep)).
    erewrite bind_Ok; [| apply get_vec_Ok; simpl; apply lookup_insert_eq].
    erewrite bind_Ok.
    2:{ apply (IH _ this a (elems ++ [x]) cap).
        - simpl. apply lookup_insert_eq.
        - simpl. apply lookup_insert_eq.
        - rewrite length_app. simpl. lia.
        - exact Hrep. }
    unfold ret. simpl. rewrite !insert_insert_eq, <- app_assoc. reflexivity.
Qed.

(** X3. After [Reserve(n)], for an [n] above the capacity whose bytes
    [size_t] holds or an [n] within the capacity, appends that keep the
    size within the capacity [Reserve] left never reallocate: after each of
    them the vector is in the block [Reserve] left it in, with the capacity
    [max(capacity, n)].  The elements are the old ones followed by the new
    ones, no object but the vector has changed and nothing is leaked.  The
    heap is the one before [Reserve] with the block the vector had given
    back and the block holding the result put in: the same block when [n]
    is within the capacity, otherwise one that was not in use. *)
Theorem reserve_then_appends_stay_in_place s this elems cap n xs :
  owns s this elems cap ->
  (cap < n -> allocatable n) ->
  (cap < n -> transfer_ok elems) ->
  length elems + length xs <= Nat.max cap n ->
  exists s1 p s',
    Reserve this n s = Ok tt s1 /\
    objs s1 !! this
    = Some (mkVector (mkRawMemory p (Nat.max cap n)) (length elems)) /\
    (Reserve this n ;; append_trace this xs) s
    = Ok (replicate (length xs) (p, Nat.max cap n)) s' /\
    (Reserve this n ;; append_run this xs) s
    = Ok (replicate (length xs) (Nat.max cap n)) s' /\
    owns s' this (elems ++ xs) (Nat.max cap n) /\
    objs s'
    = <[this := mkVector (mkRawMemory p (Nat.max cap n))
                         (length (elems ++ xs))]> (objs s) /\
    leaked s' = leaked s /\
    forall V, objs s !! this = Some V ->
      heap s'
      = housed (released (GetAddress (data_ V)) (heap s)) p
               (cells (elems ++ xs) (Nat.max cap n)) /\
      (n <= cap -> p = GetAddress (data_ V)) /\
      (cap < n -> exists a', p = Some a' /\ heap s !! a' = None).
Proof.
  intros Hown Hrep Hok Hlen.
  destruct (Reserve_exact s this elems cap n Hown (allocatable_above _ _ Hrep) Hok)
    as (p0 & s1 & Hobj0 & Hres & Hown1 & Hleak & Hsame & Hmoved).
  rewrite !(bind_Ok _ _ _ _ _ Hres).
  destruct (owns_inv _ _ _ _ Hown1) as (p & Hobj & Hle & Hrc & Hp).
  exists s1, p.
  assert (Hfrom :
    objs s1 = <[this := mkVector (mkRawMemory p (Nat.max cap n)) (length elems)]>
                (objs s) /\
    heap s1 = housed (released p0 (heap s)) p (cells elems (Nat.max cap n)) /\
    (n <= cap -> p = p0) /\
    (cap < n -> exists a', p = Some a' /\ heap s !! a' = None)).
  { destruct (Nat.le_gt_cases n cap) as [Hn|Hn].
    - pose proof (Hsame Hn) as ->.
      rewrite Hobj0 in Hobj. injection Hobj as -> Hmax.
      destruct (owns_inv _ _ _ _ Hown) as (p1 & Hobj1 & _ & _ & Hp1).
      rewrite Hobj0 in Hobj1. injection Hobj1 as <-.
      rewrite Nat.max_l by exact Hn.
      split; [by rewrite insert_id|]. split; [|split; [done | lia]].
      destruct p as [a|]; [|reflexivity]. simpl.
      destruct Hp1 as [_ Ha]. by rewrite insert_delete_eq, insert_id.
    - pose proof (Hmoved Hn) as ->.
      unfold relocated in Hobj. simpl in Hobj.
      rewrite lookup_insert_eq in Hobj. injection Hobj as <-.
      rewrite Nat.max_r by lia. unfold relocated. simpl.
      split; [reflexivity|]. split; [reflexivity|]. split; [lia|].
      intros _. eexists. split; [reflexivity | apply fresh_block]. }
  destruct Hfrom as (Hobjs1 & Hheap1 & Hkeep & Hnew).
  destruct p as [a|].
  - destruct Hp as [Hc Ha].
    eexists. split; [exact Hres|]. split; [exact Hobj|].
    split; [by apply append_trace_in_place|].
    split; [by apply append_run_in_place|].
    split; [|split; [|split; [exact Hleak|]]].
    + eapply owns_intro.
      * simpl. apply lookup_insert_eq.
      * rewrite length_app. lia.
      * exact Hrc.
      * split; [exact Hc|]. simpl. apply lookup_insert_eq.
    + simpl. rewrite Hobjs1. by rewrite insert_insert_eq.
    + intros V HV. rewrite Hobj0 in HV. injection HV as <-.
      unfold GetAddress. simpl. split; [|split; [exact Hkeep | exact Hnew]].
      rewrite Hheap1. simpl. by rewrite insert_insert_eq.
  - assert (xs = []) as -> by (destruct xs; [done | simpl in *; lia]).
    exists s1. rewrite app_nil_r.
    split; [exact Hres|]. split; [exact Hobj|].
    split; [reflexivity|]. split; [reflexivity|]. split; [exact Hown1|].
    split; [exact Hobjs1|]. split; [exact Hleak|].
    intros V HV. rewrite Hobj0 in HV. injection HV as <-.
    unfold GetAddress. simpl. split; [|split; [exact Hkeep | exact Hnew]].
    rewrite Hheap1. reflexivity.
Qed.


(** The state a transfer leaves when the constructor throws on [v]: the
    destination is raw again, and the elements before [v] are what the
    transfer leaves behind. *)
Lemma transfer_n_throws_state s sa da vs1 v vs2 spost dpost :
  sa <> da ->
  heap s !! sa = Some ((Live <$> (vs1 ++ v :: vs2)) ++ spost) ->
  heap s !! da = Some (replicate (length (vs1 ++ v :: vs2)) Raw ++ dpost) ->
  Forall (fun u => transfer_throws u = false) vs1 ->
  transfer_throws v = true ->
  transfer_n (Some sa) 0 (length (vs1 ++ v :: vs2)) (Some da) 0 s
  = Throw (set_heap
             (<[sa := (Live <$> ((transferred <$> vs1) ++ v :: vs2)) ++ spost]>
                (heap s)) s).
Proof.
  intros Hne Hs Hd Hok Hv.
  unfold transfer_n, transfer_throws, transferred in *.
  destruct (is_nothrow_move_constructible || negb is_copy_constructible).
  - unfold uninitialized_move_n.
    rewrite (uninitialized_move_loop_throw vs1 s sa da [] spost [] [] dpost
               0 0 0 v vs2 Hne Hs Hd eq_refl eq_refl eq_refl Hok Hv).
    simpl. rewrite (insert_id _ da) by exact Hd.
    rewrite fmap_app, <- app_assoc. reflexivity.
  - unfold uninitialized_copy_n.
    rewrite (uninitialized_copy_loop_throw vs1 s sa da [] spost [] [] dpost
               0 0 0 v vs2 Hne Hs Hd eq_refl eq_refl eq_refl Hok Hv).
    simpl. rewrite (insert_id _ da) by exact Hd.
    rewrite list_fmap_id.
    rewrite insert_id by exact Hs. reflexivity.
Qed.

(** X4. When [Reserve(n)] has to move the elements, [n] being above the
    capacity with bytes that [size_t] holds, and the constructor that it
    transfers with throws on an element, the exception leaves [Reserve]
    with the new block given back and nothing leaked: the blocks in use are
    those in use before.  The vector keeps its size and capacity; the
    elements before the one that threw are what the transfer left of them,
    so a type that is transferred by copy finds the state as it was. *)
Theorem reserve_failure_keeps_vector s this vs1 v vs2 cap n :
  owns s this (vs1 ++ v :: vs2) cap ->
  cap < n ->
  allocatable n ->
  Forall (fun u => transfer_throws u = false) vs1 ->
  transfer_throws v = true ->
  exists s',
    Reserve this n s = Throw s' /\
    owns s' this ((transferred <$> vs1) ++ v :: vs2) cap /\
    leaked s' = leaked s /\
    objs s' = objs s /\
    dom (heap s') = dom (heap s) /\
    (is_nothrow_move_constructible || negb is_copy_constructible = false ->
     s' = s).
Proof.
  intros Hown Hn _ Hok Hv.
  destruct (owns_inv _ _ _ _ Hown) as (p & Hobj & Hle & Hrc & Hp).
  set (elems := vs1 ++ v :: vs2) in *.
  assert (Hpos : 0 < length elems)
    by (unfold elems; rewrite length_app; simpl; lia).
  destruct p as [a|]; [|lia]. destruct Hp as [Hc Ha].
  pose proof (fresh_block_ne _ _ _ Ha) as Hne.
  set (elems' := (transferred <$> vs1) ++ v :: vs2).
  assert (Hlen' : length elems' = length elems).
  { unfold elems', elems. rewrite !length_app, length_fmap. reflexivity. }
  exists (set_heap (<[a := cells elems' cap]> (heap s)) s).
  split; [|split; [|split; [reflexivity|split; [reflexivity|split]]]].
  - unfold Reserve.
    rewrite (bind_Ok _ _ _ _ _ (get_vec_Ok _ _ _ Hobj)).
    unfold Capacity, RawMemory_Capacity, GetAddress. simpl.
    destruct (Nat.leb_spec n cap) as [|_]; [lia|].
    rewrite (bind_Ok _ _ _ _ _ (RawMemory_ctor_Ok s n ltac:(lia))).
    set (da := fresh (dom (heap s))) in *.
    cbn [buffer_ capacity_].
    apply bind_Throw. eapply on_unwind_Throw.
    + apply (transfer_n_throws_state _ a da vs1 v vs2
               (replicate (cap - length elems) Raw)
               (replicate (n - length elems) Raw)); [exact Hne | | | exact Hok | exact Hv].
      * simpl. rewrite lookup_insert_ne by done. exact Ha.
      * simpl. rewrite lookup_insert_eq. fold elems.
        rewrite <- replicate_add. f_equal. f_equal. lia.
    + unfold RawMemory_dtor. cbn [buffer_].
      erewrite Deallocate_Ok
        by (simpl; rewrite lookup_insert_ne by done; apply lookup_insert_eq).
      unfold add_leaked, set_heap. simpl.
      rewrite delete_insert_ne by done.
      rewrite delete_insert_eq.
      rewrite delete_id by apply fresh_block.
      rewrite live_count_replicate_Raw, Nat.add_0_r.
      unfold cells. fold elems'. rewrite Hlen'. reflexivity.
  - eapply owns_intro.
    + simpl. rewrite Hlen'. exact Hobj.
    + lia.
    + exact Hrc.
    + split; [exact Hc|]. simpl. apply lookup_insert_eq.
  - simpl. rewrite dom_insert_L.
    apply subseteq_union_1_L, singleton_subseteq_l. by eapply elem_of_dom_2.
  - intros Hcopy. unfold elems', transferred. rewrite Hcopy.
    rewrite list_fmap_id. fold elems. by apply state_unchanged.
Qed.


(** [std::uninitialized_value_construct_n] over raw cells, for a default
    constructor that produces [d]. *)
Lemma uninitialized_value_construct_loop_ok d n :
  forall s a dpre dpost dfirst k,
  value_init = Some d ->
  heap s !! a = Some (dpre ++ replicate n Raw ++ dpost) ->
  length dpre = dfirst + k ->
  uninitialized_value_construct_loop (Some a) dfirst k n s
  = Ok tt (set_heap (<[a := dpre ++ (Live <$> replicate n d) ++ dpost]> (heap s)) s).
Proof.
  induction n as [|n IH]; intros s a dpre dpost dfirst k Hd Ha Hl.
  - simpl in *. unfold ret. f_equal. symmetry. by apply state_unchanged.
  - simpl in *. rewrite Hd.
    erewrite bind_Ok; [| eapply construct_at_Raw; [exact Ha | by apply lookup_split]].
    rewrite insert_split by done.
    erewrite (IH _ a (dpre ++ [Live d]) dpost dfirst (S k)).
    + simpl. rewrite set_heap_set_heap, insert_insert_eq, <- app_assoc.
      reflexivity.
    + exact Hd.
    + simpl. rewrite lookup_insert_eq, <- app_assoc. done.
    + rewrite length_app. simpl. lia.
Qed.

Lemma cells_app_live elems xs cap :
  cells (elems ++ xs) cap
  = (Live <$> elems) ++ (Live <$> xs) ++ replicate (cap - length (elems ++ xs)) Raw.
Proof. unfold cells. rewrite fmap_app, <- app_assoc. reflexivity. Qed.

(** [Resize] to a smaller size destroys the tail in place. *)
Lemma Resize_shrinks s this a elems cap n :
  objs s !! this = Some (mkVector (mkRawMemory (Some a) cap) (length elems)) ->
  heap s !! a = Some (cells elems cap) ->
  length elems <= cap -> n < length elems ->
  Resize this n s
  = Ok tt (mkState (<[a := cells (take n elems) cap]> (heap s))
                   (<[this := mkVector (mkRawMemory (Some a) cap) n]> (objs s))
                   (leaked s)).
Proof.
  intros Hobj Ha Hle Hn. unfold Resize.
  rewrite (bind_Ok _ _ _ _ _ (get_vec_Ok _ _ _ Hobj)).
  unfold GetAddress. simpl.
  destruct (Nat.ltb_spec n (length elems)) as [_|]; [|lia].
  rewrite size_sub_le by lia.
  rewrite <- (take_drop n elems) in Ha.
  rewrite cells_app_live in Ha.
  pose proof (destroy_n_Live (drop n elems) s a (Live <$> take n elems) _ n Ha) as Hd.
  rewrite length_drop in Hd.
  rewrite length_fmap, length_take_le in Hd by lia.
  rewrite (bind_Ok _ _ _ _ _ (Hd eq_refl)). clear Hd.
  erewrite bind_Ok; [| apply get_vec_Ok; exact Hobj].
  unfold set_vec, set_objs, set_heap. simpl. do 2 f_equal.
  rewrite take_drop. unfold cells.
  rewrite length_take_le by lia.
  rewrite <- replicate_add. do 3 f_equal. lia.
Qed.

(** X5. [Resize] to a size the vector already reaches keeps the first
    [n] elements, destroys the others where they are and keeps the block:
    it cannot throw, and the capacity is the same. *)
Theorem resize_down_truncates s this elems cap n :
  owns s this elems cap ->
  n <= length elems ->
  exists s',
    Resize this n s = Ok tt s' /\
    owns s' this (take n elems) cap /\
    leaked s' = leaked s /\
    (forall V V', objs s !! this = Some V -> objs s' !! this = Some V' ->
                  data_ V' = data_ V) /\
    (n = length elems -> s' = s).
Proof.
  intros Hown Hn.
  destruct (owns_inv _ _ _ _ Hown) as (p & Hobj & Hle & Hrc & Hp).
  destruct (decide (n = length elems)) as [->|Hne].
  - exists s. rewrite firstn_all.
    assert (Hres : Resize this (length elems) s = Ok tt s).
    { unfold Resize.
      rewrite (bind_Ok _ _ _ _ _ (get_vec_Ok _ _ _ Hobj)). simpl.
      rewrite Nat.ltb_irrefl.
      rewrite bind_ret_l.
      rewrite (bind_Ok _ _ _ _ _ (get_vec_Ok _ _ _ Hobj)).
      unfold set_vec, set_objs. simpl. rewrite insert_id by exact Hobj.
      by destruct s. }
    repeat split; [exact Hres | exact Hown |].
    intros V V' HV HV'. congruence.
  - destruct p as [a|]; [|lia]. destruct Hp as [Hc Ha].
    eexists. split; [apply (Resize_shrinks _ _ a elems cap); auto; lia|].
    split; [|split; [reflexivity|split; [|lia]]].
    + eapply owns_intro.
      * simpl. rewrite lookup_insert_eq, length_take_le by lia. reflexivity.
      * rewrite length_take_le by lia. lia.
      * exact Hrc.
      * split; [exact Hc|]. simpl. apply lookup_insert_eq.
    + intros V V' HV. simpl. rewrite lookup_insert_eq.
      rewrite Hobj in HV. injection HV as <-. by intros [= <-].
Qed.


(** [Resize] to a larger size: room is reserved for exactly that many
    objects if there is less, and the new cells are value-initialised in
    the block [Reserve] left. *)
Lemma Resize_grows s this elems cap n :
  owns s this elems cap ->
  length elems < n ->
  (cap < n -> representable n) ->
  (cap < n -> transfer_ok elems) ->
  exists p a1 s1,
    objs s !! this = Some (mkVector (mkRawMemory p cap) (length elems)) /\
    Reserve this n s = Ok tt s1 /\
    owns s1 this elems (Nat.max cap n) /\
    leaked s1 = leaked s /\
    (n <= cap -> s1 = s) /\
    (cap < n -> s1 = relocated s this p elems n) /\
    objs s1 !! this
    = Some (mkVector (mkRawMemory (Some a1) (Nat.max cap n)) (length elems)) /\
    heap s1 !! a1 = Some (cells elems (Nat.max cap n)) /\
    match value_init with
    | None => Resize this n s = Throw s1
    | Some d =>
        Resize this n s
        = Ok tt (mkState
                   (<[a1 := cells (elems ++ replicate (n - length elems) d)
                                  (Nat.max cap n)]> (heap s1))
                   (<[this := mkVector (mkRawMemory (Some a1) (Nat.max cap n)) n]>
                      (objs s1))
                   (leaked s1))
    end.
Proof.
  intros Hown Hn Hrep Hok.
  destruct (Reserve_exact s this elems cap n Hown Hrep Hok)
    as (p0 & s1 & Hobj & Hres & Hown1 & Hleak & Hsame & Hmoved).
  destruct (owns_inv _ _ _ _ Hown1) as (p & Hobj1 & Hle1 & Hrc1 & Hp1).
  destruct p as [a|]; [|lia]. destruct Hp1 as [Hc1 Ha1].
  exists p0, a, s1.
  split; [exact Hobj|]. split; [exact Hres|]. split; [exact Hown1|].
  split; [exact Hleak|]. split; [exact Hsame|]. split; [exact Hmoved|].
  split; [exact Hobj1|]. split; [exact Ha1|].
  set (cap1 := Nat.max cap n) in *.
  assert (Hunf :
    Resize this n s
    = bind (uninitialized_value_construct_loop (Some a) (length elems) 0
              (n - length elems))
           (fun _ => V'' ← get_vec this;
                     set_vec this (mkVector (data_ V'') n)) s1).
  { unfold Resize.
    rewrite (bind_Ok _ _ _ _ _ (get_vec_Ok _ _ _ Hobj)). simpl size_.
    destruct (Nat.ltb_spec n (length elems)) as [|_]; [lia|].
    destruct (Nat.ltb_spec (length elems) n) as [_|]; [|lia].
    unfold bind at 1. unfold bind at 1. rewrite Hres.
    rewrite (bind_Ok _ _ _ _ _ (get_vec_Ok _ _ _ Hobj1)).
    unfold uninitialized_value_construct_n, GetAddress. simpl.
    rewrite size_sub_le by lia. reflexivity. }
  rewrite Hunf.
  destruct value_init as [d|] eqn:Hd.
  - set (m := n - length elems).
    assert (Hblk : heap s1 !! a
              = Some ((Live <$> elems) ++ replicate m Raw
                        ++ replicate (cap1 - n) Raw)).
    { rewrite Ha1. unfold cells. rewrite <- replicate_add.
      do 3 f_equal. unfold m, cap1. lia. }
    erewrite bind_Ok.
    2:{ eapply (uninitialized_value_construct_loop_ok d m _ a);
          [exact Hd | exact Hblk | rewrite length_fmap; lia]. }
    erewrite bind_Ok; [| apply get_vec_Ok; exact Hobj1].
    unfold set_vec, set_objs, set_heap. simpl. do 3 f_equal.
    unfold cells. rewrite fmap_app, <- app_assoc.
    rewrite length_app, length_replicate. fold m.
    do 4 f_equal. unfold m. lia.
  - apply bind_Throw.
    destruct (n - length elems) as [|m] eqn:Hm; [lia|].
    simpl. rewrite Hd. reflexivity.
Qed.

(** X6. [Resize] to a larger size [n], whose bytes [size_t] holds if it is
    above the capacity, keeps the elements and appends value-initialised
    ones up to the new size; the capacity becomes [max(capacity, n)]:
    exactly [n] when the vector has to move.  Nothing is leaked and no other
    object changes.  The heap is the old one with the block of the vector
    given back and the block holding the result put in: the same block when
    [n] is within the capacity, otherwise one that was not in use. *)
Theorem resize_up_value_initialises s this elems cap n d :
  owns s this elems cap ->
  length elems < n ->
  (cap < n -> allocatable n) ->
  (cap < n -> transfer_ok elems) ->
  value_init = Some d ->
  exists s',
    Resize this n s = Ok tt s' /\
    owns s' this (elems ++ replicate (n - length elems) d) (Nat.max cap n) /\
    leaked s' = leaked s /\
    (forall u, u <> this -> objs s' !! u = objs s !! u) /\
    forall V, objs s !! this = Some V ->
      exists a',
        objs s' !! this
        = Some (mkVector (mkRawMemory (Some a') (Nat.max cap n)) n) /\
        heap s'
        = <[a' := cells (elems ++ replicate (n - length elems) d)
                        (Nat.max cap n)]>
            (released (GetAddress (data_ V)) (heap s)) /\
        (n <= cap -> GetAddress (data_ V) = Some a') /\
        (cap < n -> heap s !! a' = None).
Proof.
  intros Hown Hn Hrep Hok Hd.
  destruct (Resize_grows s this elems cap n Hown Hn (allocatable_above _ _ Hrep) Hok)
    as (p & a1 & s1 & Hobj & _ & Hown1 & Hleak & Hsame & Hmoved & Hobj1 & Ha1 & Hres).
  rewrite Hd in Hres.
  destruct (owns_inv _ _ _ _ Hown1) as (_ & _ & Hle1 & Hrc1 & _).
  eexists. split; [exact Hres|].
  split; [|split; [exact Hleak|split]].
  - eapply owns_intro.
    + simpl. rewrite lookup_insert_eq.
      rewrite length_app, length_replicate.
      replace (length elems + (n - length elems)) with n by lia.
      reflexivity.
    + rewrite length_app, length_replicate. lia.
    + exact Hrc1.
    + split; [lia|]. simpl. apply lookup_insert_eq.
  - intros u Hu. simpl. rewrite lookup_insert_ne by (apply not_eq_sym; exact Hu).
    destruct (Nat.le_gt_cases n cap) as [Hle|Hlt].
    + by rewrite (Hsame Hle).
    + rewrite (Hmoved Hlt). unfold relocated. simpl.
      by rewrite lookup_insert_ne by (apply not_eq_sym; exact Hu).
  - intros V HV. rewrite Hobj in HV. injection HV as <-.
    exists a1. unfold GetAddress. simpl.
    split; [apply lookup_insert_eq|].
    destruct (Nat.le_gt_cases n cap) as [Hle|Hlt].
    + pose proof (Hsame Hle) as ->.
      rewrite Hobj in Hobj1. injection Hobj1 as -> _.
      simpl. rewrite insert_delete_eq.
      split; [reflexivity|]. split; [reflexivity | lia].
    + pose proof (Hmoved Hlt) as ->.
      unfold relocated in Hobj1. simpl in Hobj1.
      rewrite lookup_insert_eq in Hobj1. injection Hobj1 as <-.
      unfold relocated. simpl. rewrite insert_insert_eq.
      split; [reflexivity|]. split; [lia|]. intros _. apply fresh_block.
Qed.

(** X7. When the default constructor throws, a growing [Resize] to a size
    [n], whose bytes [size_t] holds if it is above the capacity, leaves the
    elements and the size as they were, but does not undo its [Reserve]:
    the vector is left in the state [Reserve(n)] alone would have produced,
    with capacity [max(capacity, n)]. *)
Theorem resize_up_failure_keeps_reserve s this elems cap n :
  owns s this elems cap ->
  length elems < n ->
  (cap < n -> allocatable n) ->
  (cap < n -> transfer_ok elems) ->
  value_init = None ->
  exists s',
    Resize this n s = Throw s' /\
    Reserve this n s = Ok tt s' /\
    owns s' this elems (Nat.max cap n) /\
    leaked s' = leaked s.
Proof.
  intros Hown Hn Hrep Hok Hd.
  destruct (Resize_grows s this elems cap n Hown Hn (allocatable_above _ _ Hrep) Hok)
    as (p & a1 & s1 & _ & Hres & Hown1 & Hleak & _ & _ & _ & _ & Hthrow).
  rewrite Hd in Hthrow. exists s1. done.
Qed.

(** X8. Growing with [Resize] to a size [n], whose bytes [size_t] holds if
    it is above the capacity, and shrinking back to the old size gives back
    the elements the vector had, in the state [Reserve(n)] alone would have
    produced: the state before when [n] is within the capacity; otherwise
    the old block has been given back and the elements are in a block of
    [n] cells that was not in use, the only change to the heap. *)
Theorem resize_up_then_down_restores_elements s this elems cap n d :
  owns s this elems cap ->
  length elems < n ->
  (cap < n -> allocatable n) ->
  (cap < n -> transfer_ok elems) ->
  value_init = Some d ->
  exists s',
    (Resize this n ;; Resize this (length elems)) s = Ok tt s' /\
    Reserve this n s = Ok tt s' /\
    owns s' this elems (Nat.max cap n) /\
    leaked s' = leaked s /\
    (n <= cap -> s' = s) /\
    (cap < n ->
     forall V, objs s !! this = Some V ->
       exists a',
         heap s !! a' = None /\
         heap s'
         = <[a' := cells elems n]> (released (GetAddress (data_ V)) (heap s)) /\
         objs s'
         = <[this := mkVector (mkRawMemory (Some a') n) (length elems)]> (objs s)).
Proof.
  intros Hown Hn Hrep Hok Hd.
  destruct (Resize_grows s this elems cap n Hown Hn (allocatable_above _ _ Hrep) Hok)
    as (p & a1 & s1 & Hobj & Hrsv & Hown1 & Hleak & Hsame & Hmoved & Hobj1 & Ha1 & Hres).
  rewrite Hd in Hres.
  rewrite (bind_Ok _ _ _ _ _ Hres).
  destruct (owns_inv _ _ _ _ Hown1) as (_ & _ & Hle1 & Hrc1 & _).
  assert (Hlen : length (elems ++ replicate (n - length elems) d) = n).
  { rewrite length_app, length_replicate. lia. }
  exists s1. split.
  { erewrite (Resize_shrinks _ _ a1 (elems ++ replicate (n - length elems) d)
                (Nat.max cap n)).
    - simpl. rewrite take_app_length, !insert_insert_eq.
      rewrite !insert_id by done. by destruct s1.
    - simpl. rewrite lookup_insert_eq, Hlen. reflexivity.
    - simpl. apply lookup_insert_eq.
    - rewrite Hlen. lia.
    - rewrite Hlen. exact Hn. }
  split; [exact Hrsv|]. split; [exact Hown1|]. split; [exact Hleak|].
  split; [exact Hsame|].
  intros Hlt V HV. rewrite Hobj in HV. injection HV as <-.
  rewrite (Hmoved Hlt). exists (fresh (dom (heap s))).
  split; [apply fresh_block|]. split; reflexivity.
Qed.

(** X9. The reference [EmplaceBack] returns designates the new element:
    it is the position at index [size - 1] of the vector after the call,
    the one [operator[]] gives for that index and the one in front of
    [end()]. *)
Theorem emplace_back_returns_the_new_element s this elems cap x :
  owns s this elems cap ->
  representable (2 * (length elems + 1)) ->
  (cap <= length elems -> transfer_ok elems) ->
  exists r s' V',
    EmplaceBack this (Some x) s = Ok r s' /\
    objs s' !! this = Some V' /\
    Size V' = length elems + 1 /\
    deref s' r = Some x /\
    r = std_next (begin V') (length elems) /\
    Vector_index this (length elems) s' = Ok r s' /\
    std_next r 1 = end_ V'.
Proof.
  intros Hown Hrep Hok.
  destruct (owns_inv _ _ _ _ Hown) as (p & Hobj & Hle & Hrc & Hp).
  assert (Hidx : forall s' q c,
            objs s' !! this
            = Some (mkVector (mkRawMemory q c) (length (elems ++ [x]))) ->
            length elems < c ->
            Vector_index this (length elems) s'
            = Ok (mkIter q (length elems)) s').
  { intros s' q c Hs' Hc. unfold Vector_index.
    rewrite (bind_Ok _ _ _ _ _ (get_vec_Ok _ _ _ Hs')). simpl.
    rewrite length_app. simpl.
    destruct (Nat.ltb_spec (length elems) (length elems + 1)) as [_|]; [|lia].
    unfold assert. rewrite bind_ret_l.
    by rewrite RawMemory_index_Ok by (simpl; lia). }
  destruct (Nat.lt_ge_cases (length elems) cap) as [Hlt|Hge].
  - destruct p as [a|]; [|lia]. destruct Hp as [Hc Ha].
    eexists _, _, _. split; [by apply EmplaceBack_spare|].
    split; [simpl; apply lookup_insert_eq|].
    split; [unfold Size; simpl; by rewrite length_app|].
    split; [|split; [reflexivity|split]].
    + eapply deref_cells; [simpl; apply lookup_insert_eq|].
      by apply list_lookup_middle.
    + eapply Hidx; [simpl; apply lookup_insert_eq | exact Hlt].
    + unfold std_next, end_, GetAddress. simpl. by rewrite length_app.
  - assert (cap = length elems) as Hcap by lia.
    eexists _, _, _. split.
    { apply EmplaceBack_full;
        [exact Hobj | exact Hp | exact Hcap | exact Hrep | apply Hok; lia]. }
    split; [simpl; apply lookup_insert_eq|].
    split; [unfold Size; simpl; by rewrite length_app|].
    split; [|split; [reflexivity|split]].
    + eapply deref_cells; [simpl; apply lookup_insert_eq|].
      by apply list_lookup_middle.
    + eapply Hidx; [simpl; apply lookup_insert_eq | lia].
    + unfold std_next, end_, GetAddress. simpl. by rewrite length_app.
Qed.

(** [PopBack] destroys the last element where it is. *)
Lemma PopBack_spec s this a elems x cap :
  objs s !! this
  = Some (mkVector (mkRawMemory (Some a) cap) (length (elems ++ [x]))) ->
  heap s !! a = Some (cells (elems ++ [x]) cap) ->
  length (elems ++ [x]) <= cap ->
  PopBack this s
  = Ok tt (mkState (<[a := cells elems cap]> (heap s))
                   (<[this := mkVector (mkRawMemory (Some a) cap) (length elems)]>
                      (objs s))
                   (leaked s)).
Proof.
  intros Hobj Ha Hle. unfold PopBack.
  rewrite (bind_Ok _ _ _ _ _ (get_vec_Ok _ _ _ Hobj)).
  unfold GetAddress. simpl.
  rewrite length_app in Hle |- *. simpl in Hle |- *. rewrite Nat.add_1_r. simpl.
  rewrite cells_snoc in Ha.
  rewrite bind_ret_l.
  erewrite bind_Ok.
  2:{ erewrite bind_Ok;
        [| eapply destroy_at_Live; [exact Ha | apply lookup_split; by rewrite length_fmap]].
      reflexivity. }
  rewrite insert_split by (by rewrite length_fmap).
  rewrite <- Nat.add_1_r, size_sub_add1.
  unfold set_vec, set_objs, set_heap. simpl. do 3 f_equal.
  unfold cells.
  replace (cap - length elems) with (S (cap - (length elems + 1))) by lia.
  reflexivity.
Qed.

(** X10. [PopBack] on a vector that has elements destroys the last one
    where it is and keeps the block and the capacity; on an empty vector it
    steps in front of the block, which is undefined. *)
Theorem pop_back_removes_last s this elems cap :
  owns s this elems cap ->
  (elems = [] -> PopBack this s = Fault OutOfBlock) /\
  (forall xs x, elems = xs ++ [x] ->
     exists s',
       PopBack this s = Ok tt s' /\
       owns s' this xs cap /\
       leaked s' = leaked s /\
       forall V', objs s' !! this = Some V' ->
                  cell_at s' (std_next (begin V') (length xs)) = Some Raw).
Proof.
  intros Hown.
  destruct (owns_inv _ _ _ _ Hown) as (p & Hobj & Hle & Hrc & Hp).
  split.
  - intros ->. unfold PopBack.
    rewrite (bind_Ok _ _ _ _ _ (get_vec_Ok _ _ _ Hobj)). reflexivity.
  - intros xs x ->.
    destruct p as [a|]; [|rewrite length_app in Hle; simpl in Hle; lia].
    destruct Hp as [Hc Ha].
    eexists. split; [by apply (PopBack_spec _ _ a xs x cap)|].
    rewrite length_app in Hle. simpl in Hle.
    split; [|split; [reflexivity|]].
    + eapply owns_intro.
      * simpl. apply lookup_insert_eq.
      * lia.
      * exact Hrc.
      * split; [exact Hc|]. simpl. apply lookup_insert_eq.
    + intros V'. simpl. rewrite lookup_insert_eq. intros [= <-].
      unfold cell_at. simpl. rewrite lookup_insert_eq.
      unfold cells. rewrite lookup_app_r by (by rewrite length_fmap).
      rewrite length_fmap, Nat.sub_diag.
      apply lookup_replicate_2. lia.
Qed.


(** X11. An append followed by [PopBack] gives back the elements the
    vector had.  With spare capacity the whole state is as before; without,
    the vector has moved into the larger block and keeps it. *)
Theorem append_then_pop_back_restores s this elems cap x :
  owns s this elems cap ->
  representable (2 * (length elems + 1)) ->
  (cap <= length elems -> transfer_ok elems) ->
  exists s',
    (EmplaceBack this (Some x) ;; PopBack this) s = Ok tt s' /\
    owns s' this elems (grown (length elems) cap) /\
    leaked s' = leaked s /\
    (length elems < cap -> s' = s).
Proof.
  intros Hown Hrep Hok.
  destruct (owns_inv _ _ _ _ Hown) as (p & Hobj & Hle & Hrc & Hp).
  destruct (Nat.lt_ge_cases (length elems) cap) as [Hlt|Hge].
  - destruct p as [a|]; [|lia]. destruct Hp as [Hc Ha].
    exists s.
    assert (Hg : grown (length elems) cap = cap).
    { unfold grown. destruct (Nat.ltb_spec (length elems) cap); [done | lia]. }
    rewrite Hg. split; [|done].
    rewrite (bind_Ok _ _ _ _ _
               (EmplaceBack_spare s this a elems cap x Hobj Ha Hlt Hrc)).
    rewrite (PopBack_spec _ this a elems x cap).
    + simpl. rewrite !insert_insert_eq, !insert_id by done. by destruct s.
    + simpl. apply lookup_insert_eq.
    + simpl. apply lookup_insert_eq.
    + rewrite length_app. simpl. lia.
  - destruct (EmplaceBack_owns s this elems cap x Hown Hrep Hok)
      as (r & s1 & He & Hown1 & _ & Hleak).
    rewrite (bind_Ok _ _ _ _ _ He).
    destruct (owns_inv _ _ _ _ Hown1) as (p1 & Hobj1 & Hle1 & Hrc1 & Hp1).
    destruct p1 as [a1|]; [|rewrite length_app in Hle1; simpl in Hle1; lia].
    destruct Hp1 as [Hc1 Ha1].
    eexists. split; [by apply (PopBack_spec _ this a1 elems x)|].
    split; [|split; [exact Hleak | lia]].
    eapply owns_intro.
    + simpl. apply lookup_insert_eq.
    + rewrite length_app in Hle1. simpl in Hle1. lia.
    + exact Hrc1.
    + split; [exact Hc1|]. simpl. apply lookup_insert_eq.
Qed.

End Storage.

(** ** Construction and destruction *)

Section Lifetime.
Context {T : Type} `{ET : Element T} `{LT : Layout T}.

Implicit Types (s : state T) (a : addr) (v x : T) (vs elems : list T).

(** [Vector(size)]: a block of exactly [size] cells, every one of them
    value-initialised. *)
Lemma Vector_size_ctor_spec s this n d :
  value_init = Some d -> n <> 0 ->
  Vector_size_ctor this n s
  = Ok tt (mkState (<[fresh (dom (heap s)) := cells (replicate n d) n]> (heap s))
                   (<[this := mkVector (mkRawMemory (Some (fresh (dom (heap s)))) n) n]>
                      (objs s))
                   (leaked s)).
Proof.
  intros Hd Hn. unfold Vector_size_ctor.
  rewrite (bind_Ok _ _ _ _ _ (RawMemory_ctor_Ok s n Hn)).
  set (da := fresh (dom (heap s))).
  erewrite bind_Ok.
  2:{ apply on_unwind_Ok. unfold uninitialized_value_construct_n, GetAddress.
      cbn [buffer_].
      eapply (uninitialized_value_construct_loop_ok d n _ da [] []);
        [exact Hd | | reflexivity].
      simpl. rewrite lookup_insert_eq, app_nil_r. reflexivity. }
  rewrite set_heap_set_heap. simpl heap. rewrite insert_insert_eq.
  unfold set_vec, set_objs, set_heap. simpl.
  unfold cells. rewrite length_replicate, Nat.sub_diag. reflexivity.
Qed.

Lemma Vector_size_ctor_zero s this :
  Vector_size_ctor this 0 s
  = Ok tt (set_objs (<[this := mkVector RawMemory_default 0]> (objs s)) s).
Proof. reflexivity. Qed.

(** X12. [Vector(n)], for an [n] whose bytes [size_t] holds, owns [n]
    value-initialised elements in a block of exactly [n] cells that was not
    in use (no block at all for [n = 0]); that block is the only change to
    the heap, and the vectors that exist are not touched. *)
Theorem sized_constructor_value_initialises s this n d :
  value_init = Some d ->
  allocatable n ->
  exists s',
    Vector_size_ctor this n s = Ok tt s' /\
    owns s' this (replicate n d) n /\
    leaked s' = leaked s /\
    (forall a b, heap s !! a = Some b -> heap s' !! a = Some b) /\
    (forall u, u <> this -> objs s' !! u = objs s !! u) /\
    (n = 0 -> heap s' = heap s) /\
    (n <> 0 ->
     exists a, heap s !! a = None /\
               heap s' = <[a := cells (replicate n d) n]> (heap s)).
Proof.
  intros Hd Hrep. destruct (decide (n = 0)) as [->|Hn].
  - eexists. split; [apply Vector_size_ctor_zero|].
    split; [|split; [reflexivity|split; [done|split; [|done]]]].
    + eapply owns_intro; [simpl; apply lookup_insert_eq | done..].
    + intros u Hu. simpl. by rewrite lookup_insert_ne.
  - eexists. split; [by apply Vector_size_ctor_spec|].
    split; [|split; [reflexivity|split; [|split; [|split; [done|]]]]].
    + eapply owns_intro.
      * simpl. rewrite lookup_insert_eq, length_replicate. reflexivity.
      * by rewrite length_replicate.
      * by apply allocatable_representable.
      * split; [exact Hn|]. simpl. apply lookup_insert_eq.
    + intros a b Ha. simpl.
      rewrite lookup_insert_ne by (apply not_eq_sym; by eapply fresh_block_ne).
      exact Ha.
    + intros u Hu. simpl. by rewrite lookup_insert_ne.
    + intros _. exists (fresh (dom (heap s))).
      split; [apply fresh_block | reflexivity].
Qed.

(** X13. When the default constructor of [T] throws, [Vector(n)] for
    [n > 0] gives its block back and leaves the state as it was: no vector
    object comes into being. *)
Theorem sized_constructor_failure_releases s this n :
  value_init = None -> 0 < n ->
  Vector_size_ctor this n s = Throw s.
Proof.
  intros Hd Hn. unfold Vector_size_ctor.
  rewrite (bind_Ok _ _ _ _ _ (RawMemory_ctor_Ok s n ltac:(lia))).
  destruct n as [|m]; [lia|].
  apply bind_Throw. eapply on_unwind_Throw.
  - unfold uninitialized_value_construct_n. simpl. rewrite Hd. reflexivity.
  - unfold RawMemory_dtor. cbn [buffer_].
    erewrite Deallocate_Ok by (cbn [heap set_heap]; apply lookup_insert_eq).
    unfold add_leaked, set_heap. cbn [heap objs leaked].
    rewrite delete_insert_id by apply fresh_block.
    change (Raw :: replicate m Raw) with (replicate (S m) (@Raw T)).
    rewrite live_count_replicate_Raw, Nat.add_0_r.
    by destruct s.
Qed.

(** [~Vector()]: the elements are destroyed, the block is given back and
    the object is gone. *)
Lemma Vector_dtor_spec s this p elems cap :
  objs s !! this = Some (mkVector (mkRawMemory p cap) (length elems)) ->
  match p with
  | None => cap = 0
  | Some a => cap <> 0 /\ heap s !! a = Some (cells elems cap)
  end ->
  length elems <= cap ->
  Vector_dtor this s
  = Ok tt (mkState (released p (heap s)) (delete this (objs s)) (leaked s)).
Proof.
  intros Hobj Hp Hle. unfold Vector_dtor.
  rewrite (bind_Ok _ _ _ _ _ (get_vec_Ok _ _ _ Hobj)).
  unfold GetAddress, RawMemory_dtor. simpl.
  destruct p as [a|].
  - destruct Hp as [Hc Ha]. unfold ptr_eqb.
    rewrite bool_decide_eq_false_2 by done. simpl.
    erewrite bind_Ok.
    2:{ apply (destroy_n_Live elems s a [] (replicate (cap - length elems) Raw) 0);
          [exact Ha | reflexivity]. }
    erewrite bind_Ok; [| eapply Deallocate_Ok; simpl; apply lookup_insert_eq].
    unfold del_vec, set_objs, add_leaked, set_heap. simpl.
    rewrite delete_insert_eq.
    rewrite live_count_app, !live_count_replicate_Raw, Nat.add_0_r.
    reflexivity.
  - assert (elems = []) as -> by (destruct elems; [done | simpl in *; lia]).
    unfold ptr_eqb. rewrite bool_decide_eq_true_2 by done. simpl.
    unfold del_vec, set_objs. by destruct s.
Qed.

(** X14. The destructor of a valid vector destroys its elements, gives
    its block back and removes the object; nothing is leaked, and no other
    block or object is touched. *)
Theorem destructor_releases_everything s this elems cap :
  owns s this elems cap ->
  exists s',
    Vector_dtor this s = Ok tt s' /\
    objs s' !! this = None /\
    leaked s' = leaked s /\
    (forall V a, objs s !! this = Some V -> buffer_ (data_ V) = Some a ->
                 heap s' !! a = None) /\
    (forall V a, objs s !! this = Some V -> buffer_ (data_ V) <> Some a ->
                 heap s' !! a = heap s !! a) /\
    (forall u, u <> this -> objs s' !! u = objs s !! u).
Proof.
  intros Hown.
  destruct (owns_inv _ _ _ _ Hown) as (p & Hobj & Hle & Hrc & Hp).
  eexists. split; [by eapply Vector_dtor_spec|].
  split; [simpl; apply lookup_delete_eq|]. split; [reflexivity|].
  split; [|split].
  - intros V a HV Ha. rewrite Hobj in HV. injection HV as <-.
    simpl in Ha. subst p. simpl. apply lookup_delete_eq.
  - intros V a HV Ha. rewrite Hobj in HV. injection HV as <-.
    simpl in Ha. simpl. destruct p as [b|]; [|reflexivity].
    simpl. apply lookup_delete_ne. congruence.
  - intros u Hu. simpl. by rewrite lookup_delete_ne.
Qed.


Lemma state_eta s : mkState (heap s) (objs s) (leaked s) = s.
Proof. by destruct s. Qed.

(** X15. A vector that is constructed and destroyed at once leaves no
    trace: after [Vector()], [Vector(n)] for an [n] whose bytes [size_t]
    holds, or a copy construction, followed by the destructor, the state is
    the one before the constructor. *)
Theorem construct_then_destroy_is_identity s this :
  objs s !! this = None ->
  (Vector_default_ctor this ;; Vector_dtor this) s = Ok tt s /\
  (forall n d, value_init = Some d -> allocatable n ->
     (Vector_size_ctor this n ;; Vector_dtor this) s = Ok tt s) /\
  (forall other elems cap,
     owns s other elems cap ->
     Forall (fun x => copy_throws x = false) elems ->
     (Vector_copy_ctor this other ;; Vector_dtor this) s = Ok tt s).
Proof.
  intros Hthis. split; [|split].
  - unfold Vector_default_ctor.
    rewrite (bind_Ok _ _ _ _ _ (set_vec_Ok _ _ _)).
    rewrite (Vector_dtor_spec _ this None [] 0);
      [| simpl; apply lookup_insert_eq | done | done].
    simpl. rewrite (delete_insert_id (objs s)) by exact Hthis. apply f_equal, state_eta.
  - intros n d Hd _. destruct (decide (n = 0)) as [->|Hn].
    + rewrite (bind_Ok _ _ _ _ _ (Vector_size_ctor_zero _ _)).
      rewrite (Vector_dtor_spec _ this None [] 0);
        [| simpl; apply lookup_insert_eq | done | done].
      simpl. rewrite (delete_insert_id (objs s)) by exact Hthis. apply f_equal, state_eta.
    + rewrite (bind_Ok _ _ _ _ _ (Vector_size_ctor_spec _ _ _ _ Hd Hn)).
      rewrite (Vector_dtor_spec _ this (Some (fresh (dom (heap s))))
                 (replicate n d) n).
      * simpl. rewrite (delete_insert_id (objs s)) by exact Hthis.
        rewrite (delete_insert_id (heap s)) by apply fresh_block.
        apply f_equal, state_eta.
      * simpl. rewrite lookup_insert_eq, length_replicate. reflexivity.
      * split; [exact Hn|]. simpl. apply lookup_insert_eq.
      * by rewrite length_replicate.
  - intros other elems cap Hown Hok.
    destruct (Vector_copy_ctor_spec s this other elems cap Hown Hok)
      as (p & Hp & Hcopy).
    rewrite (bind_Ok _ _ _ _ _ Hcopy).
    rewrite (Vector_dtor_spec _ this p elems (length elems)).
    + simpl. rewrite (delete_insert_id (objs s)) by exact Hthis.
      destruct p as [a|]; simpl.
      * destruct Hp as [_ Ha]. rewrite (delete_insert_id (heap s)) by exact Ha.
        apply f_equal, state_eta.
      * apply f_equal, state_eta.
    + simpl. apply lookup_insert_eq.
    + destruct p as [a|].
      * destruct Hp as [Hne _]. split.
        -- destruct elems; [done | simpl; lia].
        -- simpl. apply lookup_insert_eq.
      * by rewrite Hp.
    + lia.
Qed.

(** When the copy of an element throws, the copy constructor destroys the
    copies it has made and gives its block back. *)
Lemma Vector_copy_ctor_throws s this other vs1 v vs2 cap :
  owns s other (vs1 ++ v :: vs2) cap ->
  Forall (fun x => copy_throws x = false) vs1 ->
  copy_throws v = true ->
  Vector_copy_ctor this other s = Throw s.
Proof.
  intros Hown Hok Hv.
  destruct (owns_inv _ _ _ _ Hown) as (q & Hobj & Hle & Hrc & Hq).
  set (elems := vs1 ++ v :: vs2) in *.
  assert (Hpos : 0 < length elems)
    by (unfold elems; rewrite length_app; simpl; lia).
  destruct q as [a|]; [|lia]. destruct Hq as [Hc Ha].
  pose proof (fresh_block_ne _ _ _ Ha) as Hne.
  unfold Vector_copy_ctor.
  rewrite (bind_Ok _ _ _ _ _ (get_vec_Ok _ _ _ Hobj)). simpl size_.
  rewrite (bind_Ok _ _ _ _ _ (RawMemory_ctor_Ok s (length elems) ltac:(lia))).
  set (da := fresh (dom (heap s))) in *.
  apply bind_Throw. eapply on_unwind_Throw.
  - unfold uninitialized_copy_n, GetAddress. cbn [data_ buffer_].
    apply (uninitialized_copy_loop_throw vs1 _ a da []
             (replicate (cap - length elems) Raw) [] [] [] 0 0 0 v vs2);
      [exact Hne | | | reflexivity | reflexivity | reflexivity | exact Hok | exact Hv].
    + cbn [heap set_heap]. rewrite lookup_insert_ne by done. exact Ha.
    + cbn [heap set_heap]. rewrite lookup_insert_eq. fold elems.
      simpl. rewrite app_nil_r. reflexivity.
  - unfold RawMemory_dtor. cbn [buffer_].
    erewrite Deallocate_Ok by (cbn [heap set_heap]; apply lookup_insert_eq).
    unfold add_leaked, set_heap. cbn [heap objs leaked].
    rewrite insert_insert_eq.
    rewrite delete_insert_id by apply fresh_block.
    fold elems. simpl. rewrite app_nil_r.
    rewrite live_count_replicate_Raw, Nat.add_0_r.
    by destruct s.
Qed.

(** X16. The source of a move construction can be destroyed at once: it
    has no block, and the destructor leaves its stale size alone in that
    case.  The target then is the only owner of the elements, and the free
    store is as it was. *)
Theorem moved_from_source_can_be_destroyed s this other elems cap :
  owns s other elems cap ->
  objs s !! this = None ->
  exists s',
    (Vector_move_ctor this other ;; Vector_dtor other) s = Ok tt s' /\
    owns s' this elems cap /\
    objs s' !! other = None /\
    heap s' = heap s /\
    leaked s' = leaked s.
Proof.
  intros Hown Hthis.
  destruct (owns_inv _ _ _ _ Hown) as (p & Hobj & Hle & Hrc & Hp).
  assert (Hne : this <> other) by (intros ->; rewrite Hobj in Hthis; done).
  rewrite (bind_Ok _ _ _ _ _ (Vector_move_ctor_spec s this other _ Hobj Hne)).
  eexists. split; [|split; [|split; [|split]]].
  - unfold Vector_dtor.
    erewrite bind_Ok.
    2:{ apply get_vec_Ok. simpl. rewrite lookup_insert_ne by done.
        apply lookup_insert_eq. }
    unfold ptr_eqb, GetAddress, RawMemory_dtor, RawMemory_default. simpl.
    reflexivity.
  - eapply owns_intro; [| exact Hle | exact Hrc | exact Hp].
    simpl. rewrite lookup_delete_ne by done. apply lookup_insert_eq.
  - simpl. apply lookup_delete_eq.
  - reflexivity.
  - reflexivity.
Qed.

End Lifetime.

(** ** Positions and indices *)

Section Access.
Context {T : Type} `{ET : Element T}.

Implicit Types (s : state T) (a : addr) (v x : T) (vs elems : list T).

Lemma cells_lookup elems cap i :
  match cells elems cap !! i with
  | Some (Live x) => elems !! i = Some x
  | _ => elems !! i = None
  end.
Proof.
  unfold cells. destruct (Nat.lt_ge_cases i (length elems)) as [Hi|Hi].
  - rewrite lookup_app_l by (by rewrite length_fmap).
    rewrite list_lookup_fmap.
    destruct (elems !! i) as [x|] eqn:Hx; [done|].
    apply lookup_ge_None in Hx. lia.
  - rewrite lookup_app_r by (by rewrite length_fmap).
    rewrite (lookup_ge_None_2 elems) by exact Hi.
    destruct (replicate _ _ !! _) as [c|] eqn:Hc; [|done].
    apply lookup_replicate in Hc as [-> _]. done.
Qed.

(** X17. The range from [begin()] to [end()] of a valid vector designates
    its elements in their order and nothing else: [end() - begin()] is
    [Size()], position [begin() + i] holds element [i] for [i < Size()], and
    no position from [end()] on holds an object. *)
Theorem range_designates_elements s this V elems cap :
  owns s this elems cap ->
  objs s !! this = Some V ->
  Size V = length elems /\
  Capacity V = cap /\
  end_ V = std_next (begin V) (Size V) /\
  iter_diff (end_ V) (begin V) s = Ok (Size V) s /\
  forall i, deref s (std_next (begin V) i) = elems !! i.
Proof.
  intros Hown HV.
  destruct (owns_inv _ _ _ _ Hown) as (p & Hobj & Hle & Hrc & Hp).
  rewrite Hobj in HV. injection HV as <-.
  split; [reflexivity|]. split; [reflexivity|]. split; [reflexivity|].
  split; [apply iter_diff_begin; reflexivity|].
  intros i. unfold deref, std_next, begin, GetAddress. simpl.
  destruct p as [a|].
  - destruct Hp as [_ Ha]. rewrite Ha.
    pose proof (cells_lookup elems cap i) as Hc.
    destruct (cells elems cap !! i) as [[|x]|]; done.
  - assert (elems = []) as -> by (destruct elems; [done | simpl in *; lia]).
    done.
Qed.

(** X18. [operator[]] is checked against the size, not the capacity: an
    index below the size gives the element at that index and leaves the
    state alone; any other index fails the assertion, also when the cell
    exists. *)
Theorem index_is_checked_against_size s this elems cap i :
  owns s this elems cap ->
  (i < length elems ->
   exists r, Vector_index this i s = Ok r s /\ deref s r = elems !! i) /\
  (length elems <= i -> Vector_index this i s = Fault AssertionFailed).
Proof.
  intros Hown.
  destruct (owns_inv _ _ _ _ Hown) as (p & Hobj & Hle & Hrc & Hp).
  unfold Vector_index.
  rewrite (bind_Ok _ _ _ _ _ (get_vec_Ok _ _ _ Hobj)). simpl.
  split; intros Hi.
  - destruct (Nat.ltb_spec i (length elems)) as [_|]; [|lia].
    unfold assert. rewrite bind_ret_l.
    rewrite RawMemory_index_Ok by (simpl; lia).
    eexists. split; [reflexivity|].
    destruct p as [a|]; [|lia]. destruct Hp as [_ Ha].
    destruct (lookup_lt_is_Some_2 elems i Hi) as [x Hx].
    rewrite Hx. by eapply deref_cells.
  - destruct (Nat.ltb_spec i (length elems)) as [|_]; [lia|]. reflexivity.
Qed.

(** X19. Assigning through the reference that [operator[]] returns
    replaces the element at that index and no other; reading the index back
    gives the value stored. *)
Theorem store_then_index_reads_back s this elems cap i x :
  owns s this elems cap ->
  i < length elems ->
  copy_assign_throws x = false ->
  exists s' r,
    Vector_store this i x s = Ok tt s' /\
    owns s' this (<[i := x]> elems) cap /\
    objs s' = objs s /\
    leaked s' = leaked s /\
    Vector_index this i s' = Ok r s' /\
    deref s' r = Some x.
Proof.
  intros Hown Hi Hx.
  destruct (owns_inv _ _ _ _ Hown) as (p & Hobj & Hle & Hrc & Hp).
  destruct p as [a|]; [|lia]. destruct Hp as [Hc Ha].
  assert (Hidx : forall s0, objs s0 = objs s ->
            Vector_index this i s0 = Ok (mkIter (Some a) i) s0).
  { intros s0 Hs0. unfold Vector_index.
    erewrite bind_Ok; [| apply get_vec_Ok; rewrite Hs0; exact Hobj]. simpl.
    destruct (Nat.ltb_spec i (length elems)) as [_|]; [|lia].
    unfold assert. rewrite bind_ret_l.
    by rewrite RawMemory_index_Ok by (simpl; lia). }
  destruct (lookup_lt_is_Some_2 elems i Hi) as [y Hy].
  assert (Hblk : cells (<[i := x]> elems) cap = <[i := Live x]> (cells elems cap)).
  { unfold cells. rewrite length_insert.
    rewrite insert_app_l by (by rewrite length_fmap).
    by rewrite list_fmap_insert. }
  exists (set_heap (<[a := cells (<[i := x]> elems) cap]> (heap s)) s),
         (mkIter (Some a) i).
  split; [|split; [|split; [reflexivity|split; [reflexivity|split]]]].
  - unfold Vector_store. rewrite (bind_Ok _ _ _ _ _ (Hidx s eq_refl)).
    rewrite Hx. simpl. rewrite Hblk.
    eapply assign_cell_Live; [exact Ha|].
    unfold cells. rewrite lookup_app_l by (by rewrite length_fmap).
    by rewrite list_lookup_fmap, Hy.
  - eapply owns_intro.
    + simpl. rewrite length_insert. exact Hobj.
    + by rewrite length_insert.
    + exact Hrc.
    + split; [exact Hc|]. simpl. apply lookup_insert_eq.
  - by apply Hidx.
  - eapply deref_cells; [simpl; apply lookup_insert_eq|].
    by apply list_lookup_insert_eq.
Qed.

End Access.

(** ** [Swap] *)

Section Exchange.
Context {T : Type} `{ET : Element T}.

Implicit Types (s : state T) (a : addr) (v x : T) (vs xs ys elems : list T).

Lemma live_count_cells elems cap : live_count (cells elems cap) = length elems.
Proof.
  unfold cells.
  rewrite live_count_app, live_count_Live, live_count_replicate_Raw. lia.
Qed.

(** Two valid vectors that point at one block have the same size and the
    same capacity. *)
Lemma cells_same_block xs ys ca cb :
  length xs <= ca -> length ys <= cb ->
  cells xs ca = cells ys cb -> length xs = length ys /\ ca = cb.
Proof.
  intros Hx Hy Heq. split.
  - rewrite <- (live_count_cells xs ca), <- (live_count_cells ys cb).
    by rewrite Heq.
  - rewrite <- (cells_length xs ca Hx), <- (cells_length ys cb Hy).
    by rewrite Heq.
Qed.

Lemma Swap_distinct s this other V O :
  objs s !! this = Some V -> objs s !! other = Some O ->
  buffer_ (data_ V) <> buffer_ (data_ O) ->
  Swap this other s
  = Ok tt (set_objs (<[other := V]> (<[this := O]> (objs s))) s).
Proof.
  intros HV HO Hne. unfold Swap.
  rewrite (bind_Ok _ _ _ _ _ (get_vec_Ok _ _ _ HV)).
  rewrite (bind_Ok _ _ _ _ _ (get_vec_Ok _ _ _ HO)).
  unfold ptr_eqb, GetAddress. rewrite bool_decide_eq_false_2 by exact Hne.
  destruct V as [[p c] n], O as [[q d] m]. reflexivity.
Qed.

Lemma Swap_same_block s this other V O :
  objs s !! this = Some V -> objs s !! other = Some O ->
  buffer_ (data_ V) = buffer_ (data_ O) ->
  Swap this other s = Ok tt s.
Proof.
  intros HV HO Heq. unfold Swap.
  rewrite (bind_Ok _ _ _ _ _ (get_vec_Ok _ _ _ HV)).
  rewrite (bind_Ok _ _ _ _ _ (get_vec_Ok _ _ _ HO)).
  unfold ptr_eqb, GetAddress. rewrite bool_decide_eq_true_2 by exact Heq.
  reflexivity.
Qed.

(** X20. [Swap] exchanges the elements, sizes and capacities of two
    valid vectors without touching an element or a block; a second [Swap]
    restores the state. *)
Theorem swap_exchanges_contents s this other xs ca ys cb :
  owns s this xs ca ->
  owns s other ys cb ->
  this <> other ->
  exists s',
    Swap this other s = Ok tt s' /\
    owns s' this ys cb /\
    owns s' other xs ca /\
    heap s' = heap s /\
    leaked s' = leaked s /\
    (forall u, u <> this -> u <> other -> objs s' !! u = objs s !! u) /\
    Swap this other s' = Ok tt s.
Proof.
  intros Hx Hy Hne.
  destruct (owns_inv _ _ _ _ Hx) as (p & HV & Hlx & Hrx & Hp).
  destruct (owns_inv _ _ _ _ Hy) as (q & HO & Hly & Hry & Hq).
  destruct (decide (p = q)) as [<-|Hpq].
  - exists s.
    pose proof (Swap_same_block s this other _ _ HV HO eq_refl) as Hsw.
    assert (Hsame : length xs = length ys /\ ca = cb).
    { destruct p as [a|].
      - destruct Hp as [_ Ha], Hq as [_ Hb]. rewrite Ha in Hb.
        injection Hb as Hb. by apply cells_same_block.
      - subst ca cb. split; [lia | reflexivity]. }
    destruct Hsame as [Hlen <-].
    split; [exact Hsw|]. split; [|split; [|done]].
    + eapply owns_intro; [rewrite <- Hlen; exact HV | lia | exact Hrx |].
      destruct p as [a|]; [|exact Hp]. exact Hq.
    + eapply owns_intro; [rewrite Hlen; exact HO | lia | exact Hrx |].
      destruct p as [a|]; [|exact Hp]. exact Hp.
  - eexists.
    split; [apply (Swap_distinct s this other _ _ HV HO); exact Hpq|].
    split; [|split; [|split; [reflexivity|split; [reflexivity|split]]]].
    + eapply owns_intro; [| exact Hly | exact Hry | exact Hq].
      simpl. rewrite lookup_insert_ne by done. apply lookup_insert_eq.
    + eapply owns_intro; [| exact Hlx | exact Hrx | exact Hp].
      simpl. apply lookup_insert_eq.
    + intros u Hu1 Hu2. simpl. by rewrite !lookup_insert_ne.
    + rewrite (Swap_distinct _ this other
                 (mkVector (mkRawMemory q cb) (length ys))
                 (mkVector (mkRawMemory p ca) (length xs))).
      * simpl. unfold set_objs. simpl. f_equal.
        rewrite <- (state_eta s) at 4. f_equal.
        apply map_eq. intros u.
        rewrite !lookup_insert. repeat case_decide; subst; congruence.
      * simpl. rewrite lookup_insert_ne by done. apply lookup_insert_eq.
      * simpl. apply lookup_insert_eq.
      * simpl. congruence.
Qed.

End Exchange.

(** ** Copy assignment *)

Section CopyAssignment.
Context {T : Type} `{ET : Element T}.

Implicit Types (s : state T) (a b : addr) (v x : T) (vs ws xs ys elems : list T).

(** [std::copy] from one block over live objects of another. *)
Lemma copy_loop_ok vs :
  forall s sa da spre spost dpre ws dpost first dfirst,
  sa <> da ->
  heap s !! sa = Some (spre ++ (Live <$> vs) ++ spost) ->
  heap s !! da = Some (dpre ++ (Live <$> ws) ++ dpost) ->
  length ws = length vs ->
  length spre = first -> length dpre = dfirst ->
  Forall (fun v => copy_assign_throws v = false) vs ->
  copy_loop (Some sa) first (Some da) dfirst (length vs) s
  = Ok tt (set_heap (<[da := dpre ++ (Live <$> vs) ++ dpost]> (heap s)) s).
Proof.
  induction vs as [|v vs IH];
    intros s sa da spre spost dpre ws dpost first dfirst Hne Hs Hd Hlen Hsl Hdl Hok.
  - destruct ws; [|done]. simpl in *. unfold ret. f_equal.
    symmetry. by apply state_unchanged.
  - destruct ws as [|w ws]; [done|]. simpl in *.
    inversion Hok as [|? ? Hv Hok']; subst.
    erewrite bind_Ok.
    2:{ unfold copy_assign_cell.
        erewrite bind_Ok;
          [| eapply read_cell_Live; [exact Hs | by apply lookup_split]].
        rewrite Hv.
        eapply assign_cell_Live; [exact Hd | by apply lookup_split]. }
    rewrite insert_split by done.
    erewrite (IH _ sa da (spre ++ [Live v]) spost (dpre ++ [Live v]) ws dpost).
    + simpl. rewrite set_heap_set_heap, insert_insert_eq, <- app_assoc.
      reflexivity.
    + exact Hne.
    + simpl. rewrite lookup_insert_ne by done. rewrite Hs, <- app_assoc. done.
    + simpl. rewrite lookup_insert_eq, <- app_assoc. done.
    + lia.
    + rewrite length_app. simpl. lia.
    + rewrite length_app. simpl. lia.
    + exact Hok'.
Qed.


Lemma fresh_object s : objs s !! fresh (dom (objs s)) = None.
Proof. apply not_elem_of_dom, is_fresh. Qed.

(** The source has more elements than the target has room for: a copy is
    constructed, exchanged with the target and destroyed with the target's
    old elements. *)
Lemma Vector_copy_assign_realloc s this rhs p xs ca ys cb :
  objs s !! this = Some (mkVector (mkRawMemory p ca) (length xs)) ->
  match p with
  | None => ca = 0
  | Some a => ca <> 0 /\ heap s !! a = Some (cells xs ca)
  end ->
  length xs <= ca ->
  owns s rhs ys cb ->
  this <> rhs ->
  ca < length ys ->
  Forall (fun y => copy_throws y = false) ys ->
  exists da,
    heap s !! da = None /\
    Vector_copy_assign this rhs s
    = Ok tt (mkState (<[da := cells ys (length ys)]> (released p (heap s)))
                     (<[this := mkVector (mkRawMemory (Some da) (length ys))
                                         (length ys)]> (objs s))
                     (leaked s)).
Proof.
  intros Hobj Hp Hle Hy Hne Hlt Hok.
  destruct (owns_inv _ _ _ _ Hy) as (q & HR & Hly & Hry & Hq).
  destruct (Vector_copy_ctor_spec s (fresh (dom (objs s))) rhs ys cb Hy Hok)
    as (p' & Hp' & Hcopy).
  destruct p' as [da|]; [|subst ys; simpl in Hlt; lia].
  destruct Hp' as [Hys Hda].
  exists da. split; [exact Hda|].
  set (w := fresh (dom (objs s))) in *.
  assert (Hw : objs s !! w = None) by apply fresh_object.
  assert (Hwt : w <> this) by (intros Heq; rewrite Heq, Hobj in Hw; done).
  unfold Vector_copy_assign.
  rewrite bool_decide_eq_true_2 by exact Hne.
  rewrite (bind_Ok _ _ _ _ _ (get_vec_Ok _ _ _ Hobj)).
  rewrite (bind_Ok _ _ _ _ _ (get_vec_Ok _ _ _ HR)).
  unfold Capacity, RawMemory_Capacity. simpl.
  destruct (Nat.ltb_spec ca (length ys)) as [_|]; [|lia].
  unfold new_local at 1. unfold bind at 1. fold w.
  rewrite (bind_Ok _ _ _ _ _ Hcopy).
  set (O := mkVector (mkRawMemory (Some da) (length ys)) (length ys)).
  set (V := mkVector (mkRawMemory p ca) (length xs)) in *.
  assert (Hpda : p <> Some da).
  { intros ->. destruct Hp as [_ Ha]. congruence. }
  erewrite bind_Ok.
  2:{ apply (Swap_distinct _ this w V O).
      - simpl. rewrite lookup_insert_ne by done. exact Hobj.
      - simpl. apply lookup_insert_eq.
      - exact Hpda. }
  rewrite (Vector_dtor_spec _ w p xs ca).
  - simpl. f_equal. f_equal.
    + destruct p as [a|]; [|reflexivity]. simpl.
      apply delete_insert_ne. congruence.
    + apply map_eq. intros u.
      rewrite lookup_delete, !lookup_insert.
      repeat case_decide; subst; congruence.
  - simpl. apply lookup_insert_eq.
  - destruct p as [a|]; [|exact Hp]. destruct Hp as [Hc Ha].
    split; [exact Hc|]. simpl.
    rewrite lookup_insert_ne by congruence. exact Ha.
  - exact Hle.
Qed.


(** The source fits into the target's block: the elements both have are
    assigned, the others are constructed or destroyed. *)
Lemma Vector_copy_assign_in_place s this rhs p xs ca ys cb :
  objs s !! this = Some (mkVector (mkRawMemory p ca) (length xs)) ->
  match p with
  | None => ca = 0
  | Some a => ca <> 0 /\ heap s !! a = Some (cells xs ca)
  end ->
  length xs <= ca ->
  owns s rhs ys cb ->
  this <> rhs ->
  (forall R, objs s !! rhs = Some R -> p = None \/ p <> buffer_ (data_ R)) ->
  length ys <= ca ->
  Forall (fun y => copy_throws y = false) ys ->
  Forall (fun y => copy_assign_throws y = false) ys ->
  Vector_copy_assign this rhs s
  = Ok tt (mkState (match p with
                    | Some a => <[a := cells ys ca]> (heap s)
                    | None => heap s
                    end)
                   (<[this := mkVector (mkRawMemory p ca) (length ys)]> (objs s))
                   (leaked s)).
Proof.
  intros Hobj Hp Hle Hy Hne Hsep Hfit Hokc Hoka.
  destruct (owns_inv _ _ _ _ Hy) as (q & HR & Hly & Hry & Hq).
  unfold Vector_copy_assign.
  rewrite bool_decide_eq_true_2 by exact Hne.
  rewrite (bind_Ok _ _ _ _ _ (get_vec_Ok _ _ _ Hobj)).
  rewrite (bind_Ok _ _ _ _ _ (get_vec_Ok _ _ _ HR)).
  unfold Capacity, RawMemory_Capacity, GetAddress. simpl.
  destruct (Nat.ltb_spec ca (length ys)) as [|_]; [lia|].
  destruct p as [a|].
  2:{ assert (ys = []) as -> by (destruct ys; [done | simpl in *; lia]).
      assert (xs = []) as -> by (destruct xs; [done | simpl in *; lia]).
      reflexivity. }
  destruct Hp as [Hc Ha].
  destruct (Nat.ltb_spec (length xs) (length ys)) as [Hlt|Hge].
  - (* the source is longer *)
    destruct q as [b|]; [|lia]. destruct Hq as [Hcb Hb].
    assert (Hab : b <> a).
    { destruct (Hsep _ HR) as [|Hd]; [done|]. simpl in Hd. congruence. }
    unfold std_copy. rewrite Nat.sub_0_r.
    assert (Hsplit : cells ys cb
              = [] ++ (Live <$> take (length xs) ys)
                   ++ ((Live <$> drop (length xs) ys)
                         ++ replicate (cb - length ys) Raw)).
    { unfold cells. rewrite <- (take_drop (length xs) ys) at 1.
      rewrite fmap_app, <- app_assoc. reflexivity. }
    pose proof (copy_loop_ok (take (length xs) ys) s b a []
                  ((Live <$> drop (length xs) ys) ++ replicate (cb - length ys) Raw)
                  [] xs (replicate (ca - length xs) Raw) 0 0 Hab) as Hcopy.
    rewrite length_take_le in Hcopy by lia.
    rewrite Hsplit in Hb.
    specialize (Hcopy Hb Ha eq_refl eq_refl eq_refl).
    erewrite bind_Ok.
    2:{ erewrite bind_Ok.
        2:{ apply Hcopy. by apply Forall_take. }
        rewrite size_sub_le by lia.
        unfold uninitialized_copy_n.
        pose proof (uninitialized_copy_loop_ok (drop (length xs) ys)
                      (set_heap (<[a := [] ++ (Live <$> take (length xs) ys)
                                          ++ replicate (ca - length xs) Raw]>
                                   (heap s)) s)
                      b a (Live <$> take (length xs) ys)
                      (replicate (cb - length ys) Raw)
                      (Live <$> take (length xs) ys)
                      (replicate (ca - length ys) Raw)
                      (length xs) (length xs) 0 Hab) as Hun.
        rewrite length_drop in Hun.
        apply Hun.
        - simpl. rewrite lookup_insert_ne by done. exact Hb.
        - simpl. rewrite lookup_insert_eq. rewrite <- replicate_add.
          do 3 f_equal. lia.
        - rewrite length_fmap, length_take_le by lia. lia.
        - rewrite length_fmap, length_take_le by lia. lia.
        - by apply Forall_drop. }
    rewrite set_heap_set_heap. simpl heap. rewrite insert_insert_eq.
    unfold set_vec, set_objs, set_heap. simpl. do 3 f_equal.
    unfold cells. rewrite app_assoc, <- fmap_app, take_drop. reflexivity.
  - (* the source is not longer *)
    unfold std_copy. rewrite Nat.sub_0_r.
    assert (Hcopy :
      copy_loop q 0 (Some a) 0 (length ys) s
      = Ok tt (set_heap (<[a := (Live <$> ys) ++ (Live <$> drop (length ys) xs)
                                  ++ replicate (ca - length xs) Raw]> (heap s)) s)).
    { assert (Hdst : cells xs ca
                = [] ++ (Live <$> take (length ys) xs)
                     ++ ((Live <$> drop (length ys) xs)
                           ++ replicate (ca - length xs) Raw)).
      { unfold cells. rewrite <- (take_drop (length ys) xs) at 1.
        rewrite fmap_app, <- app_assoc. reflexivity. }
      rewrite Hdst in Ha.
      destruct q as [b|].
      - destruct Hq as [Hcb Hb].
        assert (Hab : b <> a).
        { destruct (Hsep _ HR) as [|Hd]; [done|]. simpl in Hd. congruence. }
        apply (copy_loop_ok ys s b a [] (replicate (cb - length ys) Raw) []
                 (take (length ys) xs) _ 0 0 Hab Hb Ha);
          [by rewrite length_take_le by lia | reflexivity | reflexivity | exact Hoka].
      - assert (ys = []) as -> by (destruct ys; [done | simpl in *; lia]).
        simpl. unfold ret. f_equal. symmetry.
        apply state_unchanged. exact Ha. }
    destruct (Nat.ltb_spec (length ys) (length xs)) as [Hlt|Hge'].
    + erewrite bind_Ok.
      2:{ rewrite (bind_Ok _ _ _ _ _ Hcopy).
          rewrite size_sub_le by lia.
          pose proof (destroy_n_Live (drop (length ys) xs)
                        (set_heap (<[a := (Live <$> ys)
                                           ++ (Live <$> drop (length ys) xs)
                                           ++ replicate (ca - length xs) Raw]>
                                     (heap s)) s)
                        a (Live <$> ys) (replicate (ca - length xs) Raw)
                        (length ys)) as Hd.
          rewrite length_drop in Hd. apply Hd.
          - simpl. apply lookup_insert_eq.
          - by rewrite length_fmap. }
      unfold set_vec, set_objs, set_heap. simpl.
      rewrite insert_insert_eq. do 3 f_equal.
      unfold cells. rewrite <- replicate_add. do 2 f_equal. lia.
    + erewrite bind_Ok.
      2:{ rewrite (bind_Ok _ _ _ _ _ Hcopy). reflexivity. }
      unfold set_vec, set_objs, set_heap. simpl.
      do 3 f_equal. unfold cells.
      rewrite drop_ge by lia. simpl. do 2 f_equal. lia.
Qed.


(** X21. Copy assignment between two valid vectors that do not share a
    block gives the target the elements of the source in their order and
    leaves the source and every other object alone; nothing is leaked.
    When the source fits into the target, the target keeps its block and
    its capacity, and that block is the only one that changes.  Otherwise
    the old block of the target is given back and the target is in a block
    of exactly the source's size that was not in use: the heap is the old
    one without the old block and with the new one. *)
Theorem copy_assignment_copies s this rhs xs ca ys cb :
  owns s this xs ca ->
  owns s rhs ys cb ->
  this <> rhs ->
  isolated s this ->
  Forall (fun y => copy_throws y = false) ys ->
  Forall (fun y => copy_assign_throws y = false) ys ->
  exists s',
    Vector_copy_assign this rhs s = Ok tt s' /\
    owns s' this ys (if ca <? length ys then length ys else ca) /\
    owns s' rhs ys cb /\
    leaked s' = leaked s /\
    (length ys <= ca ->
     forall V V', objs s !! this = Some V -> objs s' !! this = Some V' ->
                  data_ V' = data_ V) /\
    (forall u, u <> this -> objs s' !! u = objs s !! u) /\
    forall V, objs s !! this = Some V ->
      (length ys <= ca ->
       objs s' !! this = Some (mkVector (data_ V) (length ys)) /\
       heap s' = housed (heap s) (GetAddress (data_ V)) (cells ys ca)) /\
      (ca < length ys ->
       exists a',
         heap s !! a' = None /\
         objs s' !! this
         = Some (mkVector (mkRawMemory (Some a') (length ys)) (length ys)) /\
         heap s'
         = <[a' := cells ys (length ys)]>
             (released (GetAddress (data_ V)) (heap s)) /\
         forall a, GetAddress (data_ V) = Some a -> heap s' !! a = None).
Proof.
  intros Hx Hy Hne Hiso Hokc Hoka.
  destruct (owns_inv _ _ _ _ Hx) as (p & HV & Hlx & Hrx & Hp).
  destruct (owns_inv _ _ _ _ Hy) as (q & HR & Hly & Hry & Hq).
  assert (Hsep : forall b, q = Some b -> p <> Some b).
  { intros b ->. apply (Hiso _ rhs _ b HV (not_eq_sym Hne) HR eq_refl). }
  destruct (Nat.ltb_spec ca (length ys)) as [Hlt|Hge].
  - destruct (Vector_copy_assign_realloc s this rhs p xs ca ys cb
                HV Hp Hlx Hy Hne Hlt Hokc) as (da & Hda & Hassign).
    eexists. split; [exact Hassign|].
    split; [|split; [|split; [reflexivity | split; [lia | split]]]].
    + eapply owns_intro.
      * simpl. apply lookup_insert_eq.
      * lia.
      * eapply representable_le; [exact Hly | exact Hry].
      * split; [lia|]. simpl. apply lookup_insert_eq.
    + eapply owns_intro; [| exact Hly | exact Hry |].
      * simpl. rewrite lookup_insert_ne by done. exact HR.
      * destruct q as [b|]; [|exact Hq]. destruct Hq as [Hcb Hb].
        split; [exact Hcb|]. simpl.
        rewrite lookup_insert_ne by congruence.
        destruct p as [a|]; [|exact Hb]. simpl.
        rewrite lookup_delete_ne; [exact Hb|].
        intros ->. by apply (Hsep b).
    + intros u Hu. simpl.
      by rewrite lookup_insert_ne by (apply not_eq_sym; exact Hu).
    + intros V HV0. rewrite HV in HV0. injection HV0 as <-.
      split; [lia|]. intros _. exists da.
      split; [exact Hda|]. split; [simpl; apply lookup_insert_eq|].
      split; [reflexivity|].
      intros a Ha. unfold GetAddress in Ha. simpl in Ha. subst p.
      destruct Hp as [_ Hblk]. simpl.
      rewrite lookup_insert_ne by congruence.
      apply lookup_delete_eq.
  - eexists. split.
    { apply (Vector_copy_assign_in_place s this rhs p xs ca ys cb
               HV Hp Hlx Hy Hne); [| exact Hge | exact Hokc | exact Hoka].
      intros R HR'. rewrite HR in HR'. injection HR' as <-. simpl.
      destruct p as [a|]; [right | by left].
      destruct q as [b|]; [|done]. by apply Hsep. }
    split; [|split; [|split; [reflexivity|split; [|split]]]].
    + eapply owns_intro; [| exact Hge | exact Hrx |].
      * simpl. apply lookup_insert_eq.
      * destruct p as [a|]; [|exact Hp]. destruct Hp as [Hc _].
        split; [exact Hc|]. simpl. apply lookup_insert_eq.
    + eapply owns_intro; [| exact Hly | exact Hry |].
      * simpl. rewrite lookup_insert_ne by done. exact HR.
      * destruct q as [b|]; [|exact Hq]. destruct Hq as [Hcb Hb].
        split; [exact Hcb|]. simpl.
        destruct p as [a|]; [|exact Hb].
        rewrite lookup_insert_ne; [exact Hb|].
        intros ->. by apply (Hsep b).
    + intros _ V V' HV0. simpl. rewrite lookup_insert_eq.
      rewrite HV in HV0. injection HV0 as <-. by intros [= <-].
    + intros u Hu. simpl.
      by rewrite lookup_insert_ne by (apply not_eq_sym; exact Hu).
    + intros V HV0. rewrite HV in HV0. injection HV0 as <-.
      split; [|lia]. intros _.
      split; [simpl; apply lookup_insert_eq | reflexivity].
Qed.


(** X22. Copying is all or nothing where a new block is filled: when the
    copy of an element throws, the copy constructor leaves the state as it
    was, and so does a copy assignment whose source has more elements than
    the target has room for. *)
Theorem copy_failure_leaves_state s rhs vs1 v vs2 cb :
  owns s rhs (vs1 ++ v :: vs2) cb ->
  Forall (fun x => copy_throws x = false) vs1 ->
  copy_throws v = true ->
  (forall this, Vector_copy_ctor this rhs s = Throw s) /\
  (forall this xs ca,
     owns s this xs ca -> this <> rhs ->
     ca < length (vs1 ++ v :: vs2) ->
     Vector_copy_assign this rhs s = Throw s).
Proof.
  intros Hy Hok Hv. split.
  - intros this. by eapply Vector_copy_ctor_throws.
  - intros this xs ca Hx Hne Hlt.
    destruct (owns_inv _ _ _ _ Hx) as (p & HV & _).
    destruct (owns_inv _ _ _ _ Hy) as (q & HR & _).
    unfold Vector_copy_assign.
    rewrite bool_decide_eq_true_2 by exact Hne.
    rewrite (bind_Ok _ _ _ _ _ (get_vec_Ok _ _ _ HV)).
    rewrite (bind_Ok _ _ _ _ _ (get_vec_Ok _ _ _ HR)).
    unfold Capacity, RawMemory_Capacity. simpl.
    destruct (Nat.ltb_spec ca (length (vs1 ++ v :: vs2))) as [_|]; [|lia].
    unfold new_local at 1. unfold bind at 1.
    apply bind_Throw. by eapply Vector_copy_ctor_throws.
Qed.


(** [std::copy] when the copy assignment throws on [v]: the objects in
    front of it have been assigned, the others are as they were. *)
Lemma copy_loop_throws vs1 :
  forall s sa da spre spost dpre ws1 w ws2 dpost first dfirst v vs2,
  sa <> da ->
  heap s !! sa = Some (spre ++ (Live <$> (vs1 ++ v :: vs2)) ++ spost) ->
  heap s !! da = Some (dpre ++ (Live <$> (ws1 ++ w :: ws2)) ++ dpost) ->
  length ws1 = length vs1 ->
  length spre = first -> length dpre = dfirst ->
  Forall (fun u => copy_assign_throws u = false) vs1 ->
  copy_assign_throws v = true ->
  copy_loop (Some sa) first (Some da) dfirst (length vs1 + S (length vs2)) s
  = Throw (set_heap (<[da := dpre ++ (Live <$> (vs1 ++ w :: ws2)) ++ dpost]>
                       (heap s)) s).
Proof.
  induction vs1 as [|u vs1 IH];
    intros s sa da spre spost dpre ws1 w ws2 dpost first dfirst v vs2
           Hne Hs Hd Hlen Hsl Hdl Hok Hv.
  - destruct ws1; [|done]. simpl in *.
    apply bind_Throw. unfold copy_assign_cell.
    erewrite bind_Ok;
      [| eapply read_cell_Live; [exact Hs | by apply lookup_split]].
    rewrite Hv. unfold throw. f_equal. symmetry. by apply state_unchanged.
  - destruct ws1 as [|w1 ws1]; [done|]. simpl in *.
    inversion Hok as [|? ? Hu Hok']; subst.
    erewrite bind_Ok.
    2:{ unfold copy_assign_cell.
        erewrite bind_Ok;
          [| eapply read_cell_Live; [exact Hs | by apply lookup_split]].
        rewrite Hu.
        eapply assign_cell_Live; [exact Hd | by apply lookup_split]. }
    rewrite insert_split by done.
    erewrite (IH _ sa da (spre ++ [Live u]) spost (dpre ++ [Live u]) ws1 w ws2 dpost).
    + simpl. rewrite set_heap_set_heap, insert_insert_eq, <- app_assoc.
      reflexivity.
    + exact Hne.
    + simpl. rewrite lookup_insert_ne by done. rewrite Hs, <- app_assoc. done.
    + simpl. rewrite lookup_insert_eq, <- app_assoc. done.
    + lia.
    + rewrite length_app. simpl. lia.
    + rewrite length_app. simpl. lia.
    + exact Hok'.
    + exact Hv.
Qed.

(** X23. Where copy assignment reuses the target's block it has no
    rollback.  When the copy assignment of [T] throws on an element that
    both vectors have, the exception leaves the target valid with its size
    and capacity, but its elements in front of that index are already those
    of the source; the source is unchanged and nothing is leaked. *)
Theorem copy_assignment_failure_in_place s this rhs xs1 x xs2 ca ys1 y ys2 cb :
  owns s this (xs1 ++ x :: xs2) ca ->
  owns s rhs (ys1 ++ y :: ys2) cb ->
  this <> rhs ->
  isolated s this ->
  length (ys1 ++ y :: ys2) <= ca ->
  length xs1 = length ys1 ->
  Forall (fun u => copy_assign_throws u = false) ys1 ->
  copy_assign_throws y = true ->
  exists s',
    Vector_copy_assign this rhs s = Throw s' /\
    owns s' this (ys1 ++ x :: xs2) ca /\
    owns s' rhs (ys1 ++ y :: ys2) cb /\
    objs s' = objs s /\
    leaked s' = leaked s.
Proof.
  intros Hx Hy Hne Hiso Hfit Hlen Hok Hthrow.
  destruct (owns_inv _ _ _ _ Hx) as (p & HV & Hlx & Hrx & Hp).
  destruct (owns_inv _ _ _ _ Hy) as (q & HR & Hly & Hry & Hq).
  set (xs := xs1 ++ x :: xs2) in *. set (ys := ys1 ++ y :: ys2) in *.
  assert (Hxl : length xs = length xs1 + S (length xs2))
    by (unfold xs; rewrite length_app; reflexivity).
  assert (Hyl : length ys = length ys1 + S (length ys2))
    by (unfold ys; rewrite length_app; reflexivity).
  destruct p as [a|]; [|lia]. destruct Hp as [Hca Ha].
  destruct q as [b|]; [|lia]. destruct Hq as [Hcb Hb].
  assert (Hab : b <> a).
  { intros ->. by apply (Hiso _ rhs _ a HV (not_eq_sym Hne) HR eq_refl). }
  set (k := Nat.min (length xs) (length ys)).
  (* the range [std::copy] runs over, in both branches *)
  assert (Hcopy :
    copy_loop (Some b) 0 (Some a) 0 k s
    = Throw (set_heap (<[a := cells (ys1 ++ x :: xs2) ca]> (heap s)) s)).
  { assert (Hk : k = length ys1 + S (k - S (length ys1))) by (unfold k; lia).
    rewrite Hk.
    assert (Hsrc : cells ys cb
              = [] ++ (Live <$> (ys1 ++ y :: take (k - S (length ys1)) ys2))
                   ++ ((Live <$> drop (k - S (length ys1)) ys2)
                         ++ replicate (cb - length ys) Raw)).
    { unfold cells, ys. simpl.
      rewrite <- (take_drop (k - S (length ys1)) ys2) at 1.
      rewrite !fmap_app, !fmap_cons, !fmap_app.
      rewrite <- !app_assoc, <- !app_comm_cons, <- !app_assoc. reflexivity. }
    assert (Hdst : cells xs ca
              = [] ++ (Live <$> (xs1 ++ x :: xs2))
                   ++ replicate (ca - length xs) Raw) by reflexivity.
    rewrite Hsrc in Hb. rewrite Hdst in Ha.
    pose proof (copy_loop_throws ys1 s b a [] _ [] xs1 x xs2 _ 0 0 y
                  (take (k - S (length ys1)) ys2) Hab Hb Ha Hlen eq_refl eq_refl
                  Hok Hthrow) as Hc.
    rewrite length_take_le in Hc by (unfold k; lia).
    rewrite Hc. do 3 f_equal. unfold cells. simpl.
    do 3 f_equal. unfold xs. rewrite !length_app. simpl. lia. }
  exists (set_heap (<[a := cells (ys1 ++ x :: xs2) ca]> (heap s)) s).
  assert (Hlen' : length (ys1 ++ x :: xs2) = length xs).
  { unfold xs. rewrite !length_app. simpl. lia. }
  split; [|split; [|split; [|done]]].
  - unfold Vector_copy_assign.
    rewrite bool_decide_eq_true_2 by exact Hne.
    rewrite (bind_Ok _ _ _ _ _ (get_vec_Ok _ _ _ HV)).
    rewrite (bind_Ok _ _ _ _ _ (get_vec_Ok _ _ _ HR)).
    unfold Capacity, RawMemory_Capacity, GetAddress. simpl.
    destruct (Nat.ltb_spec ca (length ys)) as [|_]; [lia|].
    apply bind_Throw. unfold std_copy. rewrite !Nat.sub_0_r.
    destruct (Nat.ltb_spec (length xs) (length ys)) as [Hlt|Hge].
    + apply bind_Throw.
      replace (length xs) with k by (unfold k; lia). exact Hcopy.
    + apply bind_Throw.
      replace (length ys) with k by (unfold k; lia). exact Hcopy.
  - eapply owns_intro.
    + simpl. rewrite Hlen'. exact HV.
    + lia.
    + exact Hrx.
    + split; [exact Hca|]. simpl. apply lookup_insert_eq.
  - eapply owns_intro; [exact HR | exact Hly | exact Hry |].
    split; [exact Hcb|]. simpl. rewrite lookup_insert_ne by done. exact Hb.
Qed.

End CopyAssignment.

(** ** Exceptions in the paths that work in place *)

Section Failures.
Context {T : Type} `{ET : Element T}.

Implicit Types (s : state T) (a : addr) (v x y z : T) (vs xs elems pre : list T).

Lemma move_loop_app n1 : forall p first q dfirst n2 s,
  move_loop p first q dfirst (n1 + n2) s
  = (move_loop p first q dfirst n1 ;;
     move_loop p (first + n1) q (dfirst + n1) n2) s.
Proof.
  induction n1 as [|n1 IH]; intros p first q dfirst n2 s.
  - simpl. rewrite bind_ret_l, !Nat.add_0_r. reflexivity.
  - replace (first + S n1) with (S first + n1) by lia.
    replace (dfirst + S n1) with (S dfirst + n1) by lia.
    simpl. unfold bind.
    destruct (move_assign_cell p first q dfirst s) as [[] s1|s1|e]; [|done..].
    apply IH.
Qed.

(** [Emplace] when the constructor of the new element throws. *)
Lemma Emplace_constructor_throws s this p elems cap i :
  objs s !! this = Some (mkVector (mkRawMemory p cap) (length elems)) ->
  length elems <= cap ->
  i <= length elems ->
  representable (2 * (length elems + 1)) ->
  Emplace this (mkIter p i) None s = Throw s.
Proof.
  intros Hobj Hle Hi Hrep. unfold Emplace.
  rewrite (bind_Ok _ _ _ _ _ (get_vec_Ok _ _ _ Hobj)).
  erewrite bind_Ok; [| apply iter_diff_begin; reflexivity].
  unfold Capacity, RawMemory_Capacity, GetAddress. simpl.
  destruct (Nat.ltb_spec (length elems) cap) as [Hlt|Hge].
  - destruct (negb _); reflexivity.
  - rewrite size_add_small by (eapply representable_le; [|exact Hrep]; lia).
    rewrite size_mul_small by (eapply representable_le; [|exact Hrep]; lia).
    erewrite bind_Ok; [| apply RawMemory_ctor_Ok; lia].
    apply bind_Throw. eapply on_unwind_Throw; [reflexivity|].
    unfold RawMemory_dtor. cbn [buffer_].
    erewrite Deallocate_Ok by (simpl; apply lookup_insert_eq).
    unfold add_leaked, set_heap. simpl.
    rewrite delete_insert_id by apply fresh_block.
    rewrite live_count_replicate_Raw, Nat.add_0_r.
    destruct s; reflexivity.
Qed.

(** X24. When the constructor of the new element throws, [EmplaceBack],
    [PushBack], [Emplace] and [Insert] leave the state as they found it,
    with or without spare capacity and at every position. *)
Theorem constructor_failure_leaves_state s this V elems cap i :
  owns s this elems cap ->
  objs s !! this = Some V ->
  i <= length elems ->
  representable (2 * (length elems + 1)) ->
  EmplaceBack this None s = Throw s /\
  Emplace this (std_next (begin V) i) None s = Throw s /\
  forall x rvalue,
    forwarded x rvalue = None ->
    PushBack this x rvalue s = Throw s /\
    Insert this (std_next (begin V) i) x rvalue s = Throw s.
Proof.
  intros Hown HV Hi Hrep.
  destruct (owns_inv _ _ _ _ Hown) as (p & Hobj & Hle & Hrc & Hp).
  rewrite Hobj in HV. injection HV as <-.
  pose proof (EmplaceBack_constructor_throws s this elems cap Hown Hrep) as HB.
  pose proof (Emplace_constructor_throws s this p elems cap i Hobj Hle Hi Hrep)
    as HE.
  split; [exact HB|]. split; [exact HE|].
  intros x rvalue Hfw. split.
  - unfold PushBack. rewrite Hfw. by apply bind_Throw.
  - unfold Insert. rewrite Hfw. exact HE.
Qed.


(** [Erase] when the move assignment throws on [v], an element after the
    erased one: the elements between the two have moved one cell to the
    left, and the cell in front of [v] holds what the last move left. *)
Lemma Erase_throws s this a pre y xs v suf cap :
  objs s !! this
  = Some (mkVector (mkRawMemory (Some a) cap)
                   (length (pre ++ y :: xs ++ v :: suf))) ->
  heap s !! a = Some (cells (pre ++ y :: xs ++ v :: suf) cap) ->
  Forall (fun u => move_assign_throws u = false) xs ->
  move_assign_throws v = true ->
  exists z,
    Erase this (mkIter (Some a) (length pre)) s
    = Throw (set_heap (<[a := cells (pre ++ xs ++ z :: v :: suf) cap]> (heap s)) s) /\
    (xs = [] -> z = y).
Proof.
  intros Hobj Ha Hok Hv.
  set (n := length (pre ++ y :: xs ++ v :: suf)) in *.
  assert (Hn : n = length pre + S (length xs + S (length suf))).
  { unfold n. rewrite !length_app. simpl. rewrite length_app. simpl. lia. }
  assert (Hblk : cells (pre ++ y :: xs ++ v :: suf) cap
            = (Live <$> pre) ++ Live y :: (Live <$> xs)
                ++ (Live v :: (Live <$> suf) ++ replicate (cap - n) Raw)).
  { unfold cells. fold n. rewrite !fmap_app. simpl. rewrite fmap_app. simpl.
    rewrite <- !app_assoc. simpl. rewrite <- !app_assoc. reflexivity. }
  rewrite Hblk in Ha.
  destruct (move_loop_shift xs s a (Live <$> pre) y
              (Live v :: (Live <$> suf) ++ replicate (cap - n) Raw)
              (S (length pre)) (length pre) Ha)
    as [z Hz]; [by rewrite length_fmap | by rewrite length_fmap | exact Hok |].
  exists z. split.
  2:{ intros ->. simpl in Hz. unfold ret in Hz. injection Hz as Hz.
      apply (f_equal (fun st => heap st !! a)) in Hz. simpl in Hz.
      rewrite lookup_insert_eq, Ha in Hz. simpl in Hz.
      injection Hz as Hz. apply app_inv_head in Hz. by injection Hz as ->. }
  unfold Erase.
  rewrite (bind_Ok _ _ _ _ _ (get_vec_Ok _ _ _ Hobj)).
  erewrite bind_Ok; [| apply iter_diff_begin; reflexivity].
  simpl size_. rewrite Hn.
  replace (length pre + S (length xs + S (length suf)))
    with (S (length pre + (length xs + S (length suf)))) by lia.
  unfold offset_before at 1. rewrite bind_ret_l.
  unfold iter_eqb, ptr_eqb, GetAddress. simpl.
  rewrite bool_decide_eq_true_2 by reflexivity. simpl.
  destruct (Nat.eqb_spec (length pre) (length pre + (length xs + S (length suf))))
    as [|_]; [lia|]. simpl.
  apply bind_Throw.
  unfold std_move.
  replace (S (length pre + (length xs + S (length suf))) - (length pre + 1))
    with (length xs + S (length suf)) by lia.
  rewrite move_loop_app.
  replace (length pre + 1) with (S (length pre)) by lia.
  rewrite (bind_Ok _ _ _ _ _ Hz).
  assert (Hthrow : forall s0 l,
            heap s0 !! a = Some ((Live <$> pre) ++ (Live <$> xs) ++ l
                                   :: Live v :: (Live <$> suf)
                                   ++ replicate (cap - n) Raw) ->
            move_loop (Some a) (S (length pre) + length xs) (Some a)
                      (length pre + length xs) (S (length suf)) s0
            = Throw s0).
  { intros s0 l Hs0. simpl. apply bind_Throw.
    unfold move_assign_cell.
    erewrite bind_Ok.
    2:{ eapply read_cell_Live; [exact Hs0|].
        rewrite app_assoc.
        apply lookup_second. rewrite length_app, !length_fmap. lia. }
    by rewrite Hv. }
  erewrite Hthrow by (simpl; apply lookup_insert_eq).
  f_equal. f_equal. f_equal.
  unfold cells.
  assert (Hlen : forall w, length (pre ++ xs ++ w :: v :: suf) = n).
  { intros w. rewrite Hn, !length_app. simpl. lia. }
  rewrite Hlen. rewrite !fmap_app, !fmap_cons.
  rewrite <- !app_assoc, <- !app_comm_cons. reflexivity.
Qed.


(** X25. [Erase] has no rollback.  When the move assignment throws on an
    element after the erased one, the exception leaves a valid vector of
    the same size and capacity in which the elements between the two have
    already moved one place to the left: the element to erase is
    overwritten, unless the throwing element is its direct successor, in
    which case the state is as before. *)
Theorem erase_failure_keeps_size s this V pre y xs v suf cap :
  owns s this (pre ++ y :: xs ++ v :: suf) cap ->
  objs s !! this = Some V ->
  Forall (fun u => move_assign_throws u = false) xs ->
  move_assign_throws v = true ->
  exists s' z,
    Erase this (std_next (begin V) (length pre)) s = Throw s' /\
    owns s' this (pre ++ xs ++ z :: v :: suf) cap /\
    objs s' = objs s /\
    leaked s' = leaked s /\
    (xs = [] -> s' = s).
Proof.
  intros Hown HV Hok Hv.
  destruct (owns_inv _ _ _ _ Hown) as (p & Hobj & Hle & Hrc & Hp).
  rewrite Hobj in HV. injection HV as <-.
  assert (Hlen : forall w, length (pre ++ xs ++ w :: v :: suf)
                           = length (pre ++ y :: xs ++ v :: suf)).
  { intros w. rewrite !length_app. simpl. rewrite length_app. simpl. lia. }
  destruct p as [a|];
    [|rewrite length_app in Hle; simpl in Hle; lia].
  destruct Hp as [Hc Ha].
  destruct (Erase_throws s this a pre y xs v suf cap Hobj Ha Hok Hv)
    as (z & Herase & Hz).
  eexists _, z. split; [exact Herase|].
  split; [|split; [reflexivity|split; [reflexivity|]]].
  - eapply owns_intro.
    + simpl. rewrite Hlen. exact Hobj.
    + by rewrite Hlen.
    + exact Hrc.
    + split; [exact Hc|]. simpl. apply lookup_insert_eq.
  - intros Hxs. rewrite (Hz Hxs). subst xs. simpl.
    by apply state_unchanged.
Qed.


(** X26. [Emplace] in front of an element with spare capacity starts by
    moving the last element into the cell past the end.  When that move
    constructor throws, nothing has been touched yet and the state is the
    one before the call. *)
Theorem emplace_in_place_move_failure_leaves_state s this V elems l cap i x :
  owns s this (elems ++ [l]) cap ->
  objs s !! this = Some V ->
  length (elems ++ [l]) < cap ->
  i <= length elems ->
  move_throws l = true ->
  Emplace this (std_next (begin V) i) (Some x) s = Throw s.
Proof.
  intros Hown HV Hlt Hi Hl.
  destruct (owns_inv _ _ _ _ Hown) as (p & Hobj & Hle & Hrc & Hp).
  rewrite Hobj in HV. injection HV as <-.
  destruct p as [a|]; [|lia]. destruct Hp as [Hc Ha].
  rewrite length_app in Hlt, Hobj. simpl in Hlt, Hobj.
  rewrite Nat.add_1_r in Hlt, Hobj.
  unfold Emplace.
  rewrite (bind_Ok _ _ _ _ _ (get_vec_Ok _ _ _ Hobj)).
  erewrite bind_Ok; [| apply iter_diff_begin; reflexivity].
  unfold Capacity, RawMemory_Capacity, GetAddress, end_, iter_eqb, ptr_eqb,
    std_next, begin.
  simpl.
  destruct (Nat.ltb_spec (S (length elems)) cap) as [_|]; [|lia].
  rewrite bool_decide_eq_true_2 by reflexivity.
  destruct (Nat.eqb_spec i (S (length elems))) as [|_]; [lia|].
  simpl.
  apply bind_Throw. rewrite bind_ret_l. apply bind_Throw.
  unfold uninitialized_move_n. simpl uninitialized_move_loop.
  rewrite Nat.add_0_r.
  rewrite cells_snoc in Ha.
  erewrite bind_Ok;
    [| eapply read_cell_Live; [exact Ha | apply lookup_split; by rewrite length_fmap]].
  rewrite Hl. reflexivity.
Qed.

(** [Emplace] in front of an element, with spare capacity, when the move
    assignment of the new value throws: the last element has been moved
    into the cell past the end and the others shifted, and [size_] is not
    updated. *)
Lemma Emplace_spare_assign_throws s this a pre mid l cap x :
  objs s !! this
  = Some (mkVector (mkRawMemory (Some a) cap) (length (pre ++ mid ++ [l]))) ->
  heap s !! a = Some (cells (pre ++ mid ++ [l]) cap) ->
  length (pre ++ mid ++ [l]) < cap ->
  move_throws l = false ->
  Forall (fun v => move_assign_throws v = false) mid ->
  move_assign_throws x = true ->
  exists z,
    Emplace this (mkIter (Some a) (length pre)) (Some x) s
    = Throw (set_heap (<[a := cells (pre ++ z :: mid ++ [l]) cap]> (heap s)) s).
Proof.
  intros Hobj Hblk Hlt Hl Hmid Hx.
  set (m := length pre + length mid).
  assert (Hn : length (pre ++ mid ++ [l]) = S m)
    by (rewrite !length_app; simpl; unfold m; lia).
  rewrite Hn in *.
  set (raws := replicate (cap - S (S m)) (@Raw T)).
  assert (Hblk0 : heap s !! a
                  = Some (((Live <$> pre) ++ (Live <$> mid))
                          ++ Live l :: Raw :: raws)).
  { rewrite Hblk. f_equal. unfold cells. rewrite Hn.
    rewrite !fmap_app, <- !app_assoc. simpl.
    replace (cap - S m) with (S (cap - S (S m))) by lia. reflexivity. }
  assert (Hlen1 : length ((Live <$> pre) ++ (Live <$> mid) : list (cell T)) = m)
    by (rewrite length_app, !length_fmap; reflexivity).
  destruct (move_backward_loop_shift mid
              (set_heap
                 (<[a := ((Live <$> pre) ++ (Live <$> mid))
                         ++ Live (moved_from l) :: Live l :: raws]> (heap s)) s)
              a (Live <$> pre) (moved_from l) (Live l :: raws)
              (length pre) (S m)) as [z Hz].
  { simpl. rewrite lookup_insert_eq, <- app_assoc. reflexivity. }
  { by rewrite length_fmap. }
  { rewrite length_fmap. unfold m. lia. }
  { exact Hmid. }
  exists z.
  unfold Emplace.
  rewrite (bind_Ok _ _ _ _ _ (get_vec_Ok _ _ _ Hobj)).
  erewrite bind_Ok; [| apply iter_diff_begin; reflexivity].
  unfold Capacity, RawMemory_Capacity, GetAddress, end_, iter_eqb, ptr_eqb.
  simpl.
  destruct (Nat.ltb_spec (S m) cap) as [_|]; [|lia].
  rewrite bool_decide_eq_true_2 by reflexivity.
  destruct (Nat.eqb_spec (length pre) (S m)) as [|_]; [unfold m in *; lia|].
  simpl.
  apply bind_Throw.
  rewrite bind_ret_l. cbv beta.
  erewrite bind_Ok.
  2:{ unfold uninitialized_move_n. simpl uninitialized_move_loop.
      rewrite !Nat.add_0_r.
      erewrite bind_Ok;
        [| eapply read_cell_Live; [exact Hblk0 | by apply lookup_split]].
      rewrite Hl.
      erewrite bind_Ok;
        [| eapply construct_at_Raw;
           [exact Hblk0 | apply lookup_second; congruence]].
      rewrite insert_second by congruence.
      erewrite bind_Ok.
      2:{ eapply (assign_cell_Live _ _ _ _ l);
            [simpl; apply lookup_insert_eq | by apply lookup_split]. }
      rewrite set_heap_set_heap. simpl heap. rewrite insert_insert_eq.
      rewrite insert_split by done. reflexivity. }
  unfold std_move_backward.
  replace (m - length pre) with (length mid) by (unfold m; lia).
  rewrite (bind_Ok _ _ _ _ _ Hz). clear Hz.
  rewrite set_heap_set_heap. simpl heap. rewrite insert_insert_eq.
  erewrite bind_Ok; [| apply RawMemory_index_Ok; simpl; unfold m in *; lia].
  rewrite Hx. unfold throw. do 3 f_equal.
  unfold cells, raws.
  rewrite !fmap_app, !fmap_cons, !fmap_app. simpl.
  rewrite <- !app_assoc, <- !app_comm_cons, <- !app_assoc. simpl.
  rewrite !length_app. simpl. rewrite !length_app. simpl.
  replace (cap - (length pre + S (length mid + 1)))
    with (cap - S (S m)) by (unfold m; lia).
  reflexivity.
Qed.

(** X27. [Emplace] in front of an element with spare capacity is not
    exception-safe.  When the move assignment of the new value throws, the
    last element has already been moved into the cell past the end and the
    size is not updated: the vector has lost its last element, the cell
    past its size holds an object that no destructor will reach, and
    destroying the vector leaks it. *)
Theorem emplace_in_place_failure_strands_an_object s this V pre mid l cap x :
  owns s this (pre ++ mid ++ [l]) cap ->
  objs s !! this = Some V ->
  length (pre ++ mid ++ [l]) < cap ->
  move_throws l = false ->
  Forall (fun v => move_assign_throws v = false) mid ->
  move_assign_throws x = true ->
  exists s' z,
    Emplace this (std_next (begin V) (length pre)) (Some x) s = Throw s' /\
    objs s' = objs s /\
    leaked s' = leaked s /\
    (forall i, i < Size V ->
               deref s' (std_next (begin V) i) = (pre ++ z :: mid) !! i) /\
    cell_at s' (end_ V) = Some (Live l) /\
    exists s'',
      Vector_dtor this s' = Ok tt s'' /\ leaked s'' = leaked s + 1.
Proof.
  intros Hown HV Hlt Hl Hmid Hx.
  destruct (owns_inv _ _ _ _ Hown) as (p & Hobj & Hle & Hrc & Hp).
  rewrite Hobj in HV. injection HV as <-.
  destruct p as [a|]; [|lia]. destruct Hp as [Hc Ha].
  destruct (Emplace_spare_assign_throws s this a pre mid l cap x
              Hobj Ha Hlt Hl Hmid Hx) as [z Hthrow].
  assert (Hn : length (pre ++ mid ++ [l]) = length (pre ++ z :: mid))
    by (rewrite !length_app; simpl; lia).
  eexists _, z. split; [exact Hthrow|].
  split; [reflexivity|]. split; [reflexivity|].
  split; [|split].
  - intros i Hi. unfold Size in Hi. simpl in Hi.
    unfold deref, std_next, begin, GetAddress. simpl.
    rewrite lookup_insert_eq.
    assert (Hsame : (pre ++ z :: mid ++ [l]) !! i = (pre ++ z :: mid) !! i).
    { replace (pre ++ z :: mid ++ [l]) with ((pre ++ z :: mid) ++ [l])
        by (rewrite <- app_assoc; reflexivity).
      apply lookup_app_l. rewrite <- Hn. exact Hi. }
    rewrite <- Hsame.
    pose proof (cells_lookup (pre ++ z :: mid ++ [l]) cap i) as Hcl.
    destruct (cells _ cap !! i) as [[|w]|]; done.
  - unfold cell_at, end_, GetAddress. simpl. rewrite lookup_insert_eq.
    unfold cells.
    replace (pre ++ z :: mid ++ [l]) with ((pre ++ z :: mid) ++ [l])
      by (rewrite <- app_assoc; reflexivity).
    rewrite fmap_app, <- app_assoc.
    rewrite Hn. apply lookup_split. by rewrite length_fmap.
  - eexists. split.
    + unfold Vector_dtor.
      erewrite bind_Ok; [| apply get_vec_Ok; exact Hobj].
      unfold ptr_eqb, GetAddress, RawMemory_dtor. simpl.
      erewrite bind_Ok.
      2:{ rewrite Hn.
          apply (destroy_n_Live (pre ++ z :: mid) _ a []
                   (Live l :: replicate (cap - length (pre ++ z :: mid ++ [l])) Raw) 0);
            [|reflexivity].
          simpl. rewrite lookup_insert_eq. unfold cells.
          replace (pre ++ z :: mid ++ [l]) with ((pre ++ z :: mid) ++ [l])
            by (rewrite <- app_assoc; reflexivity).
          rewrite fmap_app, <- app_assoc. reflexivity. }
      erewrite bind_Ok; [| eapply Deallocate_Ok; simpl; apply lookup_insert_eq].
      reflexivity.
    + simpl. rewrite live_count_app, live_count_replicate_Raw.
      change (Live l :: replicate ?k Raw) with ([Live l] ++ replicate k (@Raw T)).
      rewrite live_count_app, live_count_replicate_Raw. reflexivity.
Qed.

End Failures.

(** ** [RawMemory<T>] on its own *)

Section RawBlocks.
Context {T : Type} `{ET : Element T} `{LT : Layout T}.

Implicit Types (s : state T) (a : addr) (x : T).

(** X28. [RawMemory(n)], for an [n] whose bytes [size_t] holds, takes a
    block of [n] raw cells that was not in use, or no block at all when
    [n = 0], and constructs nothing: it is the block that [operator new]
    gives for [n * sizeof(T)] bytes.  The offset [n] is an address for
    [operator+] and not an element for [operator[]].  Its destructor gives
    the block back without destroying anything: the state is the one before
    the constructor, and an object constructed in the block in between is
    leaked. *)
Theorem raw_memory_lifetime s n :
  allocatable n ->
  exists m s1,
    RawMemory_ctor n s = Ok m s1 /\
    Allocate_bytes n s = Ok (GetAddress m) s1 /\
    RawMemory_Capacity m = n /\
    (GetAddress m = None <-> n = 0) /\
    (forall a, GetAddress m = Some a ->
       heap s !! a = None /\ heap s1 !! a = Some (replicate n Raw)) /\
    objs s1 = objs s /\
    RawMemory_plus m n s1 = Ok (mkIter (GetAddress m) n) s1 /\
    RawMemory_index m n s1 = Fault AssertionFailed /\
    RawMemory_dtor m s1 = Ok tt s /\
    (forall i x, i < n ->
       (construct_at (GetAddress m) i x ;; RawMemory_dtor m) s1
       = Ok tt (add_leaked 1 s)).
Proof.
  intros Hbytes.
  pose proof (Allocate_bytes_allocatable n s Hbytes) as Halloc.
  destruct (decide (n = 0)) as [->|Hn].
  - exists RawMemory_default, s.
    repeat split; try done. intros i x Hi. lia.
  - eexists _, _. split; [by apply RawMemory_ctor_Ok|].
    split.
    { rewrite Halloc. unfold Allocate.
      destruct (Nat.eqb_spec n 0) as [|_]; [done | reflexivity]. }
    set (da := fresh (dom (heap s))).
    unfold GetAddress, RawMemory_Capacity. simpl.
    split; [reflexivity|]. split; [split; [done | by intros ->]|].
    split; [|split; [reflexivity|split; [|split; [|split]]]].
    + intros a [= <-]. split; [apply fresh_block | apply lookup_insert_eq].
    + unfold RawMemory_plus, assert. simpl. by rewrite Nat.leb_refl.
    + unfold RawMemory_index, assert. simpl. by rewrite Nat.ltb_irrefl.
    + unfold RawMemory_dtor. cbn [buffer_].
      erewrite Deallocate_Ok by (cbn [heap set_heap]; apply lookup_insert_eq).
      unfold add_leaked, set_heap. cbn [heap objs leaked].
      rewrite delete_insert_id by apply fresh_block.
      rewrite live_count_replicate_Raw, Nat.add_0_r. by destruct s.
    + intros i x Hi.
      erewrite bind_Ok.
      2:{ eapply construct_at_Raw; [cbn [heap set_heap]; apply lookup_insert_eq|].
          by apply lookup_replicate_2. }
      unfold RawMemory_dtor. cbn [buffer_].
      erewrite Deallocate_Ok by (cbn [heap set_heap]; apply lookup_insert_eq).
      unfold add_leaked, set_heap. cbn [heap objs leaked].
      rewrite insert_insert_eq.
      rewrite delete_insert_id by apply fresh_block.
      rewrite insert_replicate_Raw by exact Hi.
      rewrite live_count_app, live_count_replicate_Raw.
      change (Live x :: replicate ?k Raw) with ([Live x] ++ replicate k (@Raw T)).
      rewrite live_count_app, live_count_replicate_Raw. reflexivity.
Qed.

End RawBlocks.

(** ** Two vectors *)

Section Interference.
Context {T : Type} `{ET : Element T}.

Implicit Types (s : state T) (elems : list T).

(** X29. No call on one vector reaches into another: whatever sequence
    of operations runs on [this], returning or throwing, a second valid
    vector that shares no block and is not named as the partner of a move
    or a swap keeps its object, its elements and its capacity. *)
Theorem mutations_leave_other_vectors_alone s (v this : vid) elems cap ms :
  owns s v elems cap ->
  isolated s v ->
  this <> v ->
  Forall (leaves_alone v) ms ->
  match mutate_all this ms s with
  | Ok _ s' | Throw s' => owns s' v elems cap /\ objs s' !! v = objs s !! v
  | Fault _ => True
  end.
Proof.
  intros Hown Hiso Hne Hms.
  destruct (owns_inv _ _ _ _ Hown) as (q & Hobj & Hle & Hrc & Hq).
  assert (Hprot : protected v (mkVector (mkRawMemory q cap) (length elems))
                            (cells elems cap) s).
  { repeat split.
    - exact Hobj.
    - simpl. intros a ->. by destruct Hq.
    - simpl. intros u U a Hu HU Hbuf. by eapply (Hiso _ u U a Hobj). }
  assert (Hqcap : match q with None => cap = 0 | Some _ => cap <> 0 end)
    by (destruct q; [by destruct Hq | exact Hq]).
  pose proof (preserves_mutate_all v _ _ this ms Hne Hms s Hprot) as Hm.
  destruct (mutate_all this ms s) as [[] s'|s'|]; [| |done].
  - destruct Hm as [Hm _]. split; [by eapply protected_owns|].
    destruct Hm as [Hv _]. by rewrite Hv, Hobj.
  - split; [by eapply protected_owns|].
    destruct Hm as [Hv _]. by rewrite Hv, Hobj.
Qed.

End Interference.

(** * Concrete vectors *)

(** ** Plain values *)

(** The theorems at work on vectors of [plain_element] values, and what
    the move operations and the initializer-list constructor do there. *)
Module Plain.

#[local] Existing Instance plain_element.
#[local] Existing Instance word_layout.

Ltac solve_owns :=
  unfold owns; vm_compute; repeat split; first [reflexivity | lia | discriminate].

Ltac solve_representable := vm_compute; reflexivity.

Lemma growth_policy_witness :
  owns (one_vector [2; 4; 6] 3) 0 [2; 4; 6] 3 /\
  capacity_after 0 (EmplaceBack 0 (Some 8) (one_vector [2; 4; 6] 3)) = Some 6 /\
  capacity_after 0 (PushBack 0 8 false (one_vector [2; 4; 6] 3)) = Some 6 /\
  capacity_after 0 (Emplace 0 (mkIter (Some 0) 1) (Some 8) (one_vector [2; 4; 6] 3))
  = Some 6 /\
  (exists caps s',
    append_run 0 [8; 10; 12; 14] (one_vector [2; 4; 6] 3) = Ok caps s' /\
    length caps = 4 /\
    nondecreasing_from 3 caps /\
    reallocations 3 caps <= 4 /\
    exists obs,
      append_trace 0 [8; 10; 12; 14] (one_vector [2; 4; 6] 3) = Ok obs s' /\
      obs = [(Some 1, 6); (Some 1, 6); (Some 1, 6); (Some 2, 12)] /\
      obs.*2 = caps /\
      block_follows_capacity (Some 0) 3 obs /\
      relocations (Some 0) (obs.*1) <= 4) /\
  (exists r s1,
     EmplaceBack 0 (Some 8) (one_vector [2; 4; 6] 3) = Ok r s1 /\
     heap s1 = {[ 1 := cells [2; 4; 6; 8] 6 ]}) /\
  (exists r s1,
     EmplaceBack 0 (Some 8) (one_vector [2; 4; 6] 4) = Ok r s1 /\
     heap s1 = {[ 0 := cells [2; 4; 6; 8] 4 ]}).
Proof.
  assert (Hown : owns (one_vector [2; 4; 6] 3) 0 [2; 4; 6] 3) by solve_owns.
  destruct (growth_policy (one_vector [2; 4; 6] 3) 0 [2; 4; 6] 3 [8; 10; 12; 14])
    as (Hstep & Hrun & Hblock).
  - exact Hown.
  - solve_representable.
  - repeat constructor.
  - destruct (Hstep eq_refl 8 (mkVector (mkRawMemory (Some 0) 3) 3) 1 false
                    eq_refl ltac:(simpl; lia)) as (H1 & H2 & H3).
    split; [exact Hown|]. split; [exact H1|]. split; [exact (H2 eq_refl)|].
    split; [exact H3|]. split; [|split].
    + destruct Hrun as (caps & s' & R1 & R2 & R3 & R4 & obs & R5 & R6 & R7).
      destruct (R7 (mkVector (mkRawMemory (Some 0) 3) 3) eq_refl) as [R8 R9].
      exists caps, s'. split; [exact R1|]. split; [exact R2|].
      split; [exact R3|]. split; [exact R4|].
      exists obs. split; [exact R5|].
      split; [|split; [exact R6|split; [exact R8 | exact R9]]].
      vm_compute in R5. injection R5 as R5 _. symmetry. exact R5.
    + destruct (Hblock 8 (mkVector (mkRawMemory (Some 0) 3) 3) eq_refl)
        as (r & s1 & V1 & B1 & _ & _ & B4).
      destruct (B4 eq_refl) as (a & _ & _ & B5).
      exists r, s1. split; [exact B1|].
      vm_compute in B1. injection B1 as _ B1. rewrite <- B1.
      vm_compute. reflexivity.
    + destruct (growth_policy (one_vector [2; 4; 6] 4) 0 [2; 4; 6] 4 [])
        as (_ & _ & Hblock').
      * solve_owns.
      * solve_representable.
      * repeat constructor.
      * destruct (Hblock' 8 (mkVector (mkRawMemory (Some 0) 4) 3) eq_refl)
          as (r & s1 & V1 & B1 & _ & B3 & _).
        destruct (B3 ltac:(simpl; lia)) as [_ B4].
        exists r, s1. split; [exact B1|].
        vm_compute in B1. injection B1 as _ B1. rewrite <- B1.
        vm_compute. reflexivity.
Defined.

Lemma appends_keep_call_order_witness :
  owns (one_vector [2; 4; 6] 3) 0 [2; 4; 6] 3 /\
  exists s' cap' V',
    run_calls 0 [CallPushBack 8 false; CallEmplaceBack (Some 10); CallPushBack 12 true]
              (one_vector [2; 4; 6] 3) = Ok tt s' /\
    owns s' 0 [2; 4; 6; 8; 10; 12] cap' /\
    objs s' !! 0 = Some V' /\
    Size V' = 6.
Proof.
  assert (Hown : owns (one_vector [2; 4; 6] 3) 0 [2; 4; 6] 3) by solve_owns.
  split; [exact Hown|].
  destruct (appends_keep_call_order (one_vector [2; 4; 6] 3) 0 [2; 4; 6] 3
              [CallPushBack 8 false; CallEmplaceBack (Some 10); CallPushBack 12 true])
    as [Hret Htot].
  - exact Hown.
  - solve_representable.
  - destruct (Htot [8; 10; 12]) as (s' & Hrun).
    + repeat constructor.
    + repeat constructor.
    + destruct (Hret s' Hrun) as (xs & cap' & V' & Hxs & Hown' & HV' & Hsz).
      exists s', cap', V'. split; [exact Hrun|]. split; [|done].
      inversion Hxs as [|? ? ? ? H1 Hxs1]; subst.
      inversion Hxs1 as [|? ? ? ? H2 Hxs2]; subst.
      inversion Hxs2 as [|? ? ? ? H3 Hxs3]; subst.
      inversion Hxs3; subst.
      injection H1 as <-. injection H2 as <-. injection H3 as <-.
      exact Hown'.
Defined.

(** Inserting 1 at offset 0 of [2,4,6] gives [1,2,4,6]; inserting 8 at
    offset 3 gives [2,4,6,8], with room to spare or without. *)
Lemma emplace_inserts_at_offset_witness :
  (exists s' V',
     Emplace 0 (mkIter (Some 0) 0) (Some 1) (one_vector [2; 4; 6] 3)
     = Ok (std_next (begin V') 0) s' /\
     objs s' !! 0 = Some V' /\
     owns s' 0 [1; 2; 4; 6] 6 /\
     deref s' (std_next (begin V') 0) = Some 1) /\
  (exists s' V',
     Emplace 0 (mkIter (Some 0) 0) (Some 1) (one_vector [2; 4; 6] 4)
     = Ok (std_next (begin V') 0) s' /\
     owns s' 0 [1; 2; 4; 6] 4) /\
  (exists s' V',
     Insert 0 (mkIter (Some 0) 3) 8 false (one_vector [2; 4; 6] 3)
     = Ok (std_next (begin V') 3) s' /\
     owns s' 0 [2; 4; 6; 8] 6 /\
     Insert 0 (mkIter (Some 0) 3) 8 false (one_vector [2; 4; 6] 3)
     = EmplaceBack 0 (Some 8) (one_vector [2; 4; 6] 3)).
Proof.
  split; [|split].
  - destruct (emplace_inserts_at_offset (one_vector [2; 4; 6] 3) 0
                (mkVector (mkRawMemory (Some 0) 3) 3) [2; 4; 6] 3 0 1)
      as (s' & V' & H1 & H2 & H3 & H4 & _).
    + solve_owns.
    + reflexivity.
    + simpl. lia.
    + solve_representable.
    + repeat constructor.
    + exists s', V'. done.
  - destruct (emplace_inserts_at_offset (one_vector [2; 4; 6] 4) 0
                (mkVector (mkRawMemory (Some 0) 4) 3) [2; 4; 6] 4 0 1)
      as (s' & V' & H1 & H2 & H3 & H4 & _).
    + solve_owns.
    + reflexivity.
    + simpl. lia.
    + solve_representable.
    + repeat constructor.
    + exists s', V'. done.
  - destruct (emplace_inserts_at_offset (one_vector [2; 4; 6] 3) 0
                (mkVector (mkRawMemory (Some 0) 3) 3) [2; 4; 6] 3 3 8)
      as (s' & V' & H1 & H2 & H3 & H4 & H5 & H6).
    + solve_owns.
    + reflexivity.
    + simpl. lia.
    + solve_representable.
    + repeat constructor.
    + exists s', V'. split; [|split].
      * rewrite <- H1. apply (H5 false).
      * exact H3.
      * rewrite <- (H6 eq_refl). apply (H5 false).
Defined.

(** Erasing offset 1 of [1,2,3,4] gives [1,3,4]. *)
Lemma erase_removes_at_offset_witness :
  exists s' V',
    Erase 0 (mkIter (Some 0) 1) (one_vector [1; 2; 3; 4] 4)
    = Ok (std_next (begin V') 1) s' /\
    objs s' !! 0 = Some V' /\
    owns s' 0 [1; 3; 4] 4 /\
    Size V' = 3 /\
    cell_at s' (std_next (begin V') 3) = Some Raw.
Proof.
  apply (erase_removes_at_offset (one_vector [1; 2; 3; 4] 4) 0
           (mkVector (mkRawMemory (Some 0) 4) 4) [1; 2; 3; 4] 4 1).
  - solve_owns.
  - reflexivity.
  - simpl. lia.
  - repeat constructor.
Defined.

Lemma isolated_one_vector elems cap : isolated (one_vector elems cap) 0.
Proof.
  intros V u U a _ Hu HU. simpl in HU.
  rewrite lookup_singleton_ne in HU by done. discriminate.
Qed.

(** The copy of [1,2,3] is appended to, erased from, stored into and
    resized; the original still holds [1,2,3] in its block of 4 cells. *)
Lemma copy_is_deep_witness :
  exists s1,
    Vector_copy_ctor 1 0 (one_vector [1; 2; 3] 4) = Ok tt s1 /\
    owns s1 1 [1; 2; 3] 3 /\
    owns s1 0 [1; 2; 3] 4 /\
    exists s2,
      mutate_all 1 [DoPushBack 9 false; DoErase 0; DoStore 0 7; DoResize 2] s1
      = Ok tt s2 /\
      owns s2 1 [7; 3] 6 /\
      owns s2 0 [1; 2; 3] 4.
Proof.
  destruct (copy_is_deep (one_vector [1; 2; 3] 4) 0 1 [1; 2; 3] 4)
    as (s1 & Hcopy & Hw & Hv & Hkeep).
  - solve_owns.
  - apply isolated_one_vector.
  - reflexivity.
  - repeat constructor.
  - exists s1. split; [exact Hcopy|]. split; [exact Hw|]. split; [exact Hv|].
    specialize (Hkeep [DoPushBack 9 false; DoErase 0; DoStore 0 7; DoResize 2]
                      ltac:(repeat constructor)).
    vm_compute in Hcopy. injection Hcopy as <-.
    destruct (mutate_all 1 [DoPushBack 9 false; DoErase 0; DoStore 0 7; DoResize 2] _)
      as [[] s2|s2|e] eqn:Hrun; vm_compute in Hrun; try discriminate.
    exists s2. split; [reflexivity|]. split; [|exact Hkeep].
    injection Hrun as <-. solve_owns.
Defined.

Lemma self_assignment_is_identity_witness :
  Vector_copy_assign 0 0 (one_vector [1; 2; 3] 4) = Ok tt (one_vector [1; 2; 3] 4) /\
  Vector_move_assign 0 0 (one_vector [1; 2; 3] 4) = Ok tt (one_vector [1; 2; 3] 4) /\
  Swap 0 0 (one_vector [1; 2; 3] 4) = Ok tt (one_vector [1; 2; 3] 4).
Proof.
  apply (self_assignment_is_identity (one_vector [1; 2; 3] 4) 0
           (mkVector (mkRawMemory (Some 0) 4) 3)).
  reflexivity.
Defined.

(** C2. Move construction and move assignment give the target the
    source's elements, but the source is not emptied: it keeps its size
    over a block that is null (construction) or was the target's
    (assignment).  Appending to it, assigning an empty vector to it, or
    destroying it then runs over cells that do not exist. *)
Theorem moved_from_source_keeps_its_size :
  (* Vector B(std::move(A)) with A = [1,2,3] *)
  Vector_move_ctor 2 0 (one_vector [1; 2; 3] 3)
  = Ok tt (mkState {[ 0 := cells [1; 2; 3] 3 ]}
                   {[ 0 := mkVector (mkRawMemory None 0) 3;
                      2 := mkVector (mkRawMemory (Some 0) 3) 3 ]}
                   0) /\
  (Vector_move_ctor 2 0 ;; PushBack 0 4 false) (one_vector [1; 2; 3] 3)
  = Fault NullPointer /\
  (Vector_move_ctor 2 0 ;; Vector_default_ctor 3 ;; Vector_copy_assign 0 3)
    (one_vector [1; 2; 3] 3)
  = Fault NullPointer /\
  (* B = std::move(A) with A = [1,2,3] and B = [9] *)
  Vector_move_assign 1 0 two_vectors
  = Ok tt (mkState {[ 0 := cells [1; 2; 3] 3; 1 := cells [9] 1 ]}
                   {[ 0 := mkVector (mkRawMemory (Some 1) 1) 3;
                      1 := mkVector (mkRawMemory (Some 0) 3) 3 ]}
                   0) /\
  (Vector_move_assign 1 0 ;; Vector_dtor 0) two_vectors = Fault OutOfBlock.
Proof. repeat split; vm_compute; reflexivity. Qed.

(** C3. The moved-from source of a move construction or of a move
    assignment may be left with a size above its capacity. *)
Theorem moved_from_source_exceeds_capacity :
  size_within_capacity (one_vector [1; 2; 3] 3) 0 = true /\
  (exists s', Vector_move_ctor 2 0 (one_vector [1; 2; 3] 3) = Ok tt s' /\
              size_within_capacity s' 2 = true /\
              size_within_capacity s' 0 = false) /\
  size_within_capacity two_vectors 0 = true /\
  size_within_capacity two_vectors 1 = true /\
  (exists s', Vector_move_assign 1 0 two_vectors = Ok tt s' /\
              size_within_capacity s' 1 = true /\
              size_within_capacity s' 0 = false).
Proof.
  split; [reflexivity|]. split.
  { eexists. split; [vm_compute; reflexivity|]. split; reflexivity. }
  split; [reflexivity|]. split; [reflexivity|].
  eexists. split; [vm_compute; reflexivity|]. split; reflexivity.
Qed.

(** C4. The constructor from an initializer list assigns to cells in which
    no object was constructed. *)
Theorem list_constructor_assigns_to_raw_cells :
  Vector_list_ctor 0 [1; 2; 3] nothing = Fault AssignToRawCell /\
  Vector_list_ctor 0 [] nothing
  = Ok tt (mkState ∅ {[ 0 := mkVector (mkRawMemory None 0) 0 ]} 0).
Proof. split; vm_compute; reflexivity. Qed.

(** *** The rest of the interface on plain values *)

(** [Reserve(10)] on [1,2,3] in a block of 3 cells. *)
Lemma reserve_keeps_elements_witness :
  exists s',
    Reserve 0 10 (one_vector [1; 2; 3] 3) = Ok tt s' /\
    owns s' 0 [1; 2; 3] 10 /\
    leaked s' = 0 /\
    heap s' !! 0 = None /\
    exists a',
      heap (one_vector [1; 2; 3] 3) !! a' = None /\
      heap s' = {[ a' := cells [1; 2; 3] 10 ]}.
Proof.
  destruct (reserve_keeps_elements (one_vector [1; 2; 3] 3) 0 [1; 2; 3] 3 10)
    as (s' & H1 & H2 & H3 & _ & _ & H5).
  - solve_owns.
  - intros _. solve_representable.
  - intros _. repeat constructor.
  - destruct (H5 ltac:(lia) (mkVector (mkRawMemory (Some 0) 3) 3) eq_refl)
      as (a' & Ha' & _ & Hheap & Hold).
    exists s'. split; [exact H1|]. split; [exact H2|]. split; [exact H3|].
    split; [apply Hold; reflexivity|].
    exists a'. split; [exact Ha'|].
    rewrite Hheap. unfold one_vector, GetAddress. simpl.
    rewrite delete_singleton_eq, insert_empty. reflexivity.
Defined.

Lemma reserve_is_idempotent_witness :
  (Reserve 0 10 ;; Reserve 0 4) (one_vector [1; 2; 3] 3)
  = Reserve 0 10 (one_vector [1; 2; 3] 3) /\
  (Reserve 0 10 ;; Reserve 0 10) (one_vector [1; 2; 3] 3)
  = Reserve 0 10 (one_vector [1; 2; 3] 3).
Proof.
  apply (reserve_is_idempotent (one_vector [1; 2; 3] 3) 0 [1; 2; 3] 3 10 4).
  - solve_owns.
  - solve_representable.
  - intros _. repeat constructor.
  - lia.
Defined.

(** After [Reserve(6)], three appends to [1,2,3] all see capacity 6. *)
Lemma reserve_then_appends_stay_in_place_witness :
  exists p s',
    (Reserve 0 6 ;; append_trace 0 [4; 5; 6]) (one_vector [1; 2; 3] 3)
    = Ok [(p, 6); (p, 6); (p, 6)] s' /\
    (Reserve 0 6 ;; append_run 0 [4; 5; 6]) (one_vector [1; 2; 3] 3)
    = Ok [6; 6; 6] s' /\
    owns s' 0 [1; 2; 3; 4; 5; 6] 6 /\
    leaked s' = 0 /\
    exists a', p = Some a' /\ heap s' = {[ a' := cells [1; 2; 3; 4; 5; 6] 6 ]}.
Proof.
  destruct (reserve_then_appends_stay_in_place
              (one_vector [1; 2; 3] 3) 0 [1; 2; 3] 3 6 [4; 5; 6])
    as (s1 & p & s' & _ & _ & H3 & H4 & H5 & _ & H7 & H8).
  - solve_owns.
  - intros _. solve_representable.
  - intros _. repeat constructor.
  - simpl. lia.
  - exists p, s'. split; [exact H3|]. split; [exact H4|].
    split; [exact H5|]. split; [exact H7|].
    destruct (H8 (mkVector (mkRawMemory (Some 0) 3) 3) eq_refl)
      as (Hheap & _ & Hnew).
    destruct (Hnew ltac:(lia)) as (a' & -> & _).
    exists a'. split; [reflexivity|].
    rewrite Hheap. unfold one_vector, GetAddress. simpl.
    rewrite delete_singleton_eq, insert_empty. reflexivity.
Defined.

(** [Resize(1)] on [1,2,3]. *)
Lemma resize_down_truncates_witness :
  exists s',
    Resize 0 1 (one_vector [1; 2; 3] 4) = Ok tt s' /\
    owns s' 0 [1] 4 /\
    leaked s' = 0.
Proof.
  destruct (resize_down_truncates (one_vector [1; 2; 3] 4) 0 [1; 2; 3] 4 1)
    as (s' & H1 & H2 & H3 & _).
  - solve_owns.
  - simpl. lia.
  - exists s'. done.
Defined.

(** [Resize(5)] on [1,2,3] in a block of 3 cells. *)
Lemma resize_up_value_initialises_witness :
  exists s',
    Resize 0 5 (one_vector [1; 2; 3] 3) = Ok tt s' /\
    owns s' 0 [1; 2; 3; 0; 0] 5 /\
    leaked s' = 0 /\
    exists a',
      heap (one_vector [1; 2; 3] 3) !! a' = None /\
      heap s' = {[ a' := cells [1; 2; 3; 0; 0] 5 ]}.
Proof.
  destruct (resize_up_value_initialises (one_vector [1; 2; 3] 3) 0 [1; 2; 3] 3 5 0)
    as (s' & H1 & H2 & H3 & _ & H5).
  - solve_owns.
  - simpl. lia.
  - intros _. solve_representable.
  - intros _. repeat constructor.
  - reflexivity.
  - destruct (H5 (mkVector (mkRawMemory (Some 0) 3) 3) eq_refl)
      as (a' & _ & Hheap & _ & Hnew).
    exists s'. split; [exact H1|]. split; [exact H2|]. split; [exact H3|].
    exists a'. split; [apply Hnew; lia|].
    rewrite Hheap. unfold one_vector, GetAddress. simpl.
    rewrite delete_singleton_eq, insert_empty. reflexivity.
Defined.

Lemma resize_up_then_down_restores_elements_witness :
  exists s',
    (Resize 0 5 ;; Resize 0 3) (one_vector [1; 2; 3] 3) = Ok tt s' /\
    Reserve 0 5 (one_vector [1; 2; 3] 3) = Ok tt s' /\
    owns s' 0 [1; 2; 3] 5 /\
    leaked s' = 0 /\
    exists a',
      heap (one_vector [1; 2; 3] 3) !! a' = None /\
      heap s' = {[ a' := cells [1; 2; 3] 5 ]}.
Proof.
  destruct (resize_up_then_down_restores_elements
              (one_vector [1; 2; 3] 3) 0 [1; 2; 3] 3 5 0)
    as (s' & H1 & H2 & H3 & H4 & _ & H6).
  - solve_owns.
  - simpl. lia.
  - intros _. solve_representable.
  - intros _. repeat constructor.
  - reflexivity.
  - destruct (H6 ltac:(lia) (mkVector (mkRawMemory (Some 0) 3) 3) eq_refl)
      as (a' & Ha' & Hheap & _).
    exists s'. split; [exact H1|]. split; [exact H2|]. split; [exact H3|].
    split; [exact H4|].
    exists a'. split; [exact Ha'|].
    rewrite Hheap. unfold one_vector, GetAddress. simpl.
    rewrite delete_singleton_eq, insert_empty. reflexivity.
Defined.

Lemma pop_back_removes_last_witness :
  exists s',
    PopBack 0 (one_vector [1; 2; 3] 4) = Ok tt s' /\
    owns s' 0 [1; 2] 4 /\
    leaked s' = 0.
Proof.
  destruct (pop_back_removes_last (one_vector [1; 2; 3] 4) 0 [1; 2; 3] 4)
    as [_ Hpop].
  - solve_owns.
  - destruct (Hpop [1; 2] 3 eq_refl) as (s' & H1 & H2 & H3 & _).
    exists s'. done.
Defined.

Lemma append_then_pop_back_restores_witness :
  (EmplaceBack 0 (Some 7) ;; PopBack 0) (one_vector [1; 2; 3] 4)
  = Ok tt (one_vector [1; 2; 3] 4) /\
  exists s',
    (EmplaceBack 0 (Some 7) ;; PopBack 0) (one_vector [1; 2; 3] 3) = Ok tt s' /\
    owns s' 0 [1; 2; 3] 6.
Proof.
  split.
  - destruct (append_then_pop_back_restores (one_vector [1; 2; 3] 4) 0
                [1; 2; 3] 4 7) as (s' & H1 & _ & _ & H4).
    + solve_owns.
    + solve_representable.
    + intros _. repeat constructor.
    + rewrite H1, H4; [reflexivity | simpl; lia].
  - destruct (append_then_pop_back_restores (one_vector [1; 2; 3] 3) 0
                [1; 2; 3] 3 7) as (s' & H1 & H2 & _).
    + solve_owns.
    + solve_representable.
    + intros _. repeat constructor.
    + exists s'. done.
Defined.

(** The reference returned for the fourth element of [1,2,3,7]. *)
Lemma emplace_back_returns_the_new_element_witness :
  exists r s',
    EmplaceBack 0 (Some 7) (one_vector [1; 2; 3] 3) = Ok r s' /\
    deref s' r = Some 7 /\
    Vector_index 0 3 s' = Ok r s'.
Proof.
  destruct (emplace_back_returns_the_new_element (one_vector [1; 2; 3] 3) 0
              [1; 2; 3] 3 7) as (r & s' & V' & H1 & _ & _ & H4 & _ & H6 & _).
  - solve_owns.
  - solve_representable.
  - intros _. repeat constructor.
  - exists r, s'. done.
Defined.

(** [Vector<T> v(3)] *)
Lemma sized_constructor_value_initialises_witness :
  exists s',
    Vector_size_ctor 0 3 nothing = Ok tt s' /\
    owns s' 0 [0; 0; 0] 3 /\
    leaked s' = 0 /\
    exists a, heap s' = {[ a := cells [0; 0; 0] 3 ]}.
Proof.
  destruct (sized_constructor_value_initialises nothing 0 3 0)
    as (s' & H1 & H2 & H3 & _ & _ & _ & H7).
  - reflexivity.
  - solve_representable.
  - destruct (H7 ltac:(lia)) as (a & _ & Hheap).
    exists s'. split; [exact H1|]. split; [exact H2|]. split; [exact H3|].
    exists a. rewrite Hheap. reflexivity.
Defined.

Lemma destructor_releases_everything_witness :
  exists s',
    Vector_dtor 0 (one_vector [1; 2; 3] 4) = Ok tt s' /\
    objs s' !! 0 = None /\
    leaked s' = 0 /\
    heap s' !! 0 = None.
Proof.
  destruct (destructor_releases_everything (one_vector [1; 2; 3] 4) 0 [1; 2; 3] 4)
    as (s' & H1 & H2 & H3 & H4 & _).
  - solve_owns.
  - exists s'. split; [exact H1|]. split; [exact H2|]. split; [exact H3|].
    apply (H4 (mkVector (mkRawMemory (Some 0) 4) 3) 0); reflexivity.
Defined.

Lemma construct_then_destroy_is_identity_witness :
  (Vector_default_ctor 1 ;; Vector_dtor 1) (one_vector [1; 2; 3] 4)
  = Ok tt (one_vector [1; 2; 3] 4) /\
  (Vector_size_ctor 1 2 ;; Vector_dtor 1) (one_vector [1; 2; 3] 4)
  = Ok tt (one_vector [1; 2; 3] 4) /\
  (Vector_copy_ctor 1 0 ;; Vector_dtor 1) (one_vector [1; 2; 3] 4)
  = Ok tt (one_vector [1; 2; 3] 4).
Proof.
  destruct (construct_then_destroy_is_identity (one_vector [1; 2; 3] 4) 1)
    as (H1 & H2 & H3).
  - reflexivity.
  - split; [exact H1|]. split.
    + apply (H2 2 0 eq_refl). solve_representable.
    + apply (H3 0 [1; 2; 3] 4); [solve_owns | repeat constructor].
Defined.

Lemma moved_from_source_can_be_destroyed_witness :
  exists s',
    (Vector_move_ctor 2 0 ;; Vector_dtor 0) (one_vector [1; 2; 3] 4) = Ok tt s' /\
    owns s' 2 [1; 2; 3] 4 /\
    objs s' !! 0 = None /\
    heap s' = heap (one_vector [1; 2; 3] 4) /\
    leaked s' = 0.
Proof.
  apply (moved_from_source_can_be_destroyed (one_vector [1; 2; 3] 4) 2 0
           [1; 2; 3] 4).
  - solve_owns.
  - reflexivity.
Defined.

Lemma range_designates_elements_witness :
  iter_diff (mkIter (Some 0) 3) (mkIter (Some 0) 0) (one_vector [1; 2; 3] 4)
  = Ok 3 (one_vector [1; 2; 3] 4) /\
  deref (one_vector [1; 2; 3] 4) (mkIter (Some 0) 1) = Some 2 /\
  deref (one_vector [1; 2; 3] 4) (mkIter (Some 0) 3) = None.
Proof.
  destruct (range_designates_elements (one_vector [1; 2; 3] 4) 0
              (mkVector (mkRawMemory (Some 0) 4) 3) [1; 2; 3] 4)
    as (_ & _ & _ & H4 & H5).
  - solve_owns.
  - reflexivity.
  - split; [exact H4|]. split; [exact (H5 1) | exact (H5 3)].
Defined.

(** Index 3 of [1,2,3] fails the assertion although the block has a
    fourth cell. *)
Lemma index_is_checked_against_size_witness :
  (exists r, Vector_index 0 2 (one_vector [1; 2; 3] 4)
             = Ok r (one_vector [1; 2; 3] 4) /\
             deref (one_vector [1; 2; 3] 4) r = Some 3) /\
  Vector_index 0 3 (one_vector [1; 2; 3] 4) = Fault AssertionFailed.
Proof.
  split.
  - destruct (index_is_checked_against_size (one_vector [1; 2; 3] 4) 0
                [1; 2; 3] 4 2) as [H1 _]; [solve_owns|].
    apply H1. simpl. lia.
  - destruct (index_is_checked_against_size (one_vector [1; 2; 3] 4) 0
                [1; 2; 3] 4 3) as [_ H2]; [solve_owns|].
    apply H2. simpl. lia.
Defined.

Lemma store_then_index_reads_back_witness :
  exists s' r,
    Vector_store 0 1 7 (one_vector [1; 2; 3] 4) = Ok tt s' /\
    owns s' 0 [1; 7; 3] 4 /\
    Vector_index 0 1 s' = Ok r s' /\
    deref s' r = Some 7.
Proof.
  destruct (store_then_index_reads_back (one_vector [1; 2; 3] 4) 0
              [1; 2; 3] 4 1 7) as (s' & r & H1 & H2 & _ & _ & H5 & H6).
  - solve_owns.
  - simpl. lia.
  - reflexivity.
  - exists s', r. done.
Defined.

Lemma isolated_two_vectors v : isolated two_vectors v.
Proof.
  intros V u U a HV Hu HU Hbuf Heq. simpl in HV, HU.
  rewrite !lookup_insert in HV, HU. rewrite !lookup_singleton in HV, HU.
  repeat case_decide; simplify_eq; simpl in *; congruence.
Qed.

Lemma swap_exchanges_contents_witness :
  exists s',
    Swap 0 1 two_vectors = Ok tt s' /\
    owns s' 0 [9] 1 /\
    owns s' 1 [1; 2; 3] 3 /\
    heap s' = heap two_vectors /\
    Swap 0 1 s' = Ok tt two_vectors.
Proof.
  destruct (swap_exchanges_contents two_vectors 0 1 [1; 2; 3] 3 [9] 1)
    as (s' & H1 & H2 & H3 & H4 & _ & _ & H7).
  - solve_owns.
  - solve_owns.
  - discriminate.
  - exists s'. done.
Defined.

(** [B = A] with [B = [9]] in one cell moves [B] into a block of three;
    [A = B] with [A = [1,2,3]] keeps the block of [A]. *)
Lemma copy_assignment_copies_witness :
  (exists s',
     Vector_copy_assign 1 0 two_vectors = Ok tt s' /\
     owns s' 1 [1; 2; 3] 3 /\
     owns s' 0 [1; 2; 3] 3 /\
     leaked s' = 0 /\
     heap s' !! 1 = None /\
     exists a', heap two_vectors !! a' = None /\
                heap s' !! a' = Some (cells [1; 2; 3] 3)) /\
  (exists s',
     Vector_copy_assign 0 1 two_vectors = Ok tt s' /\
     owns s' 0 [9] 3 /\
     owns s' 1 [9] 1 /\
     leaked s' = 0 /\
     heap s' = <[0 := cells [9] 3]> (heap two_vectors)).
Proof.
  split.
  - destruct (copy_assignment_copies two_vectors 1 0 [9] 1 [1; 2; 3] 3)
      as (s' & H1 & H2 & H3 & H4 & _ & _ & H7).
    + solve_owns.
    + solve_owns.
    + discriminate.
    + apply isolated_two_vectors.
    + repeat constructor.
    + repeat constructor.
    + destruct (H7 (mkVector (mkRawMemory (Some 1) 1) 1) eq_refl) as [_ H8].
      destruct (H8 ltac:(simpl; lia)) as (a' & Ha' & _ & Hheap & Hold).
      exists s'. split; [exact H1|]. split; [exact H2|]. split; [exact H3|].
      split; [exact H4|]. split; [apply Hold; reflexivity|].
      exists a'. split; [exact Ha'|].
      rewrite Hheap. apply lookup_insert_eq.
  - destruct (copy_assignment_copies two_vectors 0 1 [1; 2; 3] 3 [9] 1)
      as (s' & H1 & H2 & H3 & H4 & _ & _ & H7).
    + solve_owns.
    + solve_owns.
    + discriminate.
    + apply isolated_two_vectors.
    + repeat constructor.
    + repeat constructor.
    + destruct (H7 (mkVector (mkRawMemory (Some 0) 3) 3) eq_refl) as [H8 _].
      destruct (H8 ltac:(simpl; lia)) as [_ Hheap].
      exists s'. split; [exact H1|]. split; [exact H2|]. split; [exact H3|].
      split; [exact H4|]. exact Hheap.
Defined.

(** Whatever is done to [[9]], the vector [[1,2,3]] next to it stays. *)
Lemma mutations_leave_other_vectors_alone_witness :
  exists s',
    mutate_all 1 [DoReserve 4; DoCopyAssign 0; DoPopBack; DoResize 5; DoErase 1]
               two_vectors = Ok tt s' /\
    owns s' 1 [1; 0; 0; 0] 5 /\
    owns s' 0 [1; 2; 3] 3.
Proof.
  pose proof (mutations_leave_other_vectors_alone two_vectors 0 1 [1; 2; 3] 3
                [DoReserve 4; DoCopyAssign 0; DoPopBack; DoResize 5; DoErase 1])
    as Hkeep.
  destruct (mutate_all 1 _ two_vectors) as [[] s'|s'|e] eqn:Hrun;
    vm_compute in Hrun; try discriminate.
  exists s'. split; [reflexivity|]. split.
  - injection Hrun as <-. solve_owns.
  - apply Hkeep.
    + solve_owns.
    + apply isolated_two_vectors.
    + discriminate.
    + repeat constructor.
Defined.

(** [RawMemory<T> m(4)] with objects of four bytes, then its destructor. *)
Lemma raw_memory_lifetime_witness :
  exists m s1,
    RawMemory_ctor 4 nothing = Ok m s1 /\
    Allocate_bytes 4 nothing = Ok (GetAddress m) s1 /\
    RawMemory_Capacity m = 4 /\
    RawMemory_index m 4 s1 = Fault AssertionFailed /\
    RawMemory_dtor m s1 = Ok tt nothing /\
    (construct_at (GetAddress m) 2 7 ;; RawMemory_dtor m) s1
    = Ok tt (add_leaked 1 nothing).
Proof.
  destruct (raw_memory_lifetime nothing 4)
    as (m & s1 & H1 & H2 & H3 & _ & _ & _ & _ & H8 & H9 & H10).
  - solve_representable.
  - exists m, s1. split; [exact H1|]. split; [exact H2|]. split; [exact H3|].
    split; [exact H8|]. split; [exact H9|]. apply H10. lia.
Defined.

End Plain.

(** ** Values whose copy may throw *)

(** Vectors of [fragile_element] values: what happens when a copy throws
    in the middle of a reallocation. *)
Module Fragile.

#[local] Existing Instance fragile_element.
#[local] Existing Instance word_layout.

(** C1. With the vector [1,13] at full capacity, the copy of 13 throws
    during the transfer into the new block.  The original block is intact at
    that point, but the handler then destroys [size_ + 1] cells of the new
    block, of which only the last holds an object. *)
Theorem unwinding_destroys_raw_cells :
  EmplaceBack 0 (Some 3) (one_vector [1; 13] 2) = Fault DestroyOfRawCell /\
  PushBack 0 3 false (one_vector [1; 13] 2) = Fault DestroyOfRawCell /\
  Emplace 0 (mkIter (Some 0) 1) (Some 3) (one_vector [1; 13] 2)
  = Fault DestroyOfRawCell /\
  (* the transfer on its own is exception-safe *)
  (new_data ← RawMemory_ctor 4;
   construct_new (GetAddress new_data) 2 (Some 3) ;;
   transfer_n (Some 0) 0 2 (GetAddress new_data) 0) (one_vector [1; 13] 2)
  = Throw (mkState {[ 0 := cells [1; 13] 2; 1 := [Raw; Raw; Live 3; Raw] ]}
                   (objs (one_vector [1; 13] 2)) 0) /\
  (* and so is the call when the constructor of the new element throws *)
  EmplaceBack 0 None (one_vector [1; 13] 2) = Throw (one_vector [1; 13] 2) /\
  Emplace 0 (mkIter (Some 0) 1) None (one_vector [1; 13] 2)
  = Throw (one_vector [1; 13] 2).
Proof. repeat split; vm_compute; reflexivity. Qed.

(** *** Throwing copies outside the appending paths *)

(** [Reserve(8)] on [1,13,2]: the copy of 13 throws and the state is the
    one before the call. *)
Lemma reserve_failure_keeps_vector_witness :
  Reserve 0 8 (one_vector [1; 13; 2] 3) = Throw (one_vector [1; 13; 2] 3).
Proof.
  destruct (reserve_failure_keeps_vector (one_vector [1; 13; 2] 3) 0
              [1] 13 [2] 3 8) as (s' & H1 & _ & _ & _ & _ & H6).
  - unfold owns. vm_compute. repeat split; first [reflexivity | lia | discriminate].
  - lia.
  - vm_compute. reflexivity.
  - repeat constructor.
  - reflexivity.
  - rewrite H1, (H6 eq_refl). reflexivity.
Defined.

(** Copying [1,13] into a new vector or into an empty one. *)
Lemma copy_failure_leaves_state_witness :
  Vector_copy_ctor 2 0
    (mkState {[ 0 := cells [1; 13] 2 ]}
             {[ 0 := mkVector (mkRawMemory (Some 0) 2) 2;
                1 := mkVector RawMemory_default 0 ]} 0)
  = Throw (mkState {[ 0 := cells [1; 13] 2 ]}
                   {[ 0 := mkVector (mkRawMemory (Some 0) 2) 2;
                      1 := mkVector RawMemory_default 0 ]} 0) /\
  Vector_copy_assign 1 0
    (mkState {[ 0 := cells [1; 13] 2 ]}
             {[ 0 := mkVector (mkRawMemory (Some 0) 2) 2;
                1 := mkVector RawMemory_default 0 ]} 0)
  = Throw (mkState {[ 0 := cells [1; 13] 2 ]}
                   {[ 0 := mkVector (mkRawMemory (Some 0) 2) 2;
                      1 := mkVector RawMemory_default 0 ]} 0).
Proof.
  destruct (copy_failure_leaves_state
              (mkState {[ 0 := cells [1; 13] 2 ]}
                       {[ 0 := mkVector (mkRawMemory (Some 0) 2) 2;
                          1 := mkVector RawMemory_default 0 ]} 0)
              0 [1] 13 [] 2) as [H1 H2].
  - unfold owns. vm_compute. repeat split; first [reflexivity | lia | discriminate].
  - repeat constructor.
  - reflexivity.
  - split; [exact (H1 2)|].
    apply (H2 1 [] 0).
    + unfold owns. vm_compute. repeat split; first [reflexivity | lia | discriminate].
    + discriminate.
    + simpl. lia.
Defined.

(** Appending or inserting a copy of 13, whose copy constructor throws. *)
Lemma constructor_failure_leaves_state_witness :
  PushBack 0 13 false (one_vector [1; 2] 2) = Throw (one_vector [1; 2] 2) /\
  Insert 0 (mkIter (Some 0) 1) 13 false (one_vector [1; 2] 2)
  = Throw (one_vector [1; 2] 2) /\
  Insert 0 (mkIter (Some 0) 1) 13 false (one_vector [1; 2] 4)
  = Throw (one_vector [1; 2] 4).
Proof.
  destruct (constructor_failure_leaves_state (one_vector [1; 2] 2) 0
              (mkVector (mkRawMemory (Some 0) 2) 2) [1; 2] 2 1)
    as (_ & _ & H3).
  - unfold owns. vm_compute. repeat split; first [reflexivity | lia | discriminate].
  - reflexivity.
  - simpl. lia.
  - vm_compute. reflexivity.
  - destruct (H3 13 false eq_refl) as [H4 H5].
    split; [exact H4|]. split; [exact H5|].
    destruct (constructor_failure_leaves_state (one_vector [1; 2] 4) 0
                (mkVector (mkRawMemory (Some 0) 4) 2) [1; 2] 4 1)
      as (_ & _ & H6).
    + unfold owns. vm_compute. repeat split; first [reflexivity | lia | discriminate].
    + reflexivity.
    + simpl. lia.
    + vm_compute. reflexivity.
    + apply (H6 13 false eq_refl).
Defined.

(** [A = B] with [A = [1,2,3]] and [B = [9,13]]: 9 has been assigned when
    the copy assignment of 13 throws. *)
Lemma copy_assignment_failure_in_place_witness :
  exists s',
    Vector_copy_assign 0 1
      (mkState {[ 0 := cells [1; 2; 3] 3; 1 := cells [9; 13] 2 ]}
               {[ 0 := mkVector (mkRawMemory (Some 0) 3) 3;
                  1 := mkVector (mkRawMemory (Some 1) 2) 2 ]} 0)
    = Throw s' /\
    owns s' 0 [9; 2; 3] 3 /\
    owns s' 1 [9; 13] 2 /\
    leaked s' = 0.
Proof.
  destruct (copy_assignment_failure_in_place
              (mkState {[ 0 := cells [1; 2; 3] 3; 1 := cells [9; 13] 2 ]}
                       {[ 0 := mkVector (mkRawMemory (Some 0) 3) 3;
                          1 := mkVector (mkRawMemory (Some 1) 2) 2 ]} 0)
              0 1 [1] 2 [3] 3 [9] 13 [] 2)
    as (s' & H1 & H2 & H3 & _ & H5).
  - unfold owns. vm_compute. repeat split; first [reflexivity | lia | discriminate].
  - unfold owns. vm_compute. repeat split; first [reflexivity | lia | discriminate].
  - discriminate.
  - intros V u U a HV Hu HU Hbuf Heq. simpl in HV, HU.
    rewrite !lookup_insert in HV, HU. rewrite !lookup_singleton in HV, HU.
    repeat case_decide; simplify_eq; simpl in *; congruence.
  - simpl. lia.
  - reflexivity.
  - repeat constructor.
  - reflexivity.
  - exists s'. done.
Defined.

End Fragile.

(** ** Values that cannot be default-constructed *)

(** Vectors of [brittle_element] values: what a throwing default
    constructor and a throwing move assignment leave behind. *)
Module Brittle.

#[local] Existing Instance brittle_element.
#[local] Existing Instance word_layout.

Ltac solve_owns :=
  unfold owns; vm_compute; repeat split; first [reflexivity | lia | discriminate].

(** [Resize(5)] on [1,2,3] in a block of 3 cells: the call fails and the
    capacity is 5. *)
Lemma resize_up_failure_keeps_reserve_witness :
  exists s',
    Resize 0 5 (one_vector [1; 2; 3] 3) = Throw s' /\
    Reserve 0 5 (one_vector [1; 2; 3] 3) = Ok tt s' /\
    owns s' 0 [1; 2; 3] 5 /\
    leaked s' = 0.
Proof.
  apply (resize_up_failure_keeps_reserve (one_vector [1; 2; 3] 3) 0 [1; 2; 3] 3 5).
  - solve_owns.
  - simpl. lia.
  - intros _. vm_compute. reflexivity.
  - intros _. repeat constructor.
  - reflexivity.
Defined.

Lemma sized_constructor_failure_releases_witness :
  Vector_size_ctor 0 3 nothing = Throw nothing.
Proof.
  apply (sized_constructor_failure_releases nothing 0 3); [reflexivity | lia].
Defined.

(** Erasing the first element of [1,2,3,13,5]: 2 and 3 have moved to the
    left when the move assignment of 13 throws. *)
Lemma erase_failure_keeps_size_witness :
  exists s',
    Erase 0 (mkIter (Some 0) 0) (one_vector [1; 2; 3; 13; 5] 5) = Throw s' /\
    owns s' 0 [2; 3; 0; 13; 5] 5 /\
    leaked s' = 0.
Proof.
  destruct (erase_failure_keeps_size (one_vector [1; 2; 3; 13; 5] 5) 0
              (mkVector (mkRawMemory (Some 0) 5) 5) [] 1 [2; 3] 13 [5] 5)
    as (s' & z & H1 & _ & _ & H4 & _).
  - solve_owns.
  - reflexivity.
  - repeat constructor.
  - reflexivity.
  - exists s'. split; [exact H1|]. split; [|exact H4].
    vm_compute in H1. injection H1 as <-. solve_owns.
Defined.

(** Inserting in front of 2 in [1,2,14]: the move constructor of 14 throws
    before anything is touched. *)
Lemma emplace_in_place_move_failure_leaves_state_witness :
  Emplace 0 (mkIter (Some 0) 1) (Some 7) (one_vector [1; 2; 14] 5)
  = Throw (one_vector [1; 2; 14] 5).
Proof.
  apply (emplace_in_place_move_failure_leaves_state
           (one_vector [1; 2; 14] 5) 0 (mkVector (mkRawMemory (Some 0) 5) 3)
           [1; 2] 14 5 1 7).
  - solve_owns.
  - reflexivity.
  - simpl. lia.
  - simpl. lia.
  - reflexivity.
Defined.

(** Inserting 13 in front of 2 in [1,2,3] with room for 5: the vector reads
    [1,0,2] afterwards, 3 sits in the cell past its size, and the destructor
    leaks it. *)
Lemma emplace_in_place_failure_strands_an_object_witness :
  exists s' s'',
    Emplace 0 (mkIter (Some 0) 1) (Some 13) (one_vector [1; 2; 3] 5) = Throw s' /\
    objs s' !! 0 = Some (mkVector (mkRawMemory (Some 0) 5) 3) /\
    deref s' (mkIter (Some 0) 2) = Some 2 /\
    cell_at s' (mkIter (Some 0) 3) = Some (Live 3) /\
    Vector_dtor 0 s' = Ok tt s'' /\
    leaked s'' = 1.
Proof.
  destruct (emplace_in_place_failure_strands_an_object
              (one_vector [1; 2; 3] 5) 0 (mkVector (mkRawMemory (Some 0) 5) 3)
              [1] [2] 3 5 13)
    as (s' & z & H1 & H2 & _ & H4 & H5 & s'' & H6 & H7).
  - solve_owns.
  - reflexivity.
  - simpl. lia.
  - reflexivity.
  - repeat constructor.
  - reflexivity.
  - exists s', s''. split; [exact H1|]. split; [by rewrite H2|].
    split; [exact (H4 2 ltac:(simpl; lia))|]. split; [exact H5|].
    split; [exact H6 | exact H7].
Defined.

End Brittle.
